(** * Reflection helpers of FlatBuffers: a shallow embedding

    This development embeds [include/flatbuffers/reflection.h] and proves
    properties of its field accessors, of the in-place resize engine
    ([ResizeContext]) and of the two operations built on it ([SetString]
    and [ResizeVector]).

    Conventions.
    - A FlatBuffer is a [list byte]; a pointer into it is the byte index
      ([Z]) relative to [flatbuf->data()].
    - Fixed-width integers are [Z] with the wrap-around written out.
    - Behaviour that C++ leaves undefined (reads and writes outside the
      buffer, a failed [assert], signed overflow of [int], a null
      dereference) is the outcome [Undefined].
    - Recursion over the buffer is bounded by a fuel argument; running out
      of it is the separate outcome [OutOfFuel]. *)

From Stdlib Require Import String Ascii.
From Stdlib Require Import ZArith List Lia Bool.
From Stdlib Require Import Floats.SpecFloat.
From coqutil Require Import Byte Word.LittleEndianList.
Import ListNotations.
Local Open Scope Z_scope.

Set Implicit Arguments.

(* ------------------------------------------------------------------ *)
(** ** Outcomes *)

Inductive result (A : Type) : Type :=
| Ok (a : A)
| Undefined
| OutOfFuel.
Arguments Ok {A} a.
Arguments Undefined {A}.
Arguments OutOfFuel {A}.

Definition rbind {A B} (r : result A) (k : A -> result B) : result B :=
  match r with
  | Ok a => k a
  | Undefined => Undefined
  | OutOfFuel => OutOfFuel
  end.

Definition of_option {A} (o : option A) : result A :=
  match o with Some a => Ok a | None => Undefined end.

(** [assert(c)]: a failed assertion aborts. *)
Definition assert (c : bool) : result unit :=
  if c then Ok tt else Undefined.

Declare Scope res_scope.
Delimit Scope res_scope with res.
Notation "'let?' x ':=' r 'in' k" :=
  (rbind r (fun x => k))
  (at level 10, x pattern, r at level 100, k at level 200) : res_scope.
Local Open Scope res_scope.

(* ------------------------------------------------------------------ *)
(** ** Buffers and little-endian scalars *)

Definition buffer := list byte.

Definition size (b : buffer) : Z := Z.of_nat (length b).

Definition in_bounds (b : buffer) (addr n : Z) : bool :=
  (0 <=? addr) && (addr + n <=? size b).

(** The [n] bytes at [addr]. *)
Definition load (b : buffer) (addr : Z) (n : nat) : result (list byte) :=
  if in_bounds b addr (Z.of_nat n)
  then Ok (firstn n (skipn (Z.to_nat addr) b))
  else Undefined.

(** Overwrite the bytes at [addr] with [bs]. *)
Definition store (b : buffer) (addr : Z) (bs : list byte) : result buffer :=
  if in_bounds b addr (Z.of_nat (length bs))
  then Ok (firstn (Z.to_nat addr) b ++ bs
             ++ skipn (Z.to_nat addr + length bs) b)
  else Undefined.

(** The integer types of the format: a width in bytes and a signedness. *)
Record scalar_t : Type := { width : nat; is_signed : bool }.

Definition uint8_t   := {| width := 1; is_signed := false |}.
Definition int8_t    := {| width := 1; is_signed := true  |}.
Definition uint16_t  := {| width := 2; is_signed := false |}.
Definition int16_t   := {| width := 2; is_signed := true  |}.
Definition uint32_t  := {| width := 4; is_signed := false |}.
Definition int32_t   := {| width := 4; is_signed := true  |}.
Definition uint64_t  := {| width := 8; is_signed := false |}.
Definition int64_t   := {| width := 8; is_signed := true  |}.

Definition uoffset_t := uint32_t.
Definition soffset_t := int32_t.
Definition voffset_t := uint16_t.

Definition bits (T : scalar_t) : Z := 8 * Z.of_nat (width T).

(** [static_cast<T>(z)]: the value of type [T] with the low bits of [z]. *)
Definition cast (T : scalar_t) (z : Z) : Z :=
  if is_signed T
  then (z + 2 ^ (bits T - 1)) mod 2 ^ bits T - 2 ^ (bits T - 1)
  else z mod 2 ^ bits T.

Definition in_range (T : scalar_t) (z : Z) : bool :=
  if is_signed T
  then (- 2 ^ (bits T - 1) <=? z) && (z <? 2 ^ (bits T - 1))
  else (0 <=? z) && (z <? 2 ^ bits T).

(** Arithmetic on [int]: overflow is undefined. *)
Definition int_op (z : Z) : result Z :=
  if in_range int32_t z then Ok z else Undefined.

Definition ReadScalar (T : scalar_t) (b : buffer) (addr : Z) : result Z :=
  let? bs := load b addr (width T) in
  Ok (cast T (le_combine bs)).

Definition WriteScalar (T : scalar_t) (b : buffer) (addr : Z) (v : Z)
  : result buffer :=
  store b addr (le_split (width T) v).

(** [memset(b + addr, c, n)] and [memcpy(b + addr, src, |src|)]. *)
Definition memset (b : buffer) (addr : Z) (c : byte) (n : Z) : result buffer :=
  store b addr (repeat c (Z.to_nat n)).

Definition memcpy (b : buffer) (addr : Z) (src : list byte) : result buffer :=
  store b addr src.

(** The bytes of the NUL-terminated string at [addr] (terminator excluded);
    running off the buffer is undefined. *)
Fixpoint c_str_from (bs : list byte) : result (list byte) :=
  match bs with
  | [] => Undefined
  | c :: rest =>
      if Byte.eqb c Byte.x00 then Ok []
      else let? s := c_str_from rest in Ok (c :: s)
  end.

Definition c_string (b : buffer) (addr : Z) : result (list byte) :=
  if in_bounds b addr 0 then c_str_from (skipn (Z.to_nat addr) b)
  else Undefined.

(* ------------------------------------------------------------------ *)
(** ** Floating-point scalars

    [float] and [double] values are IEEE 754 binary32 and binary64 numbers,
    represented by the standard library's [spec_float]. *)

Inductive float_t : Type := float_ | double_.

Definition prec (F : float_t) : Z :=
  match F with float_ => 24 | double_ => 53 end.
Definition emax (F : float_t) : Z :=
  match F with float_ => 128 | double_ => 1024 end.
Definition fwidth (F : float_t) : nat :=
  match F with float_ => 4%nat | double_ => 8%nat end.
(** Width of the stored mantissa and exponent fields. *)
Definition mant_bits (F : float_t) : Z := prec F - 1.
Definition exp_bits (F : float_t) : Z := 8 * Z.of_nat (fwidth F) - prec F.
Definition bias (F : float_t) : Z := emax F - 1.

Definition float_of_bits (F : float_t) (x : Z) : spec_float :=
  let s := Z.testbit x (mant_bits F + exp_bits F) in
  let e := (x / 2 ^ mant_bits F) mod 2 ^ exp_bits F in
  let m := x mod 2 ^ mant_bits F in
  if e =? 0 then
    match m with
    | Zpos p => S754_finite s p (emin (prec F) (emax F))
    | _ => S754_zero s
    end
  else if e =? 2 ^ exp_bits F - 1 then
    (if m =? 0 then S754_infinity s else S754_nan)
  else
    S754_finite s (Z.to_pos (m + 2 ^ mant_bits F)) (e - bias F - mant_bits F).

Definition bits_of_float (F : float_t) (f : spec_float) : Z :=
  let sign (s : bool) := if s then 2 ^ (mant_bits F + exp_bits F) else 0 in
  let top := (2 ^ exp_bits F - 1) * 2 ^ mant_bits F in
  match f with
  | S754_zero s => sign s
  | S754_infinity s => sign s + top
  | S754_nan => top + 2 ^ (mant_bits F - 1)
  | S754_finite s m e =>
      if Zpos m <? 2 ^ mant_bits F then sign s + Zpos m
      else sign s + (e + bias F + mant_bits F) * 2 ^ mant_bits F
           + (Zpos m - 2 ^ mant_bits F)
  end.

(** [static_cast<F>(x)] for a floating-point [x]: round to nearest even. *)
Definition fcast (F : float_t) (x : spec_float) : spec_float :=
  match x with
  | S754_finite s m e => binary_round (prec F) (emax F) s m e
  | _ => x
  end.

(** [static_cast<F>(z)] for an integer [z]. *)
Definition float_of_int (F : float_t) (z : Z) : spec_float :=
  binary_normalize (prec F) (emax F) z 0 false.

(** [static_cast<int64_t>(x)]: truncation toward zero; undefined when the
    truncated value is not an [int64_t]. *)
Definition int_of_float (x : spec_float) : result Z :=
  match x with
  | S754_zero _ => Ok 0
  | S754_finite s m e =>
      let t := if 0 <=? e then Zpos m * 2 ^ e else Zpos m / 2 ^ (- e) in
      let z := if s then - t else t in
      if in_range int64_t z then Ok z else Undefined
  | _ => Undefined
  end.

Definition ReadFloat (F : float_t) (b : buffer) (addr : Z) : result spec_float :=
  let? bs := load b addr (fwidth F) in
  Ok (float_of_bits F (le_combine bs)).

Definition WriteFloat (F : float_t) (b : buffer) (addr : Z) (v : spec_float)
  : result buffer :=
  store b addr (le_split (fwidth F) (bits_of_float F v)).

(* ------------------------------------------------------------------ *)
(** ** The reflection schema ([reflection_generated.h])

    The schema is taken as an in-memory object graph; vectors of the
    schema are lists, and [Get(i)] asserts that [i] is in range. *)

Module reflection.

Inductive BaseType : Type :=
| None | UType | Bool | Byte | UByte | Short | UShort | Int | UInt
| Long | ULong | Float | Double | String | Vector | Obj | Union.

(** The numeric value of the enumerator. *)
Definition ord (t : BaseType) : Z :=
  match t with
  | None => 0 | UType => 1 | Bool => 2 | Byte => 3 | UByte => 4
  | Short => 5 | UShort => 6 | Int => 7 | UInt => 8 | Long => 9
  | ULong => 10 | Float => 11 | Double => 12 | String => 13
  | Vector => 14 | Obj => 15 | Union => 16
  end.

Definition eqb (a b : BaseType) : bool := ord a =? ord b.
Definition leb (a b : BaseType) : bool := ord a <=? ord b.

Record Type_ : Type := {
  base_type : BaseType;
  element : BaseType;
  index : Z
}.

Record Field : Type := {
  name : string;
  type : Type_;
  offset : Z;                  (* voffset_t: position in the vtable *)
  default_integer : Z;         (* int64_t *)
  default_real : spec_float    (* double *)
}.

Record Object : Type := {
  object_name : string;
  fields : list Field;
  is_struct : bool;
  minalign : Z;
  bytesize : Z
}.

Record EnumVal : Type := {
  value : Z;
  object : option Object
}.

Record Enum : Type := {
  values : list EnumVal
}.

Record Schema : Type := {
  objects : list Object;
  enums : list Enum;
  root_table : option Object
}.

End reflection.

(** Modelled from the spec: [Vector<T>::Get(i)] of flatbuffers.h on a vector
    of the schema; the index must be in range. *)
Definition Get {A} (v : list A) (i : Z) : result A :=
  if 0 <=? i then of_option (nth_error v (Z.to_nat i)) else Undefined.

(** Modelled from the spec: [Vector<T>::LookupByKey] of flatbuffers.h, the
    search of a schema vector (sorted by key) for the entry with that key;
    a null pointer when there is none. *)
Definition LookupByKey {A K} (key_eqb : K -> K -> bool) (key_of : A -> K)
  (v : list A) (key : K) : option A :=
  find (fun x => key_eqb (key_of x) key) v.

Definition GetTypeSize (base_type : reflection.BaseType) : Z :=
  (* This needs to correspond to the BaseType enum. *)
  let sizes := [0; 1; 1; 1; 1; 2; 2; 4; 4; 8; 8; 4; 8; 4; 4; 4; 4] in
  nth (Z.to_nat (reflection.ord base_type)) sizes 0.

Definition sizeof (T : scalar_t) : Z := Z.of_nat (width T).
Definition fsizeof (F : float_t) : Z := Z.of_nat (fwidth F).

(* ------------------------------------------------------------------ *)
(** ** Layout primitives ([flatbuffers.h])

    A [Table], [String] or [Vector] pointer is the address of the object
    in the buffer. *)

(** Modelled from the spec: [GetRoot]/[GetMutableRoot] of flatbuffers.h; the
    buffer starts with the offset of the root record. *)
Definition GetAnyRoot (flatbuf : buffer) : result Z :=
  let? o := ReadScalar uoffset_t flatbuf 0 in Ok (0 + o).

(** Modelled from the spec: [Table::GetVTable] of flatbuffers.h; the first
    word of a record is the signed offset [soffset], and the vtable is at
    [record_addr - soffset]. *)
Definition GetVTable (b : buffer) (table : Z) : result Z :=
  let? so := ReadScalar soffset_t b table in Ok (table - so).

(** Modelled from the spec: [Table::GetOptionalFieldOffset] of
    flatbuffers.h.  A vtable is a table of 16-bit field offsets indexed by
    vtable offset; its first entry is its own size in bytes, and a field at
    or beyond that size, or with entry 0, is absent. *)
Definition GetOptionalFieldOffset (b : buffer) (table field : Z) : result Z :=
  let? vtable := GetVTable b table in
  let? vtsize := ReadScalar voffset_t b vtable in
  if field <? vtsize then ReadScalar voffset_t b (vtable + field) else Ok 0.

(** Modelled from the spec: [Table::GetField<T>] of flatbuffers.h; the
    stored value, or the default when the field is absent. *)
Definition Table_GetField {V} (read : buffer -> Z -> result V)
  (b : buffer) (table field : Z) (defaultval : V) : result V :=
  let? field_offset := GetOptionalFieldOffset b table field in
  if field_offset =? 0 then Ok defaultval else read b (table + field_offset).

(** Modelled from the spec: [Table::GetPointer] of flatbuffers.h; the
    target of the field's offset slot, or the null pointer ([None]) when the
    field is absent. *)
Definition Table_GetPointer (b : buffer) (table field : Z)
  : result (option Z) :=
  let? field_offset := GetOptionalFieldOffset b table field in
  if field_offset =? 0 then Ok Datatypes.None
  else
    let p := table + field_offset in
    let? o := ReadScalar uoffset_t b p in Ok (Some (p + o)).

(** Modelled from the spec: [Table::SetField<T>] of flatbuffers.h; writes in
    place and returns [false] when the field is absent. *)
Definition Table_SetField {V} (write : buffer -> Z -> V -> result buffer)
  (b : buffer) (table field : Z) (val : V) : result (bool * buffer) :=
  let? field_offset := GetOptionalFieldOffset b table field in
  if field_offset =? 0 then Ok (false, b)
  else let? b' := write b (table + field_offset) val in Ok (true, b').

(** Modelled from the spec: [String::Length], [String::c_str] and
    [Vector::size], [Vector::Data], [Vector::Get] of flatbuffers.h: a
    32-bit length followed by the elements. *)
Definition String_Length (b : buffer) (str : Z) : result Z :=
  ReadScalar uoffset_t b str.

Definition String_c_str (b : buffer) (str : Z) : result (list byte) :=
  c_string b (str + sizeof uoffset_t).

(** [String::str()]: the [Length()] bytes of the string. *)
Definition String_str (b : buffer) (str : Z) : result (list byte) :=
  let? n := String_Length b str in
  load b (str + sizeof uoffset_t) (Z.to_nat n).

Definition Vector_size (b : buffer) (vec : Z) : result Z :=
  ReadScalar uoffset_t b vec.

Definition Vector_Data (vec : Z) : Z := vec + sizeof uoffset_t.

Definition Vector_Get (T : scalar_t) (b : buffer) (vec i : Z) : result Z :=
  let? n := Vector_size b vec in
  let? _ := assert (i <? n) in
  ReadScalar T b (Vector_Data vec + i * sizeof T).

(* ------------------------------------------------------------------ *)
(** ** Field accessors *)

(** The base type of a field and its position in the vtable. *)
Definition base_type_of (field : reflection.Field) : reflection.BaseType :=
  reflection.base_type (reflection.type field).

(** Get a field, if you know it's an integer, and its exact type. *)
Definition GetFieldI (T : scalar_t) (b : buffer) (table : Z)
  (field : reflection.Field) : result Z :=
  let? _ := assert (sizeof T =? GetTypeSize (base_type_of field)) in
  Table_GetField (ReadScalar T) b table (reflection.offset field)
    (cast T (reflection.default_integer field)).

(** Get a field, if you know it's floating point and its exact type. *)
Definition GetFieldF (F : float_t) (b : buffer) (table : Z)
  (field : reflection.Field) : result spec_float :=
  let? _ := assert (fsizeof F =? GetTypeSize (base_type_of field)) in
  Table_GetField (ReadFloat F) b table (reflection.offset field)
    (fcast F (reflection.default_real field)).

(** Get a field, if you know it's a string. *)
Definition GetFieldS (b : buffer) (table : Z) (field : reflection.Field)
  : result (option Z) :=
  let? _ := assert (reflection.eqb (base_type_of field) reflection.String) in
  Table_GetPointer b table (reflection.offset field).

(** Get a field, if you know it's a vector. *)
Definition GetFieldV (sizeof_T : Z) (b : buffer) (table : Z)
  (field : reflection.Field) : result (option Z) :=
  let? _ := assert
    (reflection.eqb (base_type_of field) reflection.Vector
     && (sizeof_T =? GetTypeSize (reflection.element (reflection.type field))))
  in
  Table_GetPointer b table (reflection.offset field).

(** Get a field, if you know it's a table. *)
Definition GetFieldT (b : buffer) (table : Z) (field : reflection.Field)
  : result (option Z) :=
  let? _ := assert
    (reflection.eqb (base_type_of field) reflection.Obj
     || reflection.eqb (base_type_of field) reflection.Union)
  in
  Table_GetPointer b table (reflection.offset field).

(** Set any scalar field, if you know its exact type. *)
Definition SetField (T : scalar_t) (b : buffer) (table : Z)
  (field : reflection.Field) (val : Z) : result (bool * buffer) :=
  let? _ := assert (sizeof T =? GetTypeSize (base_type_of field)) in
  Table_SetField (WriteScalar T) b table (reflection.offset field) val.

Definition SetFieldF (F : float_t) (b : buffer) (table : Z)
  (field : reflection.Field) (val : spec_float) : result (bool * buffer) :=
  let? _ := assert (fsizeof F =? GetTypeSize (base_type_of field)) in
  Table_SetField (WriteFloat F) b table (reflection.offset field) val.

Section AnyField.

(** The C library's number parsers, on the bytes of a NUL-terminated
    string: [StringToInt] (util.h, [strtoll] in base 10) and [strtod]. *)
Variable StringToInt : list byte -> Z.
Variable strtod : list byte -> spec_float.

(** Get any field as a 64bit int, regardless of what it is
    (bool/int/float/str). *)
Definition GetAnyFieldI (b : buffer) (table : Z) (field : reflection.Field)
  : result Z :=
  let GET_I T := let? v := GetFieldI T b table field in Ok (cast int64_t v) in
  let GET_F F := let? v := GetFieldF F b table field in int_of_float v in
  match base_type_of field with
  | reflection.UType
  | reflection.Bool
  | reflection.UByte => GET_I uint8_t
  | reflection.Byte => GET_I int8_t
  | reflection.Short => GET_I int16_t
  | reflection.UShort => GET_I uint16_t
  | reflection.Int => GET_I int32_t
  | reflection.UInt => GET_I uint32_t
  | reflection.Long => GET_I int64_t
  | reflection.ULong => GET_I uint64_t
  | reflection.Float => GET_F float_
  | reflection.Double => GET_F double_
  | reflection.String =>
      let? s := GetFieldS b table field in
      match s with
      | Some s => let? cs := String_c_str b s in Ok (StringToInt cs)
      | Datatypes.None => Ok 0
      end
  | _ => Ok 0
  end.

(** Get any field as a double, regardless of what it is
    (bool/int/float/str). *)
Definition GetAnyFieldF (b : buffer) (table : Z) (field : reflection.Field)
  : result spec_float :=
  match base_type_of field with
  | reflection.Float => GetFieldF float_ b table field
  | reflection.Double => GetFieldF double_ b table field
  | reflection.String =>
      let? s := GetFieldS b table field in
      match s with
      | Some s => let? cs := String_c_str b s in Ok (strtod cs)
      | Datatypes.None => Ok (S754_zero false)
      end
  | _ =>
      let? i := GetAnyFieldI b table field in Ok (float_of_int double_ i)
  end.

(** Set any field as a 64bit int, regardless of what it is
    (bool/int/float/str). *)
Definition SetAnyFieldI (b : buffer) (table : Z) (field : reflection.Field)
  (val : Z) : result buffer :=
  let SET T :=
    let? r := SetField T b table field (cast T val) in Ok (snd r) in
  let SET_F F :=
    let? r := SetFieldF F b table field (float_of_int F val) in Ok (snd r) in
  match base_type_of field with
  | reflection.UType
  | reflection.Bool
  | reflection.UByte => SET uint8_t
  | reflection.Byte => SET int8_t
  | reflection.Short => SET int16_t
  | reflection.UShort => SET uint16_t
  | reflection.Int => SET int32_t
  | reflection.UInt => SET uint32_t
  | reflection.Long => SET int64_t
  | reflection.ULong => SET uint64_t
  | reflection.Float => SET_F float_
  | reflection.Double => SET_F double_
  (* TODO: support strings *)
  | _ => Ok b
  end.

(** Set any field as a double, regardless of what it is
    (bool/int/float/str). *)
Definition SetAnyFieldF (b : buffer) (table : Z) (field : reflection.Field)
  (val : spec_float) : result buffer :=
  match base_type_of field with
  | reflection.Float =>
      let? r := SetFieldF float_ b table field (fcast float_ val) in
      Ok (snd r)
  | reflection.Double =>
      let? r := SetFieldF double_ b table field val in Ok (snd r)
  (* TODO: support strings. *)
  | _ =>
      let? i := int_of_float val in SetAnyFieldI b table field i
  end.

(** Set any field as a string, regardless of what it is
    (bool/int/float/str).  The [Float]/[Double] case has no [break]: control
    falls through into the [default] case. *)
Definition SetAnyFieldS (b : buffer) (table : Z) (field : reflection.Field)
  (val : list byte) : result buffer :=
  match base_type_of field with
  | reflection.Float
  | reflection.Double =>
      let? b1 := SetAnyFieldF b table field (strtod val) in
      (* TODO: support strings. *)
      SetAnyFieldI b1 table field (StringToInt val)
  | _ => SetAnyFieldI b table field (StringToInt val)
  end.

End AnyField.

(** Helper to figure out the actual table type a union refers to. *)
Definition GetUnionType (schema : reflection.Schema)
  (parent : reflection.Object) (unionfield : reflection.Field)
  (b : buffer) (table : Z) : result reflection.Object :=
  let? enumdef :=
    Get (reflection.enums schema)
        (reflection.index (reflection.type unionfield)) in
  let? type_field := of_option
    (LookupByKey String.eqb reflection.name (reflection.fields parent)
       (reflection.name unionfield ++ "_type")%string) in
  let? union_type := GetFieldI uint8_t b table type_field in
  let? enumval := of_option
    (LookupByKey Z.eqb reflection.value (reflection.values enumdef)
       union_type) in
  of_option (reflection.object enumval).

(* ------------------------------------------------------------------ *)
(** ** The resize engine: [class ResizeContext]

    The state of the walk is the buffer [buf_] and the visit bits
    [dag_check_].  [trace] is a ghost record, most recent event first, of
    what the walk does to offset slots and visit bits; no code reads it. *)

(** How the walk came to an offset slot. *)
Inductive slot_kind : Type :=
| RootSlot      (* the root offset at the start of the buffer *)
| TableSlot     (* a record's soffset, read by [GetVTable] on entry *)
| FieldLookup   (* a record's soffset, read again to look up a field *)
| FieldSlot     (* the offset slot of a field *)
| ElemSlot.     (* the offset slot of a vector element *)

Inductive event : Type :=
| EvCheck (loc : Z) (visited : bool)
    (* [DagCheck(loc)] was consulted and answered [visited] *)
| EvRead (k : slot_kind) (loc : Z) (raw : Z)
    (* the slot at [loc], holding the 32 bits [raw], was read *)
| EvPatch (loc : Z) (old new : Z).
    (* [Straddle] rewrote the slot at [loc] and set its visit bit *)

Record Ctx : Type := {
  buf_ : buffer;
  dag_check_ : list bool;
  trace : list event
}.

Definition M (A : Type) : Type := Ctx -> result (A * Ctx).

Definition ret {A} (a : A) : M A := fun st => Ok (a, st).

Definition bind {A B} (m : M A) (k : A -> M B) : M B :=
  fun st => let? r := m st in k (fst r) (snd r).

(** A computation that only reads the buffer. *)
Definition lift {A} (f : buffer -> result A) : M A :=
  fun st => let? a := f (buf_ st) in Ok (a, st).

Definition out_of_fuel {A} : M A := fun _ => OutOfFuel.

Definition emit (e : event) (st : Ctx) : Ctx :=
  {| buf_ := buf_ st; dag_check_ := dag_check_ st; trace := e :: trace st |}.

Declare Scope walk_scope.
Delimit Scope walk_scope with walk.
Notation "x <- m ;; k" := (bind m (fun x => k))
  (at level 61, m at next level, right associativity) : walk_scope.
Notation "m ;; k" := (bind m (fun _ => k))
  (at level 61, right associativity) : walk_scope.

(** The index of the visit bit of the slot at [offsetloc]:
    [(uoffset_t * )offsetloc - (uoffset_t * )buf_.data()]. *)
Definition dag_idx (offsetloc : Z) : Z := offsetloc / sizeof uoffset_t.

(** [dag_check_[dag_idx]], read and written; an index outside the vector
    is undefined. *)
Definition dag_get (d : list bool) (offsetloc : Z) : result bool :=
  Get d (dag_idx offsetloc).

Definition dag_set (d : list bool) (offsetloc : Z) : result (list bool) :=
  let i := dag_idx offsetloc in
  if (0 <=? i) && (i <? Z.of_nat (length d))
  then Ok (firstn (Z.to_nat i) d ++ true :: skipn (S (Z.to_nat i)) d)
  else Undefined.

(** Reading [DagCheck(offsetloc)]. *)
Definition DagCheck (offsetloc : Z) : M bool :=
  fun st =>
    let? visited := dag_get (dag_check_ st) offsetloc in
    Ok (visited, emit (EvCheck offsetloc visited) st).

(** A read of the offset slot at [loc] by the buffer reader [f]. *)
Definition reading {A} (k : slot_kind) (loc : Z) (f : buffer -> result A)
  : M A :=
  fun st =>
    let? raw := ReadScalar uoffset_t (buf_ st) loc in
    let? a := f (buf_ st) in
    Ok (a, emit (EvRead k loc raw) st).

(** Iteration over a schema vector. *)
Fixpoint for_each {A} (body : A -> M unit) (l : list A) : M unit :=
  match l with
  | [] => ret tt
  | x :: rest => bind (body x) (fun _ => for_each body rest)
  end.

Section ResizeContext.

Local Open Scope walk_scope.

Variable schema_ : reflection.Schema.
Variable startptr_ : Z.
Variable delta_ : Z.

(** Check if the range between first (lower address) and second straddles
    the insertion point. If it does, change the offset at offsetloc (of
    type T, with direction D). *)
Definition Straddle (T : scalar_t) (D : Z) (first second offsetloc : Z)
  : M unit :=
  if (first <=? startptr_) && (second >=? startptr_) then
    fun st =>
      let? old := ReadScalar T (buf_ st) offsetloc in
      let? d := int_op (delta_ * D) in
      let? new := if is_signed T then int_op (old + d)
                  else Ok (cast T (old + d)) in
      let? b := WriteScalar T (buf_ st) offsetloc new in
      let? dag := dag_set (dag_check_ st) offsetloc in
      Ok (tt, {| buf_ := b; dag_check_ := dag;
                 trace := EvPatch offsetloc old new :: trace st |})
  else ret tt.

(** The body of the loop over the elements of a vector of tables. *)
Definition ResizeElem (rec : Z -> M unit) (vec : Z) (i : Z) : M unit :=
  let loc := Vector_Data vec + i * sizeof uoffset_t in
  visited <- DagCheck loc ;;
  if visited then ret tt  (* This offset already visited. *)
  else
  o <- reading ElemSlot loc (fun b => Vector_Get uoffset_t b vec i) ;;
  let dest := loc + o in
  Straddle uoffset_t 1 loc dest loc ;;
  rec dest.

(** [for (uoffset_t i = 0; i < vec->size(); i++)]; [n] bounds the number
    of iterations. *)
Fixpoint ResizeElems (rec : Z -> M unit) (vec : Z) (n : nat) (i : Z)
  : M unit :=
  match n with
  | O => out_of_fuel
  | S n' =>
      sz <- lift (fun b => Vector_size b vec) ;;
      if i <? sz then
        ResizeElem rec vec i ;;
        ResizeElems rec vec n' (cast uoffset_t (i + 1))
      else ret tt
  end.

(** The body of the loop over the fields of a table. *)
Definition ResizeField (rec : reflection.Object -> Z -> M unit) (fuel : nat)
  (objectdef : reflection.Object) (table : Z) (fielddef : reflection.Field)
  : M unit :=
  let base_type := base_type_of fielddef in
  (* Ignore scalars. *)
  if reflection.leb base_type reflection.Double then ret tt else
  (* Ignore fields that are not stored. *)
  offset <- reading FieldLookup table
              (fun b => GetOptionalFieldOffset b table
                          (reflection.offset fielddef)) ;;
  if offset =? 0 then ret tt else
  (* Ignore structs. *)
  subobjectdef <-
    (if reflection.eqb base_type reflection.Obj
     then lift (fun _ =>
            let? o := Get (reflection.objects schema_)
                          (reflection.index (reflection.type fielddef)) in
            Ok (Some o))
     else ret Datatypes.None) ;;
  if match subobjectdef with
     | Some o => reflection.is_struct o
     | Datatypes.None => false
     end
  then ret tt else
  (* Get this fields' offset, and read it if safe. *)
  let offsetloc := table + offset in
  visited <- DagCheck offsetloc ;;
  if visited then ret tt  (* This offset already visited. *)
  else
  o <- reading FieldSlot offsetloc
         (fun b => ReadScalar uoffset_t b offsetloc) ;;
  let ref := offsetloc + o in
  Straddle uoffset_t 1 offsetloc ref offsetloc ;;
  (* Recurse. *)
  match base_type with
  | reflection.Obj =>
      match subobjectdef with
      | Some o => rec o ref
      | Datatypes.None => lift (fun _ => Undefined)
      end
  | reflection.Vector =>
      if negb (reflection.eqb (reflection.element (reflection.type fielddef))
                 reflection.Obj)
      then ret tt
      else
        elemobjectdef <- lift (fun _ =>
          Get (reflection.objects schema_)
              (reflection.index (reflection.type fielddef))) ;;
        if reflection.is_struct elemobjectdef then ret tt
        else ResizeElems (rec elemobjectdef) ref fuel 0
  | reflection.Union =>
      od <- reading FieldLookup table
              (fun b => GetUnionType schema_ objectdef fielddef b table) ;;
      rec od ref
  | reflection.String => ret tt
  | _ => lift (fun _ => Undefined)  (* assert(false) *)
  end.

Fixpoint ResizeTable (fuel : nat) (objectdef : reflection.Object) (table : Z)
  : M unit :=
  match fuel with
  | O => out_of_fuel
  | S fuel' =>
      visited <- DagCheck table ;;
      if visited then ret tt  (* Table already visited. *)
      else
      vtable <- reading TableSlot table (fun b => GetVTable b table) ;;
      (* Check if the vtable offset points beyond the insertion point. *)
      Straddle soffset_t (-1) table vtable table ;;
      (* This direction shouldn't happen because vtables that sit before
         tables are always directly adjacent, but check just in case we
         ever change the way flatbuffers are built. *)
      Straddle soffset_t (-1) vtable table table ;;
      (* Early out: since all fields inside the table must point forwards
         in memory, if the insertion point is before the table we can stop
         here. *)
      let tableloc := table in
      if startptr_ <=? tableloc then ret tt else
      (* Check each field. *)
      for_each (ResizeField (ResizeTable fuel') fuel' objectdef table)
               (reflection.fields objectdef)
  end.

(** The part of the constructor that changes all the offsets by [delta_]. *)
Definition ResizeOffsets (fuel : nat) : M unit :=
  root <- reading RootSlot 0 GetAnyRoot ;;
  Straddle uoffset_t 1 0 root 0 ;;
  root_table <- lift (fun _ => of_option (reflection.root_table schema_)) ;;
  ResizeTable fuel root_table root.

End ResizeContext.

(** [sizeof(largest_scalar_t)]. *)
Definition sizeof_largest_scalar_t : Z := 8.

(** [delta_ = (delta_ + mask) & ~mask]. *)
Definition round_delta (delta : Z) : result Z :=
  let mask := sizeof_largest_scalar_t - 1 in
  let? s := int_op (delta + mask) in
  Ok (Z.land s (Z.lnot mask)).

(** The state in which the constructor starts the walk. *)
Definition initial_ctx (flatbuf : buffer) : Ctx :=
  {| buf_ := flatbuf;
     dag_check_ :=
       repeat false (Z.to_nat (size flatbuf / sizeof uoffset_t));
     trace := [] |}.

(** [buf_.insert(buf_.begin() + start, delta_, 0)]. *)
Definition insert_zeros (b : buffer) (start n : Z) : result buffer :=
  if in_bounds b start 0
  then Ok (firstn (Z.to_nat start) b ++ repeat Byte.x00 (Z.to_nat n)
             ++ skipn (Z.to_nat start) b)
  else Undefined.

(** [buf_.erase(buf_.begin() + first, buf_.begin() + last)]. *)
Definition erase (b : buffer) (first last : Z) : result buffer :=
  if (first <=? last) && in_bounds b first (last - first)
  then Ok (firstn (Z.to_nat first) b ++ skipn (Z.to_nat last) b)
  else Undefined.

(** The fuel the walk is run with: more than it can use on this buffer. *)
Definition walk_fuel (flatbuf : buffer) : nat := S (length flatbuf).

(** The walk of the constructor, with its ghost trace. *)
Definition ResizeContext_walk (schema : reflection.Schema) (start : Z)
  (delta_ : Z) (flatbuf : buffer) : result Ctx :=
  let? r := ResizeOffsets schema start delta_ (walk_fuel flatbuf)
              (initial_ctx flatbuf) in
  Ok (snd r).

(** Resize a FlatBuffer in-place by iterating through all offsets in the
    buffer and adjusting them by "delta" if they straddle the start offset.
    Once that is done, bytes can now be inserted/deleted safely.
    "delta" may be negative (shrinking). *)
Definition ResizeContext (schema : reflection.Schema) (start : Z)
  (delta : Z) (flatbuf : buffer) : result buffer :=
  let? delta_ := round_delta delta in
  if delta_ =? 0 then Ok flatbuf  (* We can't shrink by less than
                                     largest_scalar_t. *)
  else
    (* Now change all the offsets by delta_. *)
    let? st := ResizeContext_walk schema start delta_ flatbuf in
    (* We can now add or remove bytes at start. *)
    if delta_ >? 0 then insert_zeros (buf_ st) start delta_
    else erase (buf_ st) start (start - delta_).

(* ------------------------------------------------------------------ *)
(** ** [SetString] and [ResizeVector] *)

(** Changes the contents of a string inside a FlatBuffer.  [val] holds the
    [val.size()] bytes of the new value, [str] is the address of the string
    in [flatbuf]; the result is the buffer after the call. *)
Definition SetString (schema : reflection.Schema) (val : list byte)
  (str : Z) (flatbuf : buffer) : result buffer :=
  let? len := String_Length flatbuf str in
  let? delta := int_op (cast int32_t (size val) - cast int32_t len) in
  let start := cast uoffset_t (str - 0 + sizeof uoffset_t) in
  let? flatbuf1 :=
    if negb (delta =? 0) then
      (* Different size, we must expand (or contract). *)
      let? fb := ResizeContext schema start delta flatbuf in
      if delta <? 0 then
        (* Clear the old string, since we don't want parts of it
           remaining. *)
        let? len' := String_Length fb str in
        memset fb start Byte.x00 len'
      else Ok fb
    else Ok flatbuf in
  (* Copy new data. Safe because we created the right amount of space. *)
  memcpy flatbuf1 start (val ++ [Byte.x00]).

(** The element type [T] of [ResizeVector<T>] together with the fill value
    [val]: a scalar, stored by [WriteScalar], or a struct, given by its
    bytes and stored by assignment. *)
Inductive fill_value : Type :=
| ScalarFill (T : scalar_t) (val : Z)
| StructFill (val : list byte).

Definition fill_sizeof (v : fill_value) : Z :=
  match v with
  | ScalarFill T _ => sizeof T
  | StructFill bs => size bs
  end.

Definition write_fill (v : fill_value) (b : buffer) (loc : Z) : result buffer :=
  match v with
  | ScalarFill T val => WriteScalar T b loc val
  | StructFill bs => store b loc bs
  end.

(** [for (int i = 0; i < delta_elem; i++)]: [n] is the number of
    iterations left. *)
Fixpoint fill_new_elements (v : fill_value) (start : Z) (n : nat) (i : Z)
  (b : buffer) : result buffer :=
  match n with
  | O => Ok b
  | S n' =>
      let loc := start + i * fill_sizeof v in
      let? b' := write_fill v b loc in
      fill_new_elements v start n' (i + 1) b'
  end.

(** Resizes a flatbuffers::Vector inside a FlatBuffer. *)
Definition ResizeVector (schema : reflection.Schema) (newsize : Z)
  (val : fill_value) (vec : Z) (flatbuf : buffer) : result buffer :=
  let? vec_size := Vector_size flatbuf vec in
  let? delta_elem := int_op (cast int32_t newsize - cast int32_t vec_size) in
  let? delta_bytes := int_op (delta_elem * cast int32_t (fill_sizeof val)) in
  let vec_start := vec - 0 in
  let start := cast uoffset_t
    (vec_start + sizeof uoffset_t + fill_sizeof val * vec_size) in
  if negb (delta_bytes =? 0) then
    let? fb := ResizeContext schema start delta_bytes flatbuf in
    (* Length field. *)
    let? fb := WriteScalar uoffset_t fb vec_start newsize in
    (* Set new elements to "val". *)
    fill_new_elements val start (Z.to_nat delta_elem) 0 fb
  else Ok flatbuf.

(* ------------------------------------------------------------------ *)
(** ** Example buffers *)

Definition u16 (z : Z) : list byte := le_split 2 z.
Definition u32 (z : Z) : list byte := le_split 4 z.
Definition chars (s : string) : list byte := list_byte_of_string s.

Definition mkType (bt el : reflection.BaseType) (idx : Z) : reflection.Type_ :=
  {| reflection.base_type := bt; reflection.element := el;
     reflection.index := idx |}.

Definition mkField (n : string) (ty : reflection.Type_) (off : Z)
  : reflection.Field :=
  {| reflection.name := n; reflection.type := ty; reflection.offset := off;
     reflection.default_integer := 0;
     reflection.default_real := S754_zero false |}.

Definition mkTable (n : string) (fs : list reflection.Field)
  : reflection.Object :=
  {| reflection.object_name := n; reflection.fields := fs;
     reflection.is_struct := false; reflection.minalign := 1;
     reflection.bytesize := 0 |}.

(** *** A record with two strings and an integer

    [table Pet { name:string; hp:int; tag:string; }] holding
    [name = "ab"], [hp = 80], [tag = "xy"]. *)
Module Pet.

Definition name := mkField "name" (mkType reflection.String reflection.None (-1)) 4.
Definition hp := mkField "hp" (mkType reflection.Int reflection.None (-1)) 6.
Definition tag := mkField "tag" (mkType reflection.String reflection.None (-1)) 8.
Definition object := mkTable "Pet" [hp; name; tag].

Definition schema : reflection.Schema :=
  {| reflection.objects := [object]; reflection.enums := [];
     reflection.root_table := Some object |}.

Definition buf : buffer :=
     u32 16                               (*  0: root offset            *)
  ++ u16 10 ++ u16 16                     (*  4: vtable: size, table size *)
  ++ u16 4 ++ u16 8 ++ u16 12             (*  8: name, hp, tag          *)
  ++ u16 0                                (* 14: padding                *)
  ++ u32 12                               (* 16: table: soffset         *)
  ++ u32 12                               (* 20: name -> 32            *)
  ++ u32 80                               (* 24: hp                     *)
  ++ u32 12                               (* 28: tag -> 40             *)
  ++ u32 2 ++ chars "ab" ++ u16 0         (* 32: "ab"                   *)
  ++ u32 2 ++ chars "xy" ++ u16 0.        (* 40: "xy"                   *)

Definition root : Z := 16.
Definition name_str : Z := 32.

End Pet.

(** *** A vector followed by a record that shares a later vtable

    [table Cell { a:int; }] and
    [table Farm { v:[int]; t:Cell; x:Cell; }] holding [v = [10,20,30]],
    [t = {a:7}], [x = {a:9}].  [x] was built first, so its vtable is
    directly before it; [t] shares that vtable, which lies after [t]; the
    vector [v] ends where [t] starts. *)
Module Farm.

Definition a := mkField "a" (mkType reflection.Int reflection.None (-1)) 4.
Definition Cell := mkTable "Cell" [a].

Definition v := mkField "v" (mkType reflection.Vector reflection.Int (-1)) 4.
Definition t := mkField "t" (mkType reflection.Obj reflection.None 0) 6.
Definition x := mkField "x" (mkType reflection.Obj reflection.None 0) 8.
Definition object := mkTable "Farm" [t; v; x].

Definition schema : reflection.Schema :=
  {| reflection.objects := [Cell; object]; reflection.enums := [];
     reflection.root_table := Some object |}.

Definition buf : buffer :=
     u32 16                               (*  0: root offset            *)
  ++ u16 10 ++ u16 16                     (*  4: vtable of Farm         *)
  ++ u16 4 ++ u16 8 ++ u16 12             (*  8: v, t, x                *)
  ++ u16 0                                (* 14: padding                *)
  ++ u32 12                               (* 16: Farm: soffset          *)
  ++ u32 12                               (* 20: v -> 32               *)
  ++ u32 24                               (* 24: t -> 48               *)
  ++ u32 36                               (* 28: x -> 64               *)
  ++ u32 3 ++ u32 10 ++ u32 20 ++ u32 30  (* 32: the vector             *)
  ++ u32 (-10) ++ u32 7                   (* 48: t: soffset (vtable at 58), a *)
  ++ u16 0                                (* 56: padding                *)
  ++ u16 6 ++ u16 8 ++ u16 4              (* 58: vtable of Cell         *)
  ++ u32 6 ++ u32 9.                      (* 64: x: soffset, a          *)

Definition root : Z := 16.
Definition vec : Z := 32.
Definition t_table : Z := 48.
Definition x_table : Z := 64.

End Farm.

(** *** Two fields that refer to the same record

    [table Node { s:string; }] and [table Pair { a:Node; b:Node; }] where
    [a] and [b] are the same record, holding [s = "hi"]. *)
Module Pair.

Definition s := mkField "s" (mkType reflection.String reflection.None (-1)) 4.
Definition Node := mkTable "Node" [s].

Definition a := mkField "a" (mkType reflection.Obj reflection.None 0) 4.
Definition b := mkField "b" (mkType reflection.Obj reflection.None 0) 6.
Definition object := mkTable "Pair" [a; b].

Definition schema : reflection.Schema :=
  {| reflection.objects := [Node; object]; reflection.enums := [];
     reflection.root_table := Some object |}.

Definition buf : buffer :=
     u32 16                               (*  0: root offset            *)
  ++ u16 8 ++ u16 12 ++ u16 4 ++ u16 8    (*  4: vtable of Pair         *)
  ++ u32 0                                (* 12: padding                *)
  ++ u32 12                               (* 16: Pair: soffset          *)
  ++ u32 20                               (* 20: a -> 40               *)
  ++ u32 16                               (* 24: b -> 40               *)
  ++ u32 0                                (* 28: padding                *)
  ++ u16 6 ++ u16 8 ++ u16 4 ++ u16 0     (* 32: vtable of Node         *)
  ++ u32 8                                (* 40: Node: soffset          *)
  ++ u32 4                                (* 44: s -> 48               *)
  ++ u32 2 ++ chars "hi" ++ u16 0.        (* 48: "hi"                   *)

Definition node_s_slot : Z := 44.
Definition str : Z := 48.

End Pair.

(** *** A record with a [float] field

    [table Pt { x:float; label:string; }] holding [x = 1.0]; [label] is
    absent. *)
Module Pt.

Definition x := mkField "x" (mkType reflection.Float reflection.None (-1)) 4.
Definition label :=
  mkField "label" (mkType reflection.String reflection.None (-1)) 6.
Definition object := mkTable "Pt" [label; x].

Definition buf : buffer :=
     u32 12                               (*  0: root offset            *)
  ++ u16 8 ++ u16 8 ++ u16 4 ++ u16 0     (*  4: vtable: x, label absent *)
  ++ u32 8                                (* 12: Pt: soffset            *)
  ++ u32 1065353216.                      (* 16: x = 1.0f               *)

Definition root : Z := 12.

(** The values 3.5 and 3.0. *)
Definition three_and_a_half : spec_float := S754_finite false 7 (-1).
Definition three : spec_float := float_of_int double_ 3.

End Pt.

(** *** A vector of strings

    [table Names { list:[string]; }] holding [list = ["a", "b"]]. *)
Module Names.

Definition list_ :=
  mkField "list" (mkType reflection.Vector reflection.String (-1)) 4.
Definition object := mkTable "Names" [list_].

Definition schema : reflection.Schema :=
  {| reflection.objects := [object]; reflection.enums := [];
     reflection.root_table := Some object |}.

Definition buf : buffer :=
     u32 12                               (*  0: root offset            *)
  ++ u16 6 ++ u16 8 ++ u16 4 ++ u16 0     (*  4: vtable of Names        *)
  ++ u32 8                                (* 12: Names: soffset         *)
  ++ u32 4                                (* 16: list -> 20            *)
  ++ u32 2 ++ u32 8 ++ u32 12             (* 20: the vector: -> 32, -> 40 *)
  ++ u32 1 ++ chars "a" ++ [Byte.x00] ++ u16 0   (* 32: "a"             *)
  ++ u32 1 ++ chars "b" ++ [Byte.x00] ++ u16 0.  (* 40: "b"             *)

Definition root : Z := 12.
Definition vec : Z := 20.
Definition first_str : Z := 32.

End Names.

(** *** A record that is its own vtable

    A malformed buffer: the root record has soffset 0. *)
Module Selfie.

Definition object := mkTable "Selfie" [].

Definition schema : reflection.Schema :=
  {| reflection.objects := [object]; reflection.enums := [];
     reflection.root_table := Some object |}.

Definition buf : buffer :=
     u32 8                                (*  0: root offset            *)
  ++ u32 0                                (*  4: padding                *)
  ++ u32 0.                               (*  8: the record: soffset 0  *)

Definition root : Z := 8.

End Selfie.

(** *** A record whose shared vtable lies after the string it refers to

    [table Cell { name:string; next:Cell; }]; the root has
    [name = "ab"] and [next] with [name = "cd"], whose [next] has
    [name = "ef"].  The root shares the vtable of its [next], which lies
    after the root's string. *)
Module Chain.

Definition name :=
  mkField "name" (mkType reflection.String reflection.None (-1)) 4.
Definition next := mkField "next" (mkType reflection.Obj reflection.None 0) 6.
Definition Cell := mkTable "Cell" [name; next].

Definition schema : reflection.Schema :=
  {| reflection.objects := [Cell]; reflection.enums := [];
     reflection.root_table := Some Cell |}.

Definition buf : buffer :=
     u32 4                                (*  0: root offset            *)
  ++ u32 (-20)                            (*  4: root: soffset (vtable at 24) *)
  ++ u32 8                                (*  8: name -> 16            *)
  ++ u32 20                               (* 12: next -> 32            *)
  ++ u32 2 ++ chars "ab" ++ u16 0         (* 16: "ab"                   *)
  ++ u16 8 ++ u16 12 ++ u16 4 ++ u16 8    (* 24: vtable: name, next     *)
  ++ u32 8                                (* 32: second: soffset        *)
  ++ u32 32                               (* 36: name -> 68            *)
  ++ u32 12                               (* 40: next -> 52            *)
  ++ u16 0 ++ u16 6 ++ u16 8 ++ u16 4     (* 44: padding; 46: vtable: name *)
  ++ u32 6                                (* 52: third: soffset         *)
  ++ u32 4                                (* 56: name -> 60            *)
  ++ u32 2 ++ chars "ef" ++ u16 0         (* 60: "ef"                   *)
  ++ u32 2 ++ chars "cd" ++ u16 0.        (* 68: "cd"                   *)

Definition root : Z := 4.
Definition root_name : Z := 16.
Definition second : Z := 32.

End Chain.

(* ------------------------------------------------------------------ *)
(** ** Vocabulary of the properties *)

(** The byte at address [p], if there is one. *)
Definition byte_at (b : buffer) (p : Z) : option byte :=
  if 0 <=? p then nth_error b (Z.to_nat p) else None.

(** *** The trace of a walk *)

Definition event_loc (e : event) : Z :=
  match e with
  | EvCheck loc _ => loc
  | EvRead _ loc _ => loc
  | EvPatch loc _ _ => loc
  end.

(** The slots rewritten in a trace, and the visit bits set with them. *)
Definition patched (l : list event) : list Z :=
  flat_map (fun e => match e with EvPatch loc _ _ => [loc] | _ => [] end) l.

Definition marked (l : list event) : list Z := map dag_idx (patched l).

(** The byte at [p] lies in no slot rewritten in [l]. *)
Definition untouched (l : list event) (p : Z) : Prop :=
  forall loc, In loc (patched l) -> p < loc \/ loc + sizeof uoffset_t <= p.

(** No record entered in [l] is its own vtable (has soffset 0). *)
Definition self_vtable_free (l : list event) : Prop :=
  forallb (fun e => match e with
                    | EvRead TableSlot _ 0 => false
                    | _ => true
                    end) l = true.

(** The slots the walk reads only after consulting their visit bit. *)
Definition checked_kind (k : slot_kind) : bool :=
  match k with
  | TableSlot | FieldSlot | ElemSlot => true
  | RootSlot | FieldLookup => false
  end.

(** Every read of such a slot comes directly after a [DagCheck] of that
    slot answered [false] (the trace has the most recent event first). *)
Fixpoint consulted_before_read (l : list event) : bool :=
  match l with
  | [] => true
  | EvRead k loc _ :: rest =>
      (if checked_kind k then
         match rest with
         | EvCheck loc' false :: _ => loc' =? loc
         | _ => false
         end
       else true) && consulted_before_read rest
  | _ :: rest => consulted_before_read rest
  end.

(** How often the slot at [loc] was read as a field or element slot. *)
Definition slot_reads (loc : Z) (l : list event) : nat :=
  length (filter (fun e => match e with
                           | EvRead FieldSlot loc' _
                           | EvRead ElemSlot loc' _ => loc' =? loc
                           | _ => false
                           end) l).

(** [steps st l st']: the walk went from [st] to [st'], adding the events
    [l]; only patched slots and their visit bits changed. *)
Record steps (st : Ctx) (l : list event) (st' : Ctx) : Prop := {
  steps_trace : trace st' = l ++ trace st;
  steps_size : size (buf_ st') = size (buf_ st);
  steps_dag_length : length (dag_check_ st') = length (dag_check_ st);
  steps_frame : forall p,
    untouched l p -> byte_at (buf_ st') p = byte_at (buf_ st) p;
  steps_marked : forall i,
    In i (marked l) -> Get (dag_check_ st') i = Ok true;
  steps_unmarked : forall i,
    ~ In i (marked l) -> Get (dag_check_ st') i = Get (dag_check_ st) i
}.

(** Each visit bit set in [l] was clear in [st] and is set once. *)
Definition once (st : Ctx) (l : list event) : Prop :=
  self_vtable_free l ->
  NoDup (marked l) /\
  forall i, In i (marked l) -> Get (dag_check_ st) i = Ok false.

Definition walked (st : Ctx) (l : list event) (st' : Ctx) : Prop :=
  steps st l st' /\ once st l /\ consulted_before_read l = true.

(** The slots that [ResizeContext] rewrites on its walk. *)
Definition patched_slots (schema : reflection.Schema) (start delta : Z)
  (flatbuf : buffer) : list Z :=
  match round_delta delta with
  | Ok delta_ =>
      if delta_ =? 0 then []
      else match ResizeContext_walk schema start delta_ flatbuf with
           | Ok st => patched (trace st)
           | _ => []
           end
  | _ => []
  end.

(** The elements of the vector at [vec], read as scalars of type [T]. *)
Fixpoint read_scalars (T : scalar_t) (b : buffer) (addr : Z) (n : nat)
  : result (list Z) :=
  match n with
  | O => Ok []
  | S n' =>
      let? v := ReadScalar T b addr in
      let? rest := read_scalars T b (addr + sizeof T) n' in
      Ok (v :: rest)
  end.

Definition Vector_elements (T : scalar_t) (b : buffer) (vec : Z)
  : result (list Z) :=
  let? n := Vector_size b vec in
  read_scalars T b (Vector_Data vec) (Z.to_nat n).

(** The events of [ResizeField] that concern the field's own slot. *)
Definition own_slot_event (table slot : Z) (e : event) : Prop :=
  match e with
  | EvRead FieldLookup loc _ => loc = table
  | EvRead FieldSlot loc _ => loc = slot
  | EvRead _ _ _ => False
  | EvCheck loc _ => loc = slot
  | EvPatch loc _ _ => loc = slot
  end.

(** What is proved of every part of the walk: it goes from [st] to [st']
    by steps that are [walked]. *)
Definition walks (m : M unit) : Prop :=
  forall st st', m st = Ok (tt, st') -> exists tr, walked st tr st'.

(* ------------------------------------------------------------------ *)
(** ** Vocabulary of the accessor properties *)

(** The C type in which [GetAnyFieldI] and [SetAnyFieldI] read and write a
    field of an integer base type. *)
Definition int_type_of (t : reflection.BaseType) : option scalar_t :=
  match t with
  | reflection.UType | reflection.Bool | reflection.UByte => Some uint8_t
  | reflection.Byte => Some int8_t
  | reflection.Short => Some int16_t
  | reflection.UShort => Some uint16_t
  | reflection.Int => Some int32_t
  | reflection.UInt => Some uint32_t
  | reflection.Long => Some int64_t
  | reflection.ULong => Some uint64_t
  | _ => Datatypes.None
  end.

(** The field with vtable offset [field] is stored in the record at
    [table], its [n] bytes lie inside the buffer, after the record's soffset
    word and apart from the vtable entries that locate it. *)
Definition field_stored (b : buffer) (table field n : Z) : bool :=
  match GetVTable b table, GetOptionalFieldOffset b table field with
  | Ok vtable, Ok off =>
      (0 <=? field) && (sizeof soffset_t <=? off)
      && in_bounds b (table + off) n
      && ((table + off + n <=? vtable)
          || (vtable + field + sizeof voffset_t <=? table + off))
  | _, _ => false
  end.

(** A field [count:short = -5] of the record [Pt], where it is absent. *)
Definition Pt_count : reflection.Field :=
  {| reflection.name := "count";
     reflection.type := mkType reflection.Short reflection.None (-1);
     reflection.offset := 6;
     reflection.default_integer := -5;
     reflection.default_real := S754_zero false |}.




(* ------------------------------------------------------------------ *)
(** ** Vocabulary of the resize properties *)

(** The byte at [p] lies in no slot that [ResizeContext] patches. *)
Definition unpatched (schema : reflection.Schema) (start delta : Z)
  (flatbuf : buffer) (p : Z) : Prop :=
  Forall (fun loc => p < loc \/ loc + sizeof uoffset_t <= p)
    (patched_slots schema start delta flatbuf).

(** *** A long string followed by a short one

    [table Memo { text:string; tag:string; }] holding
    [text = "hello, world"] and [tag = "xy"]. *)
Module Memo.

Definition text :=
  mkField "text" (mkType reflection.String reflection.None (-1)) 4.
Definition tag :=
  mkField "tag" (mkType reflection.String reflection.None (-1)) 6.
Definition object := mkTable "Memo" [tag; text].

Definition schema : reflection.Schema :=
  {| reflection.objects := [object]; reflection.enums := [];
     reflection.root_table := Some object |}.

Definition buf : buffer :=
     u32 16                               (*  0: root offset            *)
  ++ u16 8 ++ u16 12 ++ u16 4 ++ u16 8    (*  4: vtable: text, tag      *)
  ++ u32 0                                (* 12: padding                *)
  ++ u32 12                               (* 16: Memo: soffset          *)
  ++ u32 8                                (* 20: text -> 28            *)
  ++ u32 24                               (* 24: tag -> 48             *)
  ++ u32 12 ++ chars "hello, world"       (* 28: the text               *)
  ++ u32 0                                (* 44: terminator and padding *)
  ++ u32 2 ++ chars "xy" ++ u16 0.        (* 48: "xy"                   *)

Definition root : Z := 16.
Definition text_str : Z := 28.

End Memo.

(** [Pet.buf] after [ResizeContext] made room for 4 more bytes at 36, and
    [Memo.buf] after it took 10 bytes away at 32. *)
Definition Pet_grown : buffer :=
  Eval vm_compute in
    match ResizeContext Pet.schema 36 4 Pet.buf with
    | Ok b => b
    | _ => []
    end.

Definition Memo_shrunk : buffer :=
  Eval vm_compute in
    match ResizeContext Memo.schema 32 (-10) Memo.buf with
    | Ok b => b
    | _ => []
    end.

(** [Memo.buf] after [SetString] set [text] to "hi". *)
Definition Memo_hi : buffer :=
  Eval vm_compute in
    match SetString Memo.schema (chars "hi") Memo.text_str Memo.buf with
    | Ok b => b
    | _ => []
    end.

(** [Pet.buf] after [SetString] set [name] to "cd". *)
Definition Pet_cd : buffer :=
  Eval vm_compute in
    match SetString Pet.schema (chars "cd") Pet.name_str Pet.buf with
    | Ok b => b
    | _ => []
    end.

(** [Farm.buf] after [ResizeVector] made [v] four elements long, filling
    with 7, and after it made [v] one element long. *)
Definition Farm_grown : buffer :=
  Eval vm_compute in
    match ResizeVector Farm.schema 4 (ScalarFill int32_t 7) Farm.vec
            Farm.buf with
    | Ok b => b
    | _ => []
    end.

Definition Farm_shrunk : buffer :=
  Eval vm_compute in
    match ResizeVector Farm.schema 1 (ScalarFill int32_t 7) Farm.vec
            Farm.buf with
    | Ok b => b
    | _ => []
    end.

(** A patch of the slot at [loc] from [old] to [new] that [start] and
    [delta_] account for: a forward [uoffset_t], of the root, a field or an
    element, whose slot lies at or before [start] and whose target
    [loc + old] lies at or behind it, moved up by [delta_]; or the
    [soffset_t] of a record whose vtable lies on the other side of [start],
    or at it, moved down by [delta_] ([so] is the soffset the record had
    when the walk entered it). *)
Definition straddles (start delta_ loc old new : Z) : Prop :=
  (new = cast uoffset_t (old + delta_) /\ loc <= start <= loc + old)
  \/ (new = old - delta_ /\
      exists so, (so = old \/ so = old + delta_) /\
        (loc <= start <= loc - so \/ loc - so <= start <= loc)).

(** The slots the walk reads as forward offsets: the root offset, the
    offset of a field and the offset of a vector element. *)
Definition forward_kind (k : slot_kind) : bool :=
  match k with
  | RootSlot | FieldSlot | ElemSlot => true
  | TableSlot | FieldLookup => false
  end.

(** The test of [Straddle]: [first <= start <= second]. *)
Definition straddling (start first second : Z) : bool :=
  (first <=? start) && (start <=? second).

(** The patches that the two calls of [Straddle] in [ResizeTable] make on
    entering the record at [table], whose soffset is [so]; the most recent
    first. *)
Definition soffset_patches (start delta_ table so : Z) : list event :=
  let so' := if straddling start table (table - so)
             then so - delta_ else so in
  (if straddling start (table - so) table
   then [EvPatch table so' (so' - delta_)] else [])
  ++ (if straddling start table (table - so)
      then [EvPatch table so (so - delta_)] else []).

(** The patches due after the slot at [loc] was read and held the 32 bits
    [raw], in the order in which they are made. *)
Definition patches_due (start delta_ : Z) (k : slot_kind) (loc raw : Z)
  : list event :=
  match k with
  | RootSlot | FieldSlot | ElemSlot =>
      if straddling start loc (loc + raw)
      then [EvPatch loc raw (cast uoffset_t (raw + delta_))] else []
  | TableSlot => rev (soffset_patches start delta_ loc (cast soffset_t raw))
  | FieldLookup => []
  end.

(** An event of the walk together with the patches due after it; a patch
    counts where it is due, not where it stands. *)
Definition due (start delta_ : Z) (e : event) : list event :=
  match e with
  | EvRead k loc raw => e :: patches_due start delta_ k loc raw
  | EvCheck _ _ => [e]
  | EvPatch _ _ _ => []
  end.

(** The patches of the trace [l] are exactly those due, each directly
    after the read that calls for it. *)
Definition accounted (start delta_ : Z) (l : list event) : Prop :=
  flat_map (due start delta_) (rev l) = rev l.

(** From the state [st], the events that [m] adds to the trace, the most
    recent first, satisfy [G]. *)
Definition adds (G : list event -> Prop) {A} (m : M A) (st : Ctx) : Prop :=
  forall a st', m st = Ok (a, st') ->
    exists l, trace st' = l ++ trace st /\ G l.

(** The state in which the walk of [Pet.buf], with the insertion point at
    36 and a rounded delta of 8, ends. *)
Definition Pet_walk : Ctx :=
  Eval vm_compute in
    match ResizeContext_walk Pet.schema 36 8 Pet.buf with
    | Ok st => st
    | _ => initial_ctx []
    end.

(** The state in which the walk of the record of [Pet.buf] ends. *)
Definition Pet_record_walk : Ctx :=
  Eval vm_compute in
    match ResizeTable Pet.schema 36 8 3 Pet.object Pet.root
            (initial_ctx Pet.buf) with
    | Ok r => snd r
    | _ => initial_ctx []
    end.

(** *** A record without fields, behind some padding

    [table Bare {}]: the root offset, four bytes of padding, the vtable and
    the record. *)
Module Bare.

Definition object := mkTable "Bare" [].

Definition schema : reflection.Schema :=
  {| reflection.objects := [object]; reflection.enums := [];
     reflection.root_table := Some object |}.

Definition buf : buffer :=
     u32 16                               (*  0: root offset            *)
  ++ u32 0                                (*  4: padding                *)
  ++ u16 4 ++ u16 4                       (*  8: vtable                 *)
  ++ u32 0                                (* 12: padding                *)
  ++ u32 8.                               (* 16: Bare: soffset          *)

Definition root : Z := 16.

End Bare.

(** [Bare.buf] after [ResizeContext] made room for 8 bytes at 4. *)
Definition Bare_grown : buffer :=
  Eval vm_compute in
    match ResizeContext Bare.schema 4 8 Bare.buf with
    | Ok b => b
    | _ => []
    end.

(** *** A record with a union

    [table Cat { lives:int; }], [union Animal { Cat }] and
    [table Zoo { pet:Animal; }] holding [pet = Cat {lives:9}]. *)
Module Zoo.

Definition lives :=
  mkField "lives" (mkType reflection.Int reflection.None (-1)) 4.
Definition Cat := mkTable "Cat" [lives].

Definition Animal : reflection.Enum :=
  {| reflection.values :=
       [ {| reflection.value := 0; reflection.object := Datatypes.None |};
         {| reflection.value := 1; reflection.object := Some Cat |} ] |}.

Definition pet_type :=
  mkField "pet_type" (mkType reflection.UType reflection.None 0) 4.
Definition pet := mkField "pet" (mkType reflection.Union reflection.None 0) 6.
Definition object := mkTable "Zoo" [pet; pet_type].

Definition schema : reflection.Schema :=
  {| reflection.objects := [Cat; object]; reflection.enums := [Animal];
     reflection.root_table := Some object |}.

Definition buf : buffer :=
     u32 16                               (*  0: root offset            *)
  ++ u16 8 ++ u16 12 ++ u16 8 ++ u16 4    (*  4: vtable: pet_type, pet  *)
  ++ u32 0                                (* 12: padding                *)
  ++ u32 12                               (* 16: Zoo: soffset           *)
  ++ u32 20                               (* 20: pet -> 40             *)
  ++ u32 1                                (* 24: pet_type = 1, padding  *)
  ++ u32 0                                (* 28: padding                *)
  ++ u16 6 ++ u16 8 ++ u16 4 ++ u16 0     (* 32: vtable of Cat          *)
  ++ u32 8                                (* 40: Cat: soffset           *)
  ++ u32 9.                               (* 44: lives                  *)

Definition root : Z := 16.

End Zoo.

(* ------------------------------------------------------------------ *)
(** ** [GetAnyFieldS] *)

(** Modelled from the spec: [Table::CheckField] of flatbuffers.h; whether
    the vtable of the record has an entry for the field. *)
Definition Table_CheckField (b : buffer) (table field : Z) : result bool :=
  let? field_offset := GetOptionalFieldOffset b table field in
  Ok (negb (field_offset =? 0)).

(** The loop of [GetAnyFieldS] over the fields of a table: [table] is the
    record that has the field, [table_field] the record the field refers
    to (a null pointer when the field is absent), [s] the text so far and
    [rec] the conversion of a field of [table_field]. *)
Fixpoint GetAnyFieldS_fields
  (rec : Z -> reflection.Field -> result (list byte))
  (b : buffer) (table : Z) (table_field : option Z)
  (fielddefs : list reflection.Field) (s : list byte)
  : result (list byte) :=
  match fielddefs with
  | [] => Ok s
  | fielddef :: rest =>
      let? present := Table_CheckField b table (reflection.offset fielddef) in
      if negb present
      then GetAnyFieldS_fields rec b table table_field rest s
      else
        let? t := of_option table_field in
        let? val := rec t fielddef in
        (* Doesn't deal with escape codes etc. *)
        let val :=
          if reflection.eqb (base_type_of fielddef) reflection.String
          then [Byte.x22] ++ val ++ [Byte.x22]
          else val in
        GetAnyFieldS_fields rec b table table_field rest
          (s ++ chars (reflection.name fielddef) ++ chars ": "
             ++ val ++ chars ", ")
  end.

Section AnyFieldS.

(** The number parsers and printers of the C library and of util.h:
    [StringToInt], [strtod], and [NumToString] on an [int64_t] and on a
    [double]. *)
Variable StringToInt : list byte -> Z.
Variable strtod : list byte -> spec_float.
Variable NumToString_int64 : Z -> list byte.
Variable NumToString_double : spec_float -> list byte.

(** Get any field as a string, regardless of what it is
    (bool/int/float/str).  [fuel] bounds the nesting of tables. *)
Fixpoint GetAnyFieldS (fuel : nat) (b : buffer) (table : Z)
  (field : reflection.Field) (schema : reflection.Schema)
  : result (list byte) :=
  match fuel with
  | O => OutOfFuel
  | S fuel' =>
      match base_type_of field with
      | reflection.Float
      | reflection.Double =>
          let? v := GetAnyFieldF StringToInt strtod b table field in
          Ok (NumToString_double v)
      | reflection.String =>
          let? s := GetFieldS b table field in
          match s with
          | Some s => String_c_str b s
          | Datatypes.None => Ok []
          end
      | reflection.Obj =>
          (* Convert the table to a string.  Also prefixes the type. *)
          let? objectdef :=
            Get (reflection.objects schema)
                (reflection.index (reflection.type field)) in
          let s := chars (reflection.object_name objectdef) in
          if reflection.is_struct objectdef
          then Ok (s ++ chars "(struct)")
          else
            let? table_field := GetFieldT b table field in
            let s := s ++ chars " { " in
            let? s :=
              GetAnyFieldS_fields
                (fun t fielddef => GetAnyFieldS fuel' b t fielddef schema)
                b table table_field (reflection.fields objectdef) s in
            Ok (s ++ chars "}")
      | reflection.Vector => Ok (chars "[(elements)]")
      | reflection.Union => Ok (chars "(union)")
      | _ =>
          let? v := GetAnyFieldI StringToInt b table field in
          Ok (NumToString_int64 v)
      end
  end.

End AnyFieldS.

(** *** A record with a [double] field

    [table Reading { value:double; }] holding [value = 2.5]. *)
Module Reading.

Definition value :=
  mkField "value" (mkType reflection.Double reflection.None (-1)) 4.
Definition object := mkTable "Reading" [value].

Definition buf : buffer :=
     u32 16                               (*  0: root offset            *)
  ++ u16 6 ++ u16 12 ++ u16 4 ++ u16 0    (*  4: vtable: value          *)
  ++ u32 0                                (* 12: padding                *)
  ++ u32 12                               (* 16: Reading: soffset       *)
  ++ le_split 8 4612811918334230528.      (* 20: value = 2.5            *)

Definition root : Z := 16.

End Reading.

(** [Pet.buf] after [SetString] set [name] to "abcdef". *)
Definition Pet_abcdef : buffer :=
  Eval vm_compute in
    match SetString Pet.schema (chars "abcdef") Pet.name_str Pet.buf with
    | Ok b => b
    | _ => []
    end.

(** The state after [Straddle] looked, with the insertion point at 36 and
    a rounded delta of 8, at the slot of [tag] in [Pet.buf]. *)
Definition Pet_straddled : Ctx :=
  Eval vm_compute in
    match Straddle 36 8 uoffset_t 1 28 40 28 (initial_ctx Pet.buf) with
    | Ok r => snd r
    | _ => initial_ctx []
    end.


(* ================================================================== *)
(** * Properties *)

(** ** Outcomes *)

Lemma rbind_Ok {A B} (r : result A) (k : A -> result B) b :
  rbind r k = Ok b -> exists a, r = Ok a /\ k a = Ok b.
Proof. destruct r; simpl; intros H; try discriminate; eauto. Qed.

Lemma of_option_Ok {A} (o : option A) a : of_option o = Ok a -> o = Some a.
Proof. destruct o; simpl; congruence. Qed.


(** ** Buffers *)

Lemma size_nonneg b : 0 <= size b.
Proof. unfold size. lia. Qed.

Lemma in_bounds_true b a n :
  in_bounds b a n = true <-> 0 <= a /\ a + n <= size b.
Proof. unfold in_bounds. rewrite andb_true_iff, Z.leb_le, Z.leb_le. tauto. Qed.

Lemma load_Ok b a n bs :
  load b a n = Ok bs ->
  0 <= a /\ a + Z.of_nat n <= size b /\ length bs = n
  /\ bs = firstn n (skipn (Z.to_nat a) b).
Proof.
  unfold load. destruct (in_bounds b a (Z.of_nat n)) eqn:E; [|discriminate].
  apply in_bounds_true in E. intros H. injection H as <-.
  repeat split; try tauto.
  rewrite length_firstn, length_skipn. unfold size in E. lia.
Qed.

Lemma store_Ok b a bs b' :
  store b a bs = Ok b' ->
  0 <= a /\ a + Z.of_nat (length bs) <= size b
  /\ b' = firstn (Z.to_nat a) b ++ bs ++ skipn (Z.to_nat a + length bs) b.
Proof.
  unfold store.
  destruct (in_bounds b a (Z.of_nat (length bs))) eqn:E; [|discriminate].
  apply in_bounds_true in E. intros H. injection H as <-. tauto.
Qed.

Lemma store_size b a bs b' : store b a bs = Ok b' -> size b' = size b.
Proof.
  intros H. apply store_Ok in H. destruct H as (Ha & Hb & ->).
  unfold size in *.
  rewrite !length_app, length_firstn, length_skipn. lia.
Qed.

Lemma store_length b a bs b' : store b a bs = Ok b' -> length b' = length b.
Proof. intros H. apply store_size in H. unfold size in H. lia. Qed.

(** A store changes only the bytes it writes. *)
Lemma store_frame b a bs b' p :
  store b a bs = Ok b' ->
  p < a \/ a + Z.of_nat (length bs) <= p ->
  byte_at b' p = byte_at b p.
Proof.
  intros H Hp. apply store_Ok in H. destruct H as (Ha & Hb & ->).
  unfold byte_at. destruct (0 <=? p) eqn:E; [|reflexivity].
  apply Z.leb_le in E. unfold size in Hb.
  rewrite !nth_error_app, length_firstn.
  destruct Hp as [Hp|Hp].
  - replace (Z.to_nat p <? Nat.min (Z.to_nat a) (length b))%nat with true
      by (symmetry; apply Nat.ltb_lt; lia).
    rewrite nth_error_firstn.
    replace (Z.to_nat p <? Z.to_nat a)%nat with true
      by (symmetry; apply Nat.ltb_lt; lia).
    reflexivity.
  - replace (Z.to_nat p <? Nat.min (Z.to_nat a) (length b))%nat with false
      by (symmetry; apply Nat.ltb_ge; lia).
    replace (Z.to_nat p - Nat.min (Z.to_nat a) (length b) <? length bs)%nat
      with false by (symmetry; apply Nat.ltb_ge; lia).
    rewrite nth_error_skipn. f_equal. lia.
Qed.

(** What a store writes can be read back. *)
Lemma load_store b a bs b' :
  store b a bs = Ok b' -> load b' a (length bs) = Ok bs.
Proof.
  intros H. pose proof H as Hs; apply store_size in Hs.
  apply store_Ok in H. destruct H as (Ha & Hb & ->).
  unfold load.
  replace (in_bounds _ a (Z.of_nat (length bs))) with true
    by (symmetry; apply in_bounds_true; lia).
  f_equal. unfold size in Hb.
  rewrite skipn_app, length_firstn.
  replace (Z.to_nat a - Nat.min (Z.to_nat a) (length b))%nat with 0%nat by lia.
  rewrite skipn_all2 by (rewrite length_firstn; lia).
  simpl. rewrite firstn_app, firstn_all.
  replace (length bs - length bs)%nat with 0%nat by lia.
  simpl. apply app_nil_r.
Qed.

(** A load depends only on the size of the buffer and the bytes it reads. *)
Lemma load_ext b b' a n :
  size b' = size b ->
  (forall p, a <= p < a + Z.of_nat n -> byte_at b' p = byte_at b p) ->
  load b' a n = load b a n.
Proof.
  intros Hs Hb. unfold load.
  replace (in_bounds b' a (Z.of_nat n)) with (in_bounds b a (Z.of_nat n))
    by (unfold in_bounds; now rewrite Hs).
  destruct (in_bounds b a (Z.of_nat n)) eqn:E; [|reflexivity].
  apply in_bounds_true in E. f_equal.
  apply nth_error_ext. intros i.
  rewrite !nth_error_firstn.
  destruct (i <? n)%nat eqn:Ei; [|reflexivity].
  apply Nat.ltb_lt in Ei. rewrite !nth_error_skipn.
  specialize (Hb (a + Z.of_nat i)). unfold byte_at in Hb.
  replace (0 <=? a + Z.of_nat i) with true in Hb
    by (symmetry; apply Z.leb_le; lia).
  replace (Z.to_nat (a + Z.of_nat i)) with (Z.to_nat a + i)%nat in Hb by lia.
  apply Hb. lia.
Qed.

Lemma ReadScalar_ext T b b' a :
  size b' = size b ->
  (forall p, a <= p < a + sizeof T -> byte_at b' p = byte_at b p) ->
  ReadScalar T b' a = ReadScalar T b a.
Proof.
  intros Hs Hb. unfold ReadScalar. now rewrite (@load_ext b b' a (width T)).
Qed.

Lemma WriteScalar_size T b a v b' :
  WriteScalar T b a v = Ok b' -> size b' = size b.
Proof. apply store_size. Qed.

Lemma WriteScalar_frame T b a v b' p :
  WriteScalar T b a v = Ok b' ->
  p < a \/ a + sizeof T <= p ->
  byte_at b' p = byte_at b p.
Proof.
  intros H Hp. eapply store_frame; [exact H|].
  rewrite length_le_split. exact Hp.
Qed.

(** Reading back a scalar that was just written. *)
Lemma ReadScalar_WriteScalar T b a v b' :
  WriteScalar T b a v = Ok b' -> ReadScalar T b' a = Ok (cast T v).
Proof.
  intros H. unfold WriteScalar in H. apply load_store in H.
  rewrite length_le_split in H. unfold ReadScalar. rewrite H. simpl.
  rewrite le_combine_split. f_equal.
  unfold cast, bits. replace (Z.of_nat (width T) * 8) with (8 * Z.of_nat (width T)) by lia.
  destruct (is_signed T); [|now rewrite Z.mod_mod by (apply Z.pow_nonzero; lia)].
  f_equal. rewrite Zplus_mod_idemp_l. reflexivity.
Qed.
(** ** The monad of the walk *)

Lemma bind_Ok {A B} (m : M A) (k : A -> M B) st r :
  bind m k st = Ok r ->
  exists a st1, m st = Ok (a, st1) /\ k a st1 = Ok r.
Proof.
  unfold bind. intros H. apply rbind_Ok in H.
  destruct H as ([a st1] & H1 & H2). eauto.
Qed.

Lemma ret_Ok {A} (a : A) st r : ret a st = Ok r -> r = (a, st).
Proof. unfold ret. congruence. Qed.

Lemma lift_Ok {A} (f : buffer -> result A) st a st' :
  lift f st = Ok (a, st') -> st' = st /\ f (buf_ st) = Ok a.
Proof.
  unfold lift. intros H. apply rbind_Ok in H.
  destruct H as (a' & H1 & H2). injection H2 as -> ->. auto.
Qed.

Lemma DagCheck_Ok loc st v st' :
  DagCheck loc st = Ok (v, st') ->
  st' = emit (EvCheck loc v) st /\
  Get (dag_check_ st) (dag_idx loc) = Ok v.
Proof.
  unfold DagCheck, dag_get. intros H. apply rbind_Ok in H.
  destruct H as (v' & H1 & H2). injection H2 as -> <-. auto.
Qed.

Lemma reading_Ok {A} k loc (f : buffer -> result A) st a st' :
  reading k loc f st = Ok (a, st') ->
  exists raw,
    ReadScalar uoffset_t (buf_ st) loc = Ok raw /\
    f (buf_ st) = Ok a /\
    st' = emit (EvRead k loc raw) st.
Proof.
  unfold reading. intros H. apply rbind_Ok in H.
  destruct H as (raw & H1 & H). apply rbind_Ok in H.
  destruct H as (a' & H2 & H3). injection H3 as -> <-. eauto.
Qed.

(** ** Composition of steps *)

Lemma patched_app l1 l2 : patched (l1 ++ l2) = patched l1 ++ patched l2.
Proof. unfold patched. apply flat_map_app. Qed.

Lemma marked_app l1 l2 : marked (l1 ++ l2) = marked l1 ++ marked l2.
Proof. unfold marked. now rewrite patched_app, map_app. Qed.

Lemma untouched_app l1 l2 p :
  untouched (l1 ++ l2) p <-> untouched l1 p /\ untouched l2 p.
Proof.
  unfold untouched. rewrite patched_app. split.
  - intros H. split; intros loc Hl; apply H, in_or_app; auto.
  - intros [H1 H2] loc Hl. apply in_app_or in Hl. destruct Hl; auto.
Qed.

Lemma steps_refl st : steps st [] st.
Proof. constructor; simpl; auto; intros; contradiction. Qed.

Lemma steps_trans st l1 st1 l2 st2 :
  steps st l1 st1 -> steps st1 l2 st2 -> steps st (l2 ++ l1) st2.
Proof.
  intros [T1 S1 D1 F1 M1 U1] [T2 S2 D2 F2 M2 U2]. constructor.
  - now rewrite T2, T1, app_assoc.
  - congruence.
  - congruence.
  - intros p Hp. apply untouched_app in Hp. destruct Hp.
    rewrite F2, F1; auto.
  - intros i Hi. rewrite marked_app in Hi.
    destruct (in_dec Z.eq_dec i (marked l2)) as [Hin|Hout]; [auto|].
    rewrite U2 by assumption. apply M1.
    apply in_app_or in Hi. tauto.
  - intros i Hi. rewrite marked_app in Hi.
    rewrite U2, U1; auto; intros Hin; apply Hi, in_or_app; auto.
Qed.

(** An event that is not a patch changes nothing but the trace. *)
Lemma steps_emit e st :
  patched [e] = [] -> steps st [e] (emit e st).
Proof.
  intros He. constructor; simpl; auto.
  - unfold marked. rewrite He. simpl. intros; contradiction.
Qed.

Lemma self_vtable_free_app l1 l2 :
  self_vtable_free (l1 ++ l2) <-> self_vtable_free l1 /\ self_vtable_free l2.
Proof.
  unfold self_vtable_free. rewrite forallb_app. apply andb_true_iff.
Qed.

Lemma once_nil st : once st [].
Proof. intros _. split; [constructor|]. simpl. intros; contradiction. Qed.

Lemma once_unpatched st l : patched l = [] -> once st l.
Proof.
  intros H _. unfold marked. rewrite H. simpl.
  split; [constructor|intros; contradiction].
Qed.

Lemma once_trans st l1 st1 l2 :
  steps st l1 st1 -> once st l1 -> once st1 l2 -> once st (l2 ++ l1).
Proof.
  intros S1 O1 O2 Hf. apply self_vtable_free_app in Hf.
  destruct Hf as [Hf2 Hf1].
  destruct (O1 Hf1) as [N1 C1]. destruct (O2 Hf2) as [N2 C2].
  rewrite marked_app. split.
  - apply NoDup_app; auto. intros i Hi2 Hi1.
    specialize (C2 i Hi2). rewrite (steps_marked S1 i Hi1) in C2.
    discriminate.
  - intros i Hi. apply in_app_or in Hi. destruct Hi as [Hi|Hi]; [|auto].
    destruct (in_dec Z.eq_dec i (marked l1)) as [Hin|Hout]; [auto|].
    rewrite <- (steps_unmarked S1 i Hout). auto.
Qed.

Lemma consulted_app l1 l2 :
  consulted_before_read l1 = true -> consulted_before_read l2 = true ->
  consulted_before_read (l1 ++ l2) = true.
Proof.
  intros H1 H2. induction l1 as [|e l1 IH]; simpl in *; [assumption|].
  destruct e as [loc v|k loc raw|loc old new]; auto.
  apply andb_true_iff in H1. destruct H1 as [Hk H1].
  apply andb_true_iff. split; [|auto].
  destruct (checked_kind k); [|reflexivity].
  destruct l1 as [|[loc' [|]|?|?] l1]; simpl in *; try discriminate.
  assumption.
Qed.

Lemma walked_refl st : walked st [] st.
Proof. split; [apply steps_refl|]. split; [apply once_nil|reflexivity]. Qed.

Lemma walked_trans st l1 st1 l2 st2 :
  walked st l1 st1 -> walked st1 l2 st2 -> walked st (l2 ++ l1) st2.
Proof.
  intros (S1 & O1 & C1) (S2 & O2 & C2). split; [|split].
  - eapply steps_trans; eauto.
  - eapply once_trans; eauto.
  - apply consulted_app; auto.
Qed.

(** ** Visit bits *)

Lemma Get_nth_error {A} (d : list A) i x :
  Get d i = Ok x <-> 0 <= i /\ nth_error d (Z.to_nat i) = Some x.
Proof.
  unfold Get. destruct (0 <=? i) eqn:E.
  - apply Z.leb_le in E. destruct (nth_error d (Z.to_nat i)); simpl;
      split; intros H; try tauto; try discriminate.
    + injection H as ->. auto.
    + destruct H as [_ H]. congruence.
    + destruct H as [_ H]. discriminate.
  - apply Z.leb_gt in E. split; [discriminate|]. intros [H _]. lia.
Qed.

Lemma dag_set_Ok d loc d' :
  dag_set d loc = Ok d' ->
  length d' = length d /\
  Get d' (dag_idx loc) = Ok true /\
  forall i, i <> dag_idx loc -> Get d' i = Get d i.
Proof.
  unfold dag_set. set (i := dag_idx loc).
  destruct ((0 <=? i) && (i <? Z.of_nat (length d))) eqn:E; [|discriminate].
  apply andb_true_iff in E. destruct E as [E1 E2].
  apply Z.leb_le in E1. apply Z.ltb_lt in E2.
  intros H.
  assert (Hd : d' = firstn (Z.to_nat i) d ++ true :: skipn (S (Z.to_nat i)) d)
    by congruence.
  clear H. subst d'.
  assert (Hl : length (firstn (Z.to_nat i) d) = Z.to_nat i)
    by (rewrite length_firstn; lia).
  split; [|split].
  - rewrite length_app, Hl. cbn [length]. rewrite length_skipn. lia.
  - apply Get_nth_error. split; [assumption|].
    rewrite nth_error_app2 by lia. rewrite Hl, Nat.sub_diag. reflexivity.
  - intros j Hj. unfold Get. destruct (0 <=? j) eqn:Ej; [|reflexivity].
    apply Z.leb_le in Ej. f_equal.
    destruct (Z_lt_le_dec j i) as [Hlt|Hge].
    + rewrite nth_error_app1 by lia.
      rewrite nth_error_firstn.
      replace (Z.to_nat j <? Z.to_nat i)%nat with true
        by (symmetry; apply Nat.ltb_lt; lia).
      reflexivity.
    + rewrite nth_error_app2 by lia. rewrite Hl.
      replace (Z.to_nat j - Z.to_nat i)%nat
        with (S (Z.to_nat j - Z.to_nat i - 1)) by lia.
      cbn [nth_error]. rewrite nth_error_skipn. f_equal. lia.
Qed.

(** ** [Straddle] *)

Section Straddle.

Variable startptr_ delta_ : Z.

(** [Straddle] rewrites the slot exactly when
    [first <= startptr_ <= second]; the new value is the old one plus
    [delta_ * D]. *)
Lemma Straddle_Ok T D first second offsetloc st st' :
  width T = 4%nat ->
  Straddle startptr_ delta_ T D first second offsetloc st = Ok (tt, st') ->
  (first <= startptr_ <= second /\
   exists old new,
     ReadScalar T (buf_ st) offsetloc = Ok old /\
     new = (if is_signed T then old + delta_ * D
            else cast T (old + delta_ * D)) /\
     ReadScalar T (buf_ st') offsetloc = Ok (cast T new) /\
     steps st [EvPatch offsetloc old new] st')
  \/ (~ first <= startptr_ <= second /\ st' = st).
Proof.
  intros HT. unfold Straddle.
  destruct ((first <=? startptr_) && (second >=? startptr_)) eqn:E.
  - apply andb_true_iff in E. destruct E as [E1 E2].
    apply Z.leb_le in E1. apply Z.geb_le in E2.
    intros H. left. split; [lia|].
    apply rbind_Ok in H. destruct H as (old & Hold & H).
    apply rbind_Ok in H. destruct H as (d & Hd & H).
    apply rbind_Ok in H. destruct H as (new & Hnew & H).
    apply rbind_Ok in H. destruct H as (b & Hb & H).
    apply rbind_Ok in H. destruct H as (dag & Hdag & H).
    injection H as <-. exists old, new.
    assert (d = delta_ * D) as ->.
    { unfold int_op in Hd. destruct (in_range int32_t (delta_ * D));
        congruence. }
    split; [assumption|]. split.
    { destruct (is_signed T).
      - unfold int_op in Hnew.
        destruct (in_range int32_t (old + delta_ * D)); congruence.
      - congruence. }
    split; [simpl; eapply ReadScalar_WriteScalar; eassumption|].
    apply dag_set_Ok in Hdag. destruct Hdag as (Hl & Hset & Hother).
    constructor; simpl.
    + reflexivity.
    + eapply WriteScalar_size; eassumption.
    + assumption.
    + intros p Hp. eapply WriteScalar_frame; [eassumption|].
      unfold sizeof. rewrite HT. apply (Hp offsetloc). simpl. auto.
    + intros i [<-|[]]. assumption.
    + intros i Hi. apply Hother. intros ->. apply Hi. simpl. auto.
  - intros H. apply ret_Ok in H. injection H as <-. right. split; [|reflexivity].
    apply andb_false_iff in E. destruct E as [E|E].
    + apply Z.leb_gt in E. lia.
    + rewrite Z.geb_leb in E. apply Z.leb_gt in E. lia.
Qed.

End Straddle.

(** ** The walk changes only the slots it patches *)

Lemma cast_int32_0 x : cast int32_t x = 0 -> cast uint32_t x = 0.
Proof.
  unfold cast. cbn [is_signed int32_t uint32_t].
  change (2 ^ bits int32_t) with 4294967296.
  change (2 ^ (bits int32_t - 1)) with 2147483648.
  change (2 ^ bits uint32_t) with 4294967296.
  intros H.
  pose proof (Z.mod_pos_bound x 4294967296 eq_refl).
  pose proof (Z.mod_pos_bound (x + 2147483648) 4294967296 eq_refl).
  pose proof (Z.div_mod x 4294967296 ltac:(lia)).
  pose proof (Z.div_mod (x + 2147483648) 4294967296 ltac:(lia)).
  lia.
Qed.

Lemma GetVTable_self b table raw :
  ReadScalar uoffset_t b table = Ok raw ->
  GetVTable b table = Ok table -> raw = 0.
Proof.
  unfold GetVTable. intros H1 H2.
  apply rbind_Ok in H2. destruct H2 as (so & Hso & H2).
  assert (so = 0) as -> by (injection H2; lia).
  unfold ReadScalar in *.
  apply rbind_Ok in H1. destruct H1 as (bs & Hbs & H1).
  apply rbind_Ok in Hso. destruct Hso as (bs' & Hbs' & Hso).
  change (width soffset_t) with (width uoffset_t) in Hbs'.
  assert (bs' = bs) as -> by congruence.
  injection H1 as <-. injection Hso as Hso.
  now apply cast_int32_0.
Qed.

Section Walk.

Variable schema_ : reflection.Schema.
Variable startptr_ delta_ : Z.

(** A slot whose visit bit was found clear, and which was then read. *)
Lemma consult_and_read A k loc (f : buffer -> result A) st st1 a st2
  (H1 : DagCheck loc st = Ok (false, st1))
  (H2 : reading k loc f st1 = Ok (a, st2)) :
  exists raw,
    steps st [EvRead k loc raw; EvCheck loc false] st2 /\
    ReadScalar uoffset_t (buf_ st) loc = Ok raw /\
    f (buf_ st) = Ok a /\
    buf_ st2 = buf_ st /\ dag_check_ st2 = dag_check_ st /\
    Get (dag_check_ st) (dag_idx loc) = Ok false.
Proof.
  apply DagCheck_Ok in H1. destruct H1 as [-> Hbit].
  apply reading_Ok in H2. destruct H2 as (raw & Hraw & Hf & ->).
  exists raw. repeat split; auto.
  change [EvRead k loc raw; EvCheck loc false]
    with ([EvRead k loc raw] ++ [EvCheck loc false]).
  eapply steps_trans; apply steps_emit; reflexivity.
Qed.

(** [Straddle] on a slot whose visit bit is clear. *)
Lemma Straddle_clear T D first second loc st st'
  (HT : width T = 4%nat)
  (Hbit : Get (dag_check_ st) (dag_idx loc) = Ok false)
  (H : Straddle startptr_ delta_ T D first second loc st = Ok (tt, st')) :
  exists l,
    steps st l st' /\ once st l /\
    (l = [] \/ (first <= startptr_ <= second /\
                exists old new, l = [EvPatch loc old new])).
Proof.
  apply Straddle_Ok in H; [|assumption].
  destruct H as [(Hs & old & new & _ & _ & _ & Hsteps)|(_ & ->)].
  - exists [EvPatch loc old new]. split; [assumption|]. split.
    + intros _. simpl. split.
      * constructor; [simpl; tauto|constructor].
      * intros i [<-|[]]. assumption.
    + right. eauto.
  - exists []. auto using steps_refl, once_nil.
Qed.

(** The slot of a field or of a vector element: consulted, read and
    straddled. *)
Lemma slot_walked A k loc (f : buffer -> result A) first second
  st st1 a st2 st3
  (Hk : checked_kind k = true)
  (H1 : DagCheck loc st = Ok (false, st1))
  (H2 : reading k loc f st1 = Ok (a, st2))
  (H3 : Straddle startptr_ delta_ uoffset_t 1 first second loc st2
        = Ok (tt, st3)) :
  exists l,
    walked st l st3 /\
    Forall (fun e => event_loc e = loc) l /\
    (forall e, In e l -> forall k' loc' raw, e = EvRead k' loc' raw -> k' = k).
Proof.
  destruct (consult_and_read _ _ _ _ H1 H2)
    as (raw & Hsteps & _ & _ & _ & Hdag & Hbit).
  rewrite <- Hdag in Hbit.
  destruct (Straddle_clear uoffset_t _ _ _ _ _ eq_refl Hbit H3) as (l & Hl & Ho & Hcase).
  exists (l ++ [EvRead k loc raw; EvCheck loc false]).
  split; [split; [|split]|split].
  - eapply steps_trans; eassumption.
  - eapply once_trans; [eassumption| |eassumption].
    apply once_unpatched. reflexivity.
  - destruct Hcase as [->|(_ & old & new & ->)]; simpl;
      now rewrite Hk, Z.eqb_refl.
  - destruct Hcase as [->|(_ & old & new & ->)]; repeat constructor.
  - intros e He k' loc' raw' ->.
    destruct Hcase as [->|(_ & old & new & ->)]; simpl in He;
      intuition congruence.
Qed.

(** The prelude of [ResizeTable]: the record's own slot is consulted and
    read, then straddled in both directions. *)
Lemma table_prelude table st st1 vtable st2 st3 st4
  (H1 : DagCheck table st = Ok (false, st1))
  (H2 : reading TableSlot table (fun b => GetVTable b table) st1
        = Ok (vtable, st2))
  (H3 : Straddle startptr_ delta_ soffset_t (-1) table vtable table st2
        = Ok (tt, st3))
  (H4 : Straddle startptr_ delta_ soffset_t (-1) vtable table table st3
        = Ok (tt, st4)) :
  exists l,
    walked st l st4 /\
    Forall (fun e => event_loc e = table) l /\
    (forall e, In e l -> forall k' loc' raw, e = EvRead k' loc' raw ->
       k' = TableSlot).
Proof.
  destruct (consult_and_read _ _ _ _ H1 H2)
    as (raw & Hsteps & Hraw & Hvt & _ & Hdag & Hbit).
  rewrite <- Hdag in Hbit.
  destruct (Straddle_clear soffset_t _ _ _ _ _ eq_refl Hbit H3) as (l3 & Hl3 & Ho3 & Hc3).
  destruct Hc3 as [->|(Hs3 & old3 & new3 & ->)].
  - (* the first check does not fire *)
    assert (Hbit3 : Get (dag_check_ st3) (dag_idx table) = Ok false).
    { rewrite (steps_unmarked Hl3); [assumption|]. simpl. tauto. }
    destruct (Straddle_clear soffset_t _ _ _ _ _ eq_refl Hbit3 H4)
      as (l4 & Hl4 & Ho4 & Hc4).
    exists (l4 ++ [] ++ [EvRead TableSlot table raw; EvCheck table false]).
    split; [split; [|split]|split].
    + eapply steps_trans; [|eassumption].
      eapply steps_trans; eassumption.
    + eapply once_trans; [| |exact Ho4].
      * eapply steps_trans; eassumption.
      * eapply once_trans; [eassumption| |eassumption].
        apply once_unpatched. reflexivity.
    + destruct Hc4 as [->|(_ & old & new & ->)]; simpl;
        now rewrite Z.eqb_refl.
    + destruct Hc4 as [->|(_ & old & new & ->)]; repeat constructor.
    + intros e He k' loc' raw' ->.
      destruct Hc4 as [->|(_ & old & new & ->)]; simpl in He;
        intuition congruence.
  - (* the first check fires *)
    apply Straddle_Ok in H4; [|reflexivity].
    destruct H4 as [(Hs4 & old4 & new4 & _ & _ & _ & Hl4)|(_ & ->)].
    + (* both fire: the record is its own vtable *)
      assert (vtable = table) as -> by lia.
      assert (raw = 0) as -> by (eapply GetVTable_self; eassumption).
      exists ([EvPatch table old4 new4] ++ [EvPatch table old3 new3]
              ++ [EvRead TableSlot table 0; EvCheck table false]).
      split; [split; [|split]|split].
      * eapply steps_trans; [|eassumption].
        eapply steps_trans; eassumption.
      * intros Hf. discriminate Hf.
      * simpl. now rewrite Z.eqb_refl.
      * repeat constructor.
      * intros e He k' loc' raw' ->. simpl in He. intuition congruence.
    + exists ([EvPatch table old3 new3]
              ++ [EvRead TableSlot table raw; EvCheck table false]).
      split; [split; [|split]|split].
      * eapply steps_trans; eassumption.
      * eapply once_trans; [eassumption| |eassumption].
        apply once_unpatched. reflexivity.
      * simpl. now rewrite Z.eqb_refl.
      * repeat constructor.
      * intros e He k' loc' raw' ->. simpl in He. intuition congruence.
Qed.

End Walk.

(** ** The whole walk *)

Section WalkInduction.

Variable schema_ : reflection.Schema.
Variable startptr_ delta_ : Z.

Lemma walks_ret : walks (ret tt).
Proof.
  intros st st' H. apply ret_Ok in H. injection H as <-.
  exists []. apply walked_refl.
Qed.

Lemma walks_bind (m k : M unit) :
  walks m -> walks k -> walks (bind m (fun _ => k)).
Proof.
  intros Hm Hk st st' H. apply bind_Ok in H.
  destruct H as ([] & st1 & H1 & H2).
  destruct (Hm _ _ H1) as (l1 & W1). destruct (Hk _ _ H2) as (l2 & W2).
  exists (l2 ++ l1). eapply walked_trans; eassumption.
Qed.

(** A step that only adds an event that is neither a patch nor the read of
    a checked slot. *)
Lemma walked_emit e st :
  patched [e] = [] -> consulted_before_read [e] = true ->
  walked st [e] (emit e st).
Proof.
  intros Hp Hc. split; [now apply steps_emit|].
  split; [now apply once_unpatched|assumption].
Qed.

Lemma for_each_walks A (body : A -> M unit) l :
  (forall x, In x l -> walks (body x)) -> walks (for_each body l).
Proof.
  induction l as [|x l IH]; intros Hb; simpl.
  - apply walks_ret.
  - apply walks_bind; [apply Hb; simpl; auto|].
    apply IH. intros y Hy. apply Hb. simpl. auto.
Qed.

Lemma ResizeElem_walks rec vec i :
  (forall t, walks (rec t)) ->
  walks (ResizeElem startptr_ delta_ rec vec i).
Proof.
  intros Hrec st st' H. unfold ResizeElem in H.
  apply bind_Ok in H. destruct H as (visited & s1 & Hc & H).
  destruct visited.
  - apply ret_Ok in H. injection H as <-.
    apply DagCheck_Ok in Hc. destruct Hc as [-> _].
    eexists. apply walked_emit; reflexivity.
  - apply bind_Ok in H. destruct H as (o & s2 & Hr & H).
    apply bind_Ok in H. destruct H as ([] & s3 & Hs & H).
    destruct (slot_walked _ _ ElemSlot _ _ _ _ _ eq_refl Hc Hr Hs)
      as (l1 & W1 & _).
    destruct (Hrec _ _ _ H) as (l2 & W2).
    eexists. eapply walked_trans; eassumption.
Qed.

Lemma ResizeElems_walks rec vec n :
  (forall t, walks (rec t)) ->
  forall i, walks (ResizeElems startptr_ delta_ rec vec n i).
Proof.
  intros Hrec. induction n as [|n IH]; intros i st st' H; simpl in H.
  - discriminate.
  - apply bind_Ok in H. destruct H as (sz & s1 & H1 & H).
    apply lift_Ok in H1. destruct H1 as [-> _].
    destruct (i <? sz); [|exact (walks_ret H)].
    revert H. apply walks_bind; [now apply ResizeElem_walks|apply IH].
Qed.

Lemma ResizeField_walks rec fuel objectdef table fielddef :
  (forall od t, walks (rec od t)) ->
  walks (ResizeField schema_ startptr_ delta_ rec fuel objectdef table
           fielddef).
Proof.
  intros Hrec st st' H. unfold ResizeField in H.
  destruct (reflection.leb (base_type_of fielddef) reflection.Double);
    [exact (walks_ret H)|].
  apply bind_Ok in H. destruct H as (offset & s1 & H1 & H).
  apply reading_Ok in H1. destruct H1 as (raw & _ & _ & ->).
  assert (W1 : walked st [EvRead FieldLookup table raw]
                 (emit (EvRead FieldLookup table raw) st))
    by (apply walked_emit; reflexivity).
  assert (Hdone : forall s', ret tt (emit (EvRead FieldLookup table raw) st)
                             = Ok (tt, s') -> exists tr, walked st tr s').
  { intros s' Hs. apply ret_Ok in Hs. injection Hs as ->. eauto. }
  destruct (offset =? 0); [auto|].
  apply bind_Ok in H. destruct H as (subobjectdef & s2 & H2 & H).
  assert (s2 = emit (EvRead FieldLookup table raw) st) as ->.
  { destruct (reflection.eqb (base_type_of fielddef) reflection.Obj).
    - apply lift_Ok in H2. tauto.
    - apply ret_Ok in H2. congruence. }
  clear H2.
  destruct (match subobjectdef with
            | Some o => reflection.is_struct o
            | Datatypes.None => false
            end); [auto|].
  apply bind_Ok in H. destruct H as (visited & s3 & Hc & H).
  destruct visited.
  { apply ret_Ok in H. injection H as <-.
    apply DagCheck_Ok in Hc. destruct Hc as [-> _].
    eexists. eapply walked_trans; [exact W1|].
    apply walked_emit; reflexivity. }
  apply bind_Ok in H. destruct H as (o & s4 & Hr & H).
  apply bind_Ok in H. destruct H as ([] & s5 & Hs & H).
  destruct (slot_walked _ _ FieldSlot _ _ _ _ _ eq_refl Hc Hr Hs)
    as (l2 & W2 & _).
  assert (W : walked st (l2 ++ [EvRead FieldLookup table raw]) s5)
    by (eapply walked_trans; eassumption).
  assert (Hrest : forall m, walks m -> m s5 = Ok (tt, st') ->
                            exists tr, walked st tr st').
  { intros m Hm Hrun. destruct (Hm _ _ Hrun) as (l3 & W3).
    eexists. eapply walked_trans; eassumption. }
  destruct (base_type_of fielddef);
    try (apply lift_Ok in H; destruct H; discriminate).
  - (* String *) exact (Hrest _ walks_ret H).
  - (* Vector *)
    destruct (negb _); [exact (Hrest _ walks_ret H)|].
    apply bind_Ok in H. destruct H as (elemobjectdef & s6 & He & H).
    apply lift_Ok in He. destruct He as [-> _].
    destruct (reflection.is_struct elemobjectdef);
      [exact (Hrest _ walks_ret H)|].
    refine (Hrest _ _ H). apply ResizeElems_walks. intros t. apply Hrec.
  - (* Obj *)
    destruct subobjectdef as [od|].
    + exact (Hrest _ (Hrec od _) H).
    + apply lift_Ok in H. destruct H; discriminate.
  - (* Union *)
    apply bind_Ok in H. destruct H as (od & s6 & Hu & H).
    apply reading_Ok in Hu. destruct Hu as (raw' & _ & _ & ->).
    destruct (Hrec _ _ _ _ H) as (l3 & W3).
    eexists. eapply walked_trans; [|exact W3].
    eapply walked_trans; [exact W|].
    apply walked_emit; reflexivity.
Qed.

Lemma ResizeTable_walks fuel :
  forall objectdef table,
    walks (ResizeTable schema_ startptr_ delta_ fuel objectdef table).
Proof.
  induction fuel as [|fuel IH]; intros objectdef table st st' H; simpl in H.
  - discriminate.
  - apply bind_Ok in H. destruct H as (visited & s1 & Hc & H).
    destruct visited.
    { apply ret_Ok in H. injection H as <-.
      apply DagCheck_Ok in Hc. destruct Hc as [-> _].
      eexists. apply walked_emit; reflexivity. }
    apply bind_Ok in H. destruct H as (vtable & s2 & Hr & H).
    apply bind_Ok in H. destruct H as ([] & s3 & Hs3 & H).
    apply bind_Ok in H. destruct H as ([] & s4 & Hs4 & H).
    destruct (table_prelude _ _ _ _ Hc Hr Hs3 Hs4) as (l1 & W1 & _).
    destruct (startptr_ <=? table).
    { apply ret_Ok in H. injection H as <-. eauto. }
    assert (Hf : walks (for_each
              (ResizeField schema_ startptr_ delta_
                 (ResizeTable schema_ startptr_ delta_ fuel) fuel
                 objectdef table)
              (reflection.fields objectdef))).
    { apply for_each_walks. intros x _. apply ResizeField_walks.
      intros od t. apply IH. }
    destruct (Hf _ _ H) as (l2 & W2).
    eexists. eapply walked_trans; eassumption.
Qed.

End WalkInduction.

(** ** The constructor *)

Lemma Get_repeat_false n i x : Get (repeat false n) i = Ok x -> x = false.
Proof.
  intros H. apply Get_nth_error in H. destruct H as [_ H].
  apply nth_error_In, repeat_spec in H. assumption.
Qed.

Lemma Get_defined {A} (d d' : list A) i x :
  length d = length d' -> Get d i = Ok x -> exists y, Get d' i = Ok y.
Proof.
  intros Hl H. apply Get_nth_error in H. destruct H as [Hi H].
  assert (Hlt : (Z.to_nat i < length d')%nat)
    by (rewrite <- Hl; apply nth_error_Some; congruence).
  apply nth_error_Some in Hlt.
  destruct (nth_error d' (Z.to_nat i)) as [y|] eqn:E; [|congruence].
  exists y. apply Get_nth_error. auto.
Qed.

(** The walk of the constructor, from the state it starts in. *)
Lemma ResizeContext_walk_walked schema start delta_ flatbuf st :
  ResizeContext_walk schema start delta_ flatbuf = Ok st ->
  walked (initial_ctx flatbuf) (trace st) st.
Proof.
  unfold ResizeContext_walk, ResizeOffsets. intros H.
  apply rbind_Ok in H. destruct H as ([[] st'] & H & Hst).
  injection Hst as <-.
  apply bind_Ok in H. destruct H as (root & s1 & Hr & H).
  apply bind_Ok in H. destruct H as ([] & s2 & Hs & H).
  apply bind_Ok in H. destruct H as (root_table & s3 & Hl & H).
  apply lift_Ok in Hl. destruct Hl as [-> _].
  apply reading_Ok in Hr. destruct Hr as (raw & _ & _ & ->).
  set (st0 := initial_ctx flatbuf) in *.
  assert (W1 : walked st0 [EvRead RootSlot 0 raw]
                 (emit (EvRead RootSlot 0 raw) st0))
    by (apply walked_emit; reflexivity).
  assert (W2 : exists l, walked (emit (EvRead RootSlot 0 raw) st0) l s2).
  { pose proof Hs as Hs'. apply Straddle_Ok in Hs'; [|reflexivity].
    destruct Hs' as [(_ & old & new & _ & _ & _ & Hsteps)|(_ & ->)].
    - assert (Hbit : Get (dag_check_ (emit (EvRead RootSlot 0 raw) st0))
                       (dag_idx 0) = Ok false).
      { pose proof (steps_marked Hsteps (dag_idx 0)) as Hm.
        specialize (Hm (or_introl eq_refl)).
        eapply Get_defined in Hm; [|exact (steps_dag_length Hsteps)].
        destruct Hm as (y & Hy).
        rewrite Hy. f_equal. eapply Get_repeat_false. exact Hy. }
      destruct (Straddle_clear _ _ uoffset_t _ _ _ _ _ eq_refl Hbit Hs)
        as (l & Hl1 & Hl2 & Hl3).
      exists l. split; [assumption|]. split; [assumption|].
      destruct Hl3 as [->|(_ & o & n & ->)]; reflexivity.
    - exists []. apply walked_refl. }
  destruct W2 as (l2 & W2).
  destruct (ResizeTable_walks _ _ _ _ _ _ _ H) as (l3 & W3).
  pose proof
    (walked_trans (walked_trans W1 W2) W3) as W.
  destruct W as (Wsteps & Wrest).
  pose proof (steps_trace Wsteps) as Htr. simpl in Htr.
  rewrite app_nil_r in Htr. rewrite Htr.
  split; assumption.
Qed.

(** ** Rounding of the delta *)

Lemma land_lnot_7 x : Z.land x (Z.lnot 7) = 8 * (x / 8).
Proof.
  change 7 with (Z.ones 3).
  rewrite <- Z.ldiff_land, Z.ldiff_ones_r by lia.
  rewrite Z.shiftr_div_pow2, Z.shiftl_mul_pow2 by lia.
  change (2 ^ 3) with 8. lia.
Qed.

Lemma round_delta_spec delta d :
  round_delta delta = Ok d ->
  d mod 8 = 0 /\ delta <= d < delta + 8.
Proof.
  unfold round_delta, int_op, sizeof_largest_scalar_t.
  destruct (in_range int32_t (delta + (8 - 1))); cbn [rbind]; [|discriminate].
  intros H. injection H as <-.
  change (8 - 1) with 7. rewrite land_lnot_7.
  pose proof (Z.div_mod (delta + 7) 8 ltac:(lia)).
  pose proof (Z.mod_pos_bound (delta + 7) 8 ltac:(lia)).
  split; [rewrite Z.mul_comm; apply Z_mod_mult|lia].
Qed.

(** ** The splice *)

Lemma insert_zeros_Ok b start n b' :
  0 <= n -> insert_zeros b start n = Ok b' ->
  size b' = size b + n /\
  forall p, p < start -> byte_at b' p = byte_at b p.
Proof.
  unfold insert_zeros. intros Hn.
  destruct (in_bounds b start 0) eqn:E; [|discriminate].
  apply in_bounds_true in E. intros H. injection H as <-.
  unfold size in *. split.
  - rewrite !length_app, length_firstn, repeat_length, length_skipn. lia.
  - intros p Hp. unfold byte_at. destruct (0 <=? p) eqn:Ep; [|reflexivity].
    apply Z.leb_le in Ep.
    rewrite nth_error_app1 by (rewrite length_firstn; lia).
    rewrite nth_error_firstn.
    replace (Z.to_nat p <? Z.to_nat start)%nat with true
      by (symmetry; apply Nat.ltb_lt; lia).
    reflexivity.
Qed.

Lemma erase_Ok b first last b' :
  erase b first last = Ok b' ->
  size b' = size b - (last - first) /\
  forall p, p < first -> byte_at b' p = byte_at b p.
Proof.
  unfold erase.
  destruct ((first <=? last) && in_bounds b first (last - first)) eqn:E;
    [|discriminate].
  apply andb_true_iff in E. destruct E as [E1 E2].
  apply Z.leb_le in E1. apply in_bounds_true in E2.
  intros H. injection H as <-. unfold size in *. split.
  - rewrite !length_app, length_firstn, length_skipn. lia.
  - intros p Hp. unfold byte_at. destruct (0 <=? p) eqn:Ep; [|reflexivity].
    apply Z.leb_le in Ep.
    rewrite nth_error_app1 by (rewrite length_firstn; lia).
    rewrite nth_error_firstn.
    replace (Z.to_nat p <? Z.to_nat first)%nat with true
      by (symmetry; apply Nat.ltb_lt; lia).
    reflexivity.
Qed.

(** What [ResizeContext] does to the buffer: with [delta_] the rounded
    delta, the size grows by [delta_], and a byte below [start] changes
    only if it lies in a slot patched by the walk. *)
Lemma ResizeContext_Ok schema start delta flatbuf flatbuf' :
  ResizeContext schema start delta flatbuf = Ok flatbuf' ->
  exists delta_,
    round_delta delta = Ok delta_ /\
    (delta_ = 0 -> flatbuf' = flatbuf) /\
    size flatbuf' = size flatbuf + delta_ /\
    forall p,
      p < start ->
      Forall (fun loc => p < loc \/ loc + sizeof uoffset_t <= p)
        (patched_slots schema start delta flatbuf) ->
      byte_at flatbuf' p = byte_at flatbuf p.
Proof.
  unfold ResizeContext, patched_slots. intros H.
  apply rbind_Ok in H. destruct H as (delta_ & Hd & H).
  exists delta_. rewrite Hd. split; [reflexivity|].
  destruct (delta_ =? 0) eqn:E.
  - apply Z.eqb_eq in E. injection H as <-. subst delta_.
    split; [reflexivity|]. split; [lia|reflexivity].
  - apply Z.eqb_neq in E. split; [contradiction|].
    apply rbind_Ok in H. destruct H as (st & Hw & H). rewrite Hw.
    apply ResizeContext_walk_walked in Hw. destruct Hw as (Hsteps & _).
    assert (Hframe : forall p,
      Forall (fun loc => p < loc \/ loc + sizeof uoffset_t <= p)
        (patched (trace st)) ->
      byte_at (buf_ st) p = byte_at flatbuf p).
    { intros p Hp. apply (steps_frame Hsteps). intros loc Hloc.
      rewrite Forall_forall in Hp. auto. }
    pose proof (steps_size Hsteps) as Hsize. simpl in Hsize.
    destruct (delta_ >? 0) eqn:Eg.
    + apply insert_zeros_Ok in H; [|lia]. destruct H as [Hs Hb].
      split; [lia|]. intros p Hp HF. rewrite Hb by assumption. auto.
    + apply erase_Ok in H. destruct H as [Hs Hb].
      split; [lia|]. intros p Hp HF. rewrite Hb by assumption. auto.
Qed.

(** C3. For every requested delta the engine rounds it up to the nearest
    multiple of 8; if the rounded delta is 0 the buffer is left entirely
    unchanged, and otherwise the size of the buffer changes by exactly the
    rounded delta, so the new size is congruent to the old size modulo 8. *)
Theorem C3_rounded_delta_and_size schema start delta flatbuf flatbuf' :
  ResizeContext schema start delta flatbuf = Ok flatbuf' ->
  exists delta_,
    round_delta delta = Ok delta_ /\
    delta_ mod 8 = 0 /\ delta <= delta_ < delta + 8 /\
    (delta_ = 0 -> flatbuf' = flatbuf) /\
    size flatbuf' = size flatbuf + delta_ /\
    size flatbuf' mod 8 = size flatbuf mod 8.
Proof.
  intros H. apply ResizeContext_Ok in H.
  destruct H as (delta_ & Hd & H0 & Hs & _).
  exists delta_. destruct (round_delta_spec _ Hd) as [Hm Hr].
  repeat split; try tauto; try lia.
  rewrite Hs, Z.add_mod, Hm, Z.add_0_r, Z.mod_mod by lia. reflexivity.
Qed.

(** ** The visit bits *)

(** C4 (as amended). During the walk of a resize, the visit bit of a table,
    field or element slot is consulted, and found clear, directly before
    the slot is read; a visit bit is set exactly when its slot is patched;
    and, unless a visited record is its own vtable, no visit bit is set
    twice and no slot is patched twice. *)
Theorem C4_visit_bits_set_once schema start delta_ flatbuf st :
  ResizeContext_walk schema start delta_ flatbuf = Ok st ->
  consulted_before_read (trace st) = true /\
  (forall i, Get (dag_check_ st) i = Ok true <-> In i (marked (trace st))) /\
  (self_vtable_free (trace st) ->
   NoDup (marked (trace st)) /\ NoDup (patched (trace st))).
Proof.
  intros H. apply ResizeContext_walk_walked in H.
  destruct H as (Hsteps & Honce & Hcons).
  split; [assumption|]. split.
  - intros i. split; [|apply (steps_marked Hsteps)].
    intros Hi.
    destruct (in_dec Z.eq_dec i (marked (trace st))) as [Hin|Hout];
      [assumption|].
    rewrite (steps_unmarked Hsteps i Hout) in Hi.
    apply Get_repeat_false in Hi. discriminate.
  - intros Hf. destruct (Honce Hf) as [Hn _].
    split; [assumption|]. eapply NoDup_map_inv. exact Hn.
Qed.

(** ** The early return *)

Lemma In_patched loc l :
  In loc (patched l) -> exists e, In e l /\ event_loc e = loc.
Proof.
  unfold patched. rewrite in_flat_map. intros (e & He & Hloc).
  exists e. split; [assumption|].
  destruct e; simpl in Hloc; try contradiction.
  destruct Hloc as [<-|[]]. reflexivity.
Qed.

(** C5. When the walk visits a record at or above [start], it returns
    having touched nothing but the record's own soffset slot: every event
    is at the record's address, the only slot read is that soffset, and
    every byte outside the soffset slot is unchanged. *)
Theorem C5_early_return schema start delta_ fuel objectdef table st st' :
  start <= table ->
  ResizeTable schema start delta_ fuel objectdef table st = Ok (tt, st') ->
  exists l,
    trace st' = l ++ trace st /\
    Forall (fun e => event_loc e = table) l /\
    (forall k loc raw, In (EvRead k loc raw) l -> k = TableSlot) /\
    (forall p, p < table \/ table + sizeof uoffset_t <= p ->
               byte_at (buf_ st') p = byte_at (buf_ st) p).
Proof.
  intros Hstart H. destruct fuel as [|fuel]; [discriminate|]. simpl in H.
  apply bind_Ok in H. destruct H as (visited & s1 & Hc & H).
  destruct visited.
  - apply ret_Ok in H. injection H as <-.
    apply DagCheck_Ok in Hc. destruct Hc as [-> _].
    exists [EvCheck table true]. repeat split; auto.
    intros k loc raw [Hin|[]]. discriminate.
  - apply bind_Ok in H. destruct H as (vtable & s2 & Hr & H).
    apply bind_Ok in H. destruct H as ([] & s3 & Hs3 & H).
    apply bind_Ok in H. destruct H as ([] & s4 & Hs4 & H).
    destruct (table_prelude _ _ _ _ Hc Hr Hs3 Hs4)
      as (l & (Hsteps & _) & Hloc & Hkind).
    replace (start <=? table) with true in H by (symmetry; apply Z.leb_le; lia).
    apply ret_Ok in H. injection H as <-.
    exists l. split; [apply (steps_trace Hsteps)|].
    split; [assumption|]. split.
    + intros k loc raw Hin. eapply Hkind; [exact Hin|reflexivity].
    + intros p Hp. apply (steps_frame Hsteps). intros loc Hin.
      apply In_patched in Hin. destruct Hin as (e & He & <-).
      rewrite Forall_forall in Hloc. rewrite (Hloc e He). lia.
Qed.

(** ** Vectors the walk does not descend into *)

Lemma reflection_eqb_eq a b : reflection.eqb a b = true <-> a = b.
Proof.
  unfold reflection.eqb. rewrite Z.eqb_eq. split; [|now intros ->].
  destruct a, b; simpl; intros H; try reflexivity; discriminate.
Qed.

Lemma cast_unsigned_nonneg T z : is_signed T = false -> 0 <= cast T z.
Proof.
  intros H. unfold cast. rewrite H. apply Z.mod_pos_bound.
  apply Z.pow_pos_nonneg; unfold bits; lia.
Qed.

Lemma ReadScalar_unsigned_nonneg T b a v :
  is_signed T = false -> ReadScalar T b a = Ok v -> 0 <= v.
Proof.
  intros HT H. unfold ReadScalar in H. apply rbind_Ok in H.
  destruct H as (bs & _ & H). injection H as <-.
  now apply cast_unsigned_nonneg.
Qed.

Lemma GetOptionalFieldOffset_nonneg b table field off :
  GetOptionalFieldOffset b table field = Ok off -> 0 <= off.
Proof.
  unfold GetOptionalFieldOffset. intros H.
  apply rbind_Ok in H. destruct H as (vtable & _ & H).
  apply rbind_Ok in H. destruct H as (vtsize & _ & H).
  destruct (field <? vtsize).
  - eapply ReadScalar_unsigned_nonneg; [|exact H]. reflexivity.
  - injection H as <-. lia.
Qed.

(** C6. For a vector field whose element type is not [Obj], or whose
    element object is a struct, the walk checks the field's own offset slot
    and goes no further: no element slot is consulted, read or adjusted,
    and every element slot keeps its stored value. *)
Theorem C6_no_descent_into_vector
  schema start delta_ rec fuel objectdef table fielddef st st' :
  base_type_of fielddef = reflection.Vector ->
  (reflection.element (reflection.type fielddef) <> reflection.Obj \/
   exists od,
     Get (reflection.objects schema)
         (reflection.index (reflection.type fielddef)) = Ok od /\
     reflection.is_struct od = true) ->
  ResizeField schema start delta_ rec fuel objectdef table fielddef st
    = Ok (tt, st') ->
  exists off l,
    GetOptionalFieldOffset (buf_ st) table (reflection.offset fielddef)
      = Ok off /\
    trace st' = l ++ trace st /\
    Forall (own_slot_event table (table + off)) l /\
    forall o i,
      ReadScalar uoffset_t (buf_ st) (table + off) = Ok o ->
      0 <= i ->
      let loc := Vector_Data (table + off + o) + i * sizeof uoffset_t in
      ~ In loc (map event_loc l) /\
      ReadScalar uoffset_t (buf_ st') loc = ReadScalar uoffset_t (buf_ st) loc.
Proof.
  intros Hbt Hel H. unfold ResizeField in H. rewrite Hbt in H.
  cbn [reflection.leb reflection.ord Z.leb Z.compare Pos.compare
       Pos.compare_cont reflection.eqb Z.eqb Pos.eqb] in H.
  apply bind_Ok in H. destruct H as (off & s1 & H1 & H).
  apply reading_Ok in H1. destruct H1 as (raw & _ & Hoff & ->).
  exists off.
  pose proof Hoff as Hoff0. apply GetOptionalFieldOffset_nonneg in Hoff0.
  (* what has to be shown of the events and of the final state *)
  assert (Hfin : forall l,
    steps st l st' ->
    Forall (own_slot_event table (table + off)) l ->
    exists l',
      GetOptionalFieldOffset (buf_ st) table (reflection.offset fielddef)
        = Ok off /\
      trace st' = l' ++ trace st /\
      Forall (own_slot_event table (table + off)) l' /\
      forall o i,
        ReadScalar uoffset_t (buf_ st) (table + off) = Ok o ->
        0 <= i ->
        let loc := Vector_Data (table + off + o) + i * sizeof uoffset_t in
        ~ In loc (map event_loc l') /\
        ReadScalar uoffset_t (buf_ st') loc
          = ReadScalar uoffset_t (buf_ st) loc).
  { intros l Hsteps Hown. exists l. split; [assumption|].
    split; [apply (steps_trace Hsteps)|]. split; [assumption|].
    intros o i Ho Hi loc.
    pose proof Ho as Ho0.
    apply ReadScalar_unsigned_nonneg in Ho0; [|reflexivity].
    assert (Hloc : table + off + sizeof uoffset_t <= loc).
    { unfold loc, Vector_Data, sizeof. simpl. lia. }
    rewrite Forall_forall in Hown. split.
    - intros Hin. apply in_map_iff in Hin. destruct Hin as (e & He & Hin).
      specialize (Hown e Hin). unfold sizeof in Hloc. simpl in Hloc.
      destruct e as [? ?|[] ? ?|? ? ?]; simpl in *; try contradiction; lia.
    - apply ReadScalar_ext; [apply (steps_size Hsteps)|].
      intros p Hp. apply (steps_frame Hsteps). intros loc' Hin.
      apply In_patched in Hin. destruct Hin as (e & He & <-).
      specialize (Hown e He).
      destruct e as [? ?|[] ? ?|? ? ?]; simpl in *; try contradiction; lia. }
  assert (S1 : steps st [EvRead FieldLookup table raw]
                 (emit (EvRead FieldLookup table raw) st))
    by (apply steps_emit; reflexivity).
  assert (O1 : Forall (own_slot_event table (table + off))
                 [EvRead FieldLookup table raw])
    by (repeat constructor).
  destruct (off =? 0).
  { apply ret_Ok in H. injection H as ->. eauto. }
  apply bind_Ok in H. destruct H as (sub & s2 & H2 & H).
  apply ret_Ok in H2. injection H2 as -> ->.
  apply bind_Ok in H. destruct H as (visited & s3 & Hc & H).
  destruct visited.
  { apply ret_Ok in H. injection H as ->.
    apply DagCheck_Ok in Hc. destruct Hc as [-> _].
    apply (Hfin ([EvCheck (table + off) true]
                 ++ [EvRead FieldLookup table raw])).
    - eapply steps_trans; [exact S1|]. apply steps_emit. reflexivity.
    - repeat constructor. }
  apply bind_Ok in H. destruct H as (o & s4 & Hr & H).
  apply bind_Ok in H. destruct H as ([] & s5 & Hs & H).
  destruct (slot_walked _ _ FieldSlot _ _ _ _ _ eq_refl Hc Hr Hs)
    as (l2 & (S2 & _) & Hloc & Hkind).
  assert (st' = s5) as ->.
  { destruct (negb (reflection.eqb
                      (reflection.element (reflection.type fielddef))
                      reflection.Obj)) eqn:En.
    - apply ret_Ok in H. congruence.
    - apply negb_false_iff, reflection_eqb_eq in En.
      destruct Hel as [Hne|(od & Hod & Hstruct)]; [contradiction|].
      apply bind_Ok in H. destruct H as (od' & s6 & Hg & H).
      apply lift_Ok in Hg. destruct Hg as [-> Hg].
      assert (od' = od) as -> by congruence.
      rewrite Hstruct in H. apply ret_Ok in H. congruence. }
  apply (Hfin (l2 ++ [EvRead FieldLookup table raw])).
  - eapply steps_trans; eassumption.
  - apply Forall_app. split; [|assumption].
    rewrite Forall_forall in *. intros e He. specialize (Hloc e He).
    destruct e as [? ?|k ? ?|? ? ?]; simpl in *; auto.
    rewrite (Hkind _ He _ _ _ eq_refl). assumption.
Qed.

(** ** [SetString] *)

Lemma byte_at_Some b p x : byte_at b p = Some x -> 0 <= p < size b.
Proof.
  unfold byte_at, size. destruct (0 <=? p) eqn:E; [|discriminate].
  apply Z.leb_le in E. intros H.
  assert (nth_error b (Z.to_nat p) <> None) by congruence.
  apply nth_error_Some in H0. lia.
Qed.

Lemma byte_at_in_bounds b p : 0 <= p < size b -> exists x, byte_at b p = Some x.
Proof.
  intros Hp. unfold byte_at, size in *.
  replace (0 <=? p) with true by (symmetry; apply Z.leb_le; lia).
  destruct (nth_error b (Z.to_nat p)) eqn:E; [eauto|].
  apply nth_error_None in E. lia.
Qed.

(** A load that succeeds in [b] succeeds, with the same bytes, in every
    buffer that agrees with [b] on the bytes read. *)
Lemma load_agree b b' a n bs :
  (0 < n)%nat ->
  load b a n = Ok bs ->
  (forall p, a <= p < a + Z.of_nat n -> byte_at b' p = byte_at b p) ->
  load b' a n = Ok bs.
Proof.
  intros Hn H Hb. pose proof H as H'. apply load_Ok in H'.
  destruct H' as (Ha & Hbound & _ & _).
  assert (Hlast : 0 <= a + Z.of_nat n - 1 < size b') .
  { assert (Hx : exists x, byte_at b (a + Z.of_nat n - 1) = Some x)
      by (apply byte_at_in_bounds; lia).
    destruct Hx as (x & Hx).
    rewrite <- Hb in Hx by lia. now apply byte_at_Some in Hx. }
  rewrite <- H. unfold load.
  replace (in_bounds b' a (Z.of_nat n)) with true
    by (symmetry; apply in_bounds_true; lia).
  replace (in_bounds b a (Z.of_nat n)) with true
    by (symmetry; apply in_bounds_true; lia).
  f_equal. apply nth_error_ext. intros i.
  rewrite !nth_error_firstn.
  destruct (i <? n)%nat eqn:Ei; [|reflexivity].
  apply Nat.ltb_lt in Ei. rewrite !nth_error_skipn.
  specialize (Hb (a + Z.of_nat i)). unfold byte_at in Hb.
  replace (0 <=? a + Z.of_nat i) with true in Hb
    by (symmetry; apply Z.leb_le; lia).
  replace (Z.to_nat (a + Z.of_nat i)) with (Z.to_nat a + i)%nat in Hb by lia.
  apply Hb. lia.
Qed.

Lemma ReadScalar_agree T b b' a v :
  (0 < width T)%nat ->
  ReadScalar T b a = Ok v ->
  (forall p, a <= p < a + sizeof T -> byte_at b' p = byte_at b p) ->
  ReadScalar T b' a = Ok v.
Proof.
  intros HT H Hb. unfold ReadScalar in *.
  apply rbind_Ok in H. destruct H as (bs & Hbs & H).
  eapply load_agree in Hbs; [|exact HT|exact Hb]. rewrite Hbs. exact H.
Qed.

Lemma ReadScalar_in_bounds T b a v :
  ReadScalar T b a = Ok v -> 0 <= a /\ a + sizeof T <= size b.
Proof.
  unfold ReadScalar. intros H. apply rbind_Ok in H.
  destruct H as (bs & Hbs & _). apply load_Ok in Hbs. tauto.
Qed.

Lemma cast_small T z :
  is_signed T = false -> 0 <= z < 2 ^ bits T -> cast T z = z.
Proof. intros HT Hz. unfold cast. rewrite HT. now apply Z.mod_small. Qed.

(** What [SetString] leaves alone: a byte below the first character of the
    string changes only if it lies in a slot patched by the walk. *)
Lemma SetString_frame schema val str flatbuf flatbuf' len p :
  String_Length flatbuf str = Ok len ->
  str + 4 < 2 ^ 32 ->
  SetString schema val str flatbuf = Ok flatbuf' ->
  p < str + 4 ->
  Forall (fun loc => p < loc \/ loc + sizeof uoffset_t <= p)
    (patched_slots schema (str + 4)
       (cast int32_t (size val) - cast int32_t len) flatbuf) ->
  byte_at flatbuf' p = byte_at flatbuf p.
Proof.
  intros Hlen Hstr H Hp HF. unfold SetString in H. rewrite Hlen in H.
  cbn [rbind] in H.
  apply rbind_Ok in H. destruct H as (delta & Hd & H).
  assert (delta = cast int32_t (size val) - cast int32_t len) as ->.
  { unfold int_op in Hd.
    destruct (in_range int32_t (cast int32_t (size val) - cast int32_t len));
      congruence. }
  clear Hd.
  assert (Hstart : cast uoffset_t (str - 0 + sizeof uoffset_t) = str + 4).
  { apply ReadScalar_in_bounds in Hlen.
    rewrite cast_small; [unfold sizeof; simpl; lia|reflexivity|].
    unfold sizeof. change (2 ^ bits uoffset_t) with (2 ^ 32). simpl. lia. }
  rewrite Hstart in H.
  apply rbind_Ok in H. destruct H as (flatbuf1 & H1 & H).
  unfold memcpy in H.
  assert (E : byte_at flatbuf' p = byte_at flatbuf1 p)
    by (eapply store_frame; [exact H|lia]).
  rewrite E. clear E H.
  destruct (negb (cast int32_t (size val) - cast int32_t len =? 0));
    [|congruence].
  apply rbind_Ok in H1. destruct H1 as (fb & Hfb & H1).
  apply ResizeContext_Ok in Hfb. destruct Hfb as (d & _ & _ & _ & Hframe).
  rewrite <- (Hframe p Hp HF).
  destruct (cast int32_t (size val) - cast int32_t len <? 0); [|congruence].
  apply rbind_Ok in H1. destruct H1 as (len' & _ & H1).
  unfold memset in H1. eapply store_frame; [exact H1|lia].
Qed.

(** C9. [SetString] never writes the length header of the string: whether
    the buffer grew, shrank or kept its size, the header holds the previous
    length after the call (provided the header is not itself an offset
    slot patched by the walk, which no string of a well-formed buffer
    is). *)
Theorem C9_length_header_kept schema val str flatbuf flatbuf' len :
  String_Length flatbuf str = Ok len ->
  str + 4 < 2 ^ 32 ->
  Forall (fun loc => loc + sizeof uoffset_t <= str \/ str + 4 <= loc)
    (patched_slots schema (str + 4)
       (cast int32_t (size val) - cast int32_t len) flatbuf) ->
  SetString schema val str flatbuf = Ok flatbuf' ->
  String_Length flatbuf' str = Ok len.
Proof.
  intros Hlen Hstr HF H. unfold String_Length in *.
  eapply ReadScalar_agree; [simpl; lia|exact Hlen|].
  intros p Hp. unfold sizeof in Hp. simpl in Hp.
  eapply SetString_frame; try eassumption; [lia|].
  eapply Forall_impl; [|exact HF]. simpl. intros loc Hloc. lia.
Qed.

(** ** [ResizeVector] *)

Lemma read_scalars_3 T b addr x y z :
  read_scalars T b addr 3 = Ok [x; y; z] <->
  ReadScalar T b addr = Ok x /\
  ReadScalar T b (addr + sizeof T) = Ok y /\
  ReadScalar T b (addr + sizeof T + sizeof T) = Ok z.
Proof.
  simpl. split.
  - intros H.
    apply rbind_Ok in H. destruct H as (x' & Hx & H).
    apply rbind_Ok in H. destruct H as (r1 & H & E1).
    apply rbind_Ok in H. destruct H as (y' & Hy & H).
    apply rbind_Ok in H. destruct H as (r2 & H & E2).
    apply rbind_Ok in H. destruct H as (z' & Hz & H).
    injection H as <-. injection E2 as <-. injection E1 as -> -> ->.
    auto.
  - intros (-> & -> & ->). reflexivity.
Qed.

(** C7. For a vector of [int32] of length 3 holding [10, 20, 30],
    [ResizeVector] to length 5 with fill value 99 rewrites the length
    header to 5, fills the two new element slots with 99 and keeps the
    existing elements: the vector then holds [10, 20, 30, 99, 99]
    (provided no element of the vector is itself an offset slot patched by
    the walk, which no element of a scalar vector of a well-formed buffer
    is). *)
Theorem C7_resize_vector_grow schema vec flatbuf flatbuf' :
  Vector_elements int32_t flatbuf vec = Ok [10; 20; 30] ->
  vec + 16 < 2 ^ 32 ->
  Forall (fun loc => loc + sizeof uoffset_t <= vec + 4 \/ vec + 16 <= loc)
    (patched_slots schema (vec + 16) 8 flatbuf) ->
  ResizeVector schema 5 (ScalarFill int32_t 99) vec flatbuf = Ok flatbuf' ->
  Vector_size flatbuf' vec = Ok 5 /\
  Vector_elements int32_t flatbuf' vec = Ok [10; 20; 30; 99; 99].
Proof.
  intros Helems Hvec HF H.
  (* the vector before the call *)
  unfold Vector_elements in Helems.
  apply rbind_Ok in Helems. destruct Helems as (n & Hn & Helems).
  assert (n = 3) as ->.
  { assert (Hl : length [10; 20; 30] = Z.to_nat n).
    { clear - Helems. revert Helems. generalize (Vector_Data vec).
      generalize [10; 20; 30].
      induction (Z.to_nat n) as [|k IH]; intros l a H; simpl in H.
      - injection H as <-. reflexivity.
      - apply rbind_Ok in H. destruct H as (v & _ & H).
        apply rbind_Ok in H. destruct H as (r & Hr & H).
        injection H as <-. simpl. f_equal. eapply IH. exact Hr. }
    simpl in Hl.
    apply ReadScalar_unsigned_nonneg in Hn; [lia|reflexivity]. }
  change (Z.to_nat 3) with 3%nat in Helems.
  apply read_scalars_3 in Helems. destruct Helems as (H0 & H1 & H2).
  unfold Vector_Data, sizeof in H0, H1, H2. simpl in H0, H1, H2.
  pose proof (ReadScalar_in_bounds _ _ _ Hn) as [Hvec0 _].
  (* the call *)
  unfold ResizeVector in H. rewrite Hn in H. cbn [rbind] in H.
  change (int_op (cast int32_t 5 - cast int32_t 3)) with (Ok 2) in H.
  cbn [rbind] in H.
  change (int_op (2 * cast int32_t (fill_sizeof (ScalarFill int32_t 99))))
    with (Ok 8) in H.
  cbn [rbind] in H.
  assert (Hstart : cast uoffset_t
            (vec - 0 + sizeof uoffset_t
             + fill_sizeof (ScalarFill int32_t 99) * 3) = vec + 16).
  { rewrite cast_small; [unfold sizeof; simpl; lia|reflexivity|].
    unfold sizeof. change (2 ^ bits uoffset_t) with (2 ^ 32). simpl. lia. }
  rewrite Hstart in H. replace (vec - 0) with vec in H by lia.
  change (negb (8 =? 0)) with true in H. cbv iota in H.
  apply rbind_Ok in H. destruct H as (fb & Hfb & H).
  apply rbind_Ok in H. destruct H as (fb1 & Hfb1 & H).
  change (Z.to_nat 2) with 2%nat in H. simpl in H.
  apply rbind_Ok in H. destruct H as (fb2 & Hfb2 & H).
  apply rbind_Ok in H. destruct H as (fb3 & Hfb3 & H).
  injection H as <-.
  replace (vec + 16 + 0) with (vec + 16) in Hfb2 by lia.
  (* the bytes each step leaves alone *)
  apply ResizeContext_Ok in Hfb. destruct Hfb as (d & _ & _ & _ & Hframe).
  assert (F0 : forall p, vec + 4 <= p < vec + 16 ->
                         byte_at fb p = byte_at flatbuf p).
  { intros p Hp. apply Hframe; [lia|].
    eapply Forall_impl; [|exact HF]. simpl. intros loc Hloc. lia. }
  assert (F1 : forall p, p < vec \/ vec + 4 <= p ->
                         byte_at fb1 p = byte_at fb p)
    by (intros p Hp; eapply WriteScalar_frame; [exact Hfb1|exact Hp]).
  assert (F2 : forall p, p < vec + 16 \/ vec + 20 <= p ->
                         byte_at fb2 p = byte_at fb1 p).
  { intros p Hp. eapply WriteScalar_frame; [exact Hfb2|].
    unfold sizeof. simpl. lia. }
  assert (F3 : forall p, p < vec + 20 \/ vec + 24 <= p ->
                         byte_at fb3 p = byte_at fb2 p).
  { intros p Hp. eapply WriteScalar_frame; [exact Hfb3|].
    unfold sizeof. simpl. lia. }
  (* reading the vector after the call *)
  assert (Hsize : Vector_size fb3 vec = Ok 5).
  { unfold Vector_size.
    eapply ReadScalar_agree;
      [simpl; lia|exact (ReadScalar_WriteScalar _ _ _ _ Hfb1)|].
    unfold sizeof. simpl. intros p Hp. rewrite F3, F2 by lia. reflexivity. }
  assert (Hold : forall a v, vec + 4 <= a -> a + 4 <= vec + 16 ->
                   ReadScalar int32_t flatbuf a = Ok v ->
                   ReadScalar int32_t fb3 a = Ok v).
  { intros a v Ha1 Ha2 Hv. eapply ReadScalar_agree; [simpl; lia|exact Hv|].
    unfold sizeof. simpl. intros p Hp.
    rewrite F3, F2, F1, F0 by lia. reflexivity. }
  split; [assumption|].
  unfold Vector_elements. rewrite Hsize. cbn [rbind].
  change (Z.to_nat 5) with 5%nat. cbn [read_scalars].
  unfold Vector_Data, sizeof. simpl.
  rewrite (Hold (vec + 4) 10 ltac:(lia) ltac:(lia) H0). cbn [rbind].
  rewrite (Hold (vec + 4 + 4) 20 ltac:(lia) ltac:(lia) H1). cbn [rbind].
  rewrite (Hold (vec + 4 + 4 + 4) 30 ltac:(lia) ltac:(lia) H2). cbn [rbind].
  replace (vec + 4 + 4 + 4 + 4) with (vec + 16) by lia.
  assert (R3 : ReadScalar int32_t fb3 (vec + 16) = Ok 99).
  { eapply ReadScalar_agree;
      [simpl; lia|exact (ReadScalar_WriteScalar _ _ _ _ Hfb2)|].
    unfold sizeof. simpl. intros p Hp. rewrite F3 by lia. reflexivity. }
  assert (R4 : ReadScalar int32_t fb3 (vec + 16 + 4) = Ok 99).
  { replace (vec + 16 + 1 * fill_sizeof (ScalarFill int32_t 99))
      with (vec + 16 + 4) in Hfb3 by (simpl; unfold sizeof; simpl; lia).
    exact (ReadScalar_WriteScalar _ _ _ _ Hfb3). }
  rewrite R3. cbn [rbind]. rewrite R4. reflexivity.
Qed.

(** ** Enough fuel

    The fuel that [ResizeContext] gives the walk is never used up: the
    outcome [OutOfFuel] does not occur.  Every record the walk enters lies
    at a higher address than the one it came from, and every slot it
    consults lies inside the buffer. *)

Lemma rbind_fueled {A B} (r : result A) (k : A -> result B) :
  r <> OutOfFuel -> (forall a, r = Ok a -> k a <> OutOfFuel) ->
  rbind r k <> OutOfFuel.
Proof.
  intros Hr Hk. destruct r; simpl; [now apply Hk|discriminate|congruence].
Qed.

Lemma bind_fueled {A B} (m : M A) (k : A -> M B) st :
  m st <> OutOfFuel ->
  (forall a s, m st = Ok (a, s) -> k a s <> OutOfFuel) ->
  bind m k st <> OutOfFuel.
Proof.
  intros Hm Hk. unfold bind. apply rbind_fueled; [assumption|].
  intros [a s]. apply Hk.
Qed.

(** Goals [r <> OutOfFuel] for code without recursion. *)
Ltac fueled :=
  repeat first
    [ discriminate
    | assumption
    | match goal with
      | |- rbind _ _ <> OutOfFuel => apply rbind_fueled; [|intros ? ?]
      | |- (if ?c then _ else _) <> OutOfFuel => destruct c
      | |- match ?x with _ => _ end <> OutOfFuel => destruct x
      end ].

Create HintDb fueled.

Lemma of_option_fueled {A} (o : option A) : of_option o <> OutOfFuel.
Proof. unfold of_option. fueled. Qed.

Lemma assert_fueled c : assert c <> OutOfFuel.
Proof. unfold assert. fueled. Qed.

Lemma int_op_fueled z : int_op z <> OutOfFuel.
Proof. unfold int_op. fueled. Qed.

Lemma load_fueled b a n : load b a n <> OutOfFuel.
Proof. unfold load. fueled. Qed.

Lemma store_fueled b a bs : store b a bs <> OutOfFuel.
Proof. unfold store. fueled. Qed.

Lemma ReadScalar_fueled T b a : ReadScalar T b a <> OutOfFuel.
Proof. unfold ReadScalar. fueled. apply load_fueled. Qed.

Lemma WriteScalar_fueled T b a v : WriteScalar T b a v <> OutOfFuel.
Proof. apply store_fueled. Qed.

Lemma Get_fueled {A} (v : list A) i : Get v i <> OutOfFuel.
Proof. unfold Get. fueled. apply of_option_fueled. Qed.

#[local] Hint Resolve of_option_fueled assert_fueled int_op_fueled
  load_fueled store_fueled ReadScalar_fueled WriteScalar_fueled Get_fueled
  : fueled.

Lemma GetVTable_fueled b table : GetVTable b table <> OutOfFuel.
Proof. unfold GetVTable. fueled. auto with fueled. Qed.

Lemma GetOptionalFieldOffset_fueled b table field :
  GetOptionalFieldOffset b table field <> OutOfFuel.
Proof.
  unfold GetOptionalFieldOffset. fueled; auto using GetVTable_fueled with fueled.
Qed.

Lemma GetFieldI_fueled T b table field : GetFieldI T b table field <> OutOfFuel.
Proof.
  unfold GetFieldI, Table_GetField.
  fueled; auto using GetOptionalFieldOffset_fueled with fueled.
Qed.

Lemma GetUnionType_fueled schema parent unionfield b table :
  GetUnionType schema parent unionfield b table <> OutOfFuel.
Proof.
  unfold GetUnionType. fueled; auto using GetFieldI_fueled with fueled.
Qed.

Lemma Vector_Get_fueled T b vec i : Vector_Get T b vec i <> OutOfFuel.
Proof. unfold Vector_Get, Vector_size. fueled; auto with fueled. Qed.

Lemma GetAnyRoot_fueled b : GetAnyRoot b <> OutOfFuel.
Proof. unfold GetAnyRoot. fueled. auto with fueled. Qed.

Lemma dag_set_fueled d loc : dag_set d loc <> OutOfFuel.
Proof. unfold dag_set. fueled. Qed.

Lemma DagCheck_fueled loc st : DagCheck loc st <> OutOfFuel.
Proof. unfold DagCheck, dag_get. fueled. auto with fueled. Qed.

Lemma reading_fueled A k loc (f : buffer -> result A) st :
  f (buf_ st) <> OutOfFuel -> reading k loc f st <> OutOfFuel.
Proof. intros Hf. unfold reading. fueled. auto with fueled. Qed.

Lemma lift_fueled A (f : buffer -> result A) st :
  f (buf_ st) <> OutOfFuel -> lift f st <> OutOfFuel.
Proof. intros Hf. unfold lift. fueled. Qed.

Lemma Straddle_fueled start delta_ T D first second loc st :
  Straddle start delta_ T D first second loc st <> OutOfFuel.
Proof.
  unfold Straddle.
  destruct ((first <=? start) && (second >=? start)); [|discriminate].
  fueled; auto using dag_set_fueled with fueled.
Qed.

(** A slot whose visit bit could be consulted lies inside the buffer. *)
Lemma DagCheck_bound loc st v s :
  DagCheck loc st = Ok (v, s) ->
  loc < 4 * Z.of_nat (length (dag_check_ st)).
Proof.
  intros H. apply DagCheck_Ok in H. destruct H as [_ H].
  apply Get_nth_error in H. destruct H as [H0 H].
  assert (Hlt : (Z.to_nat (dag_idx loc) < length (dag_check_ st))%nat)
    by (apply nth_error_Some; congruence).
  unfold dag_idx in *. change (sizeof uoffset_t) with 4 in *.
  pose proof (Z.div_mod loc 4 ltac:(lia)).
  pose proof (Z.mod_pos_bound loc 4 ltac:(lia)). lia.
Qed.

Lemma ReadScalar_unsigned_bound T b a v :
  is_signed T = false -> ReadScalar T b a = Ok v -> v < 2 ^ bits T.
Proof.
  intros HT H. unfold ReadScalar in H. apply rbind_Ok in H.
  destruct H as (bs & _ & H). injection H as <-.
  unfold cast. rewrite HT. apply Z.mod_pos_bound.
  apply Z.pow_pos_nonneg; unfold bits; lia.
Qed.

Lemma ResizeTable_S schema start delta_ fuel objectdef table :
  ResizeTable schema start delta_ (S fuel) objectdef table =
  bind (DagCheck table) (fun visited =>
    if visited then ret tt else
    bind (reading TableSlot table (fun b => GetVTable b table)) (fun vtable =>
    bind (Straddle start delta_ soffset_t (-1) table vtable table) (fun _ =>
    bind (Straddle start delta_ soffset_t (-1) vtable table table) (fun _ =>
    if start <=? table then ret tt else
    for_each (ResizeField schema start delta_
                (ResizeTable schema start delta_ fuel) fuel objectdef table)
             (reflection.fields objectdef))))).
Proof. reflexivity. Qed.

Section Fuel.

Variable schema_ : reflection.Schema.
Variable startptr_ delta_ : Z.

(** The number of visit bits; the walk keeps it. *)
Variable N : nat.

Lemma walked_dag_length st st' (m : M unit) :
  walks m -> m st = Ok (tt, st') ->
  length (dag_check_ st) = N -> length (dag_check_ st') = N.
Proof.
  intros Hm H HN. destruct (Hm _ _ H) as (l & Hsteps & _).
  rewrite (steps_dag_length Hsteps). exact HN.
Qed.

Lemma for_each_fueled A (body : A -> M unit) l :
  (forall x, walks (body x)) ->
  (forall x st, length (dag_check_ st) = N -> body x st <> OutOfFuel) ->
  forall st, length (dag_check_ st) = N -> for_each body l st <> OutOfFuel.
Proof.
  intros Hw Hb. induction l as [|x l IH]; intros st HN; simpl.
  - discriminate.
  - apply bind_fueled; [now apply Hb|].
    intros [] s Hs. apply IH. eapply walked_dag_length; eauto.
Qed.

Lemma ResizeElem_fueled rec vec i st :
  (forall t, walks (rec t)) ->
  (forall t s, length (dag_check_ s) = N -> vec + 4 <= t ->
               rec t s <> OutOfFuel) ->
  length (dag_check_ st) = N -> 0 <= i ->
  ResizeElem startptr_ delta_ rec vec i st <> OutOfFuel.
Proof.
  intros Hw Hrec HN Hi. unfold ResizeElem.
  apply bind_fueled; [apply DagCheck_fueled|].
  intros visited s1 Hc. destruct visited; [discriminate|].
  apply bind_fueled; [apply reading_fueled, Vector_Get_fueled|].
  intros o s2 Hr.
  apply bind_fueled; [apply Straddle_fueled|].
  intros [] s3 Hs.
  destruct (slot_walked _ _ ElemSlot _ _ _ _ _ eq_refl Hc Hr Hs)
    as (l & (Hsteps & _) & _).
  apply reading_Ok in Hr. destruct Hr as (raw & _ & Ho & _).
  unfold Vector_Get in Ho.
  apply rbind_Ok in Ho. destruct Ho as (n & _ & Ho).
  apply rbind_Ok in Ho. destruct Ho as (u & _ & Ho).
  apply ReadScalar_unsigned_nonneg in Ho; [|reflexivity].
  apply Hrec.
  - rewrite (steps_dag_length Hsteps). exact HN.
  - unfold Vector_Data, sizeof. simpl. lia.
Qed.

Lemma ResizeElems_fueled rec vec :
  (forall t, walks (rec t)) ->
  (forall t s, length (dag_check_ s) = N -> vec + 4 <= t ->
               rec t s <> OutOfFuel) ->
  forall n i st,
    length (dag_check_ st) = N -> 0 <= i -> (1 <= n)%nat ->
    4 * Z.of_nat N <= vec + 4 + 4 * i + Z.of_nat n - 1 ->
    ResizeElems startptr_ delta_ rec vec n i st <> OutOfFuel.
Proof.
  intros Hw Hrec. induction n as [|n IH]; intros i st HN Hi Hn Hb; [lia|].
  simpl. apply bind_fueled.
  { apply lift_fueled. unfold Vector_size. apply ReadScalar_fueled. }
  intros sz s Hsz. apply lift_Ok in Hsz. destruct Hsz as [-> Hsz].
  destruct (i <? sz) eqn:Ei; [|discriminate].
  apply Z.ltb_lt in Ei.
  apply bind_fueled; [now apply ResizeElem_fueled|].
  intros [] s2 He.
  assert (HN2 : length (dag_check_ s2) = N)
    by (eapply walked_dag_length; [apply ResizeElem_walks, Hw|exact He|exact HN]).
  assert (Hloc : vec + 4 + i * 4 < 4 * Z.of_nat N).
  { unfold ResizeElem in He. apply bind_Ok in He.
    destruct He as (v & s1 & Hc & _). apply DagCheck_bound in Hc.
    rewrite HN in Hc. exact Hc. }
  apply ReadScalar_unsigned_bound in Hsz; [|reflexivity].
  assert (Hi' : cast uoffset_t (i + 1) = i + 1)
    by (apply cast_small; [reflexivity|lia]).
  rewrite Hi'. apply IH; try assumption; lia.
Qed.

Lemma ResizeField_fueled rec fuel objectdef table fielddef st :
  (forall od t, walks (rec od t)) ->
  (forall od t s, length (dag_check_ s) = N -> table + 1 <= t ->
                  rec od t s <> OutOfFuel) ->
  length (dag_check_ st) = N ->
  (1 <= fuel)%nat -> 4 * Z.of_nat N <= table + Z.of_nat fuel ->
  ResizeField schema_ startptr_ delta_ rec fuel objectdef table fielddef st
    <> OutOfFuel.
Proof.
  intros Hw Hrec HN Hfuel Hb. unfold ResizeField.
  destruct (reflection.leb (base_type_of fielddef) reflection.Double);
    [discriminate|].
  apply bind_fueled;
    [apply reading_fueled, GetOptionalFieldOffset_fueled|].
  intros offset s1 H1.
  apply reading_Ok in H1. destruct H1 as (raw & _ & Hoff & ->).
  apply GetOptionalFieldOffset_nonneg in Hoff.
  destruct (offset =? 0) eqn:E0; [discriminate|]. apply Z.eqb_neq in E0.
  apply bind_fueled.
  { destruct (reflection.eqb (base_type_of fielddef) reflection.Obj);
      [|discriminate].
    apply lift_fueled. fueled. apply Get_fueled. }
  intros subobjectdef s2 H2.
  assert (s2 = emit (EvRead FieldLookup table raw) st) as ->.
  { destruct (reflection.eqb (base_type_of fielddef) reflection.Obj).
    - apply lift_Ok in H2. tauto.
    - apply ret_Ok in H2. congruence. }
  clear H2.
  destruct (match subobjectdef with
            | Some o => reflection.is_struct o
            | Datatypes.None => false
            end); [discriminate|].
  apply bind_fueled; [apply DagCheck_fueled|].
  intros visited s3 Hc. destruct visited; [discriminate|].
  apply bind_fueled; [apply reading_fueled, ReadScalar_fueled|].
  intros o s4 Hr.
  apply bind_fueled; [apply Straddle_fueled|].
  intros [] s5 Hs.
  destruct (slot_walked _ _ FieldSlot _ _ _ _ _ eq_refl Hc Hr Hs)
    as (l & (Hsteps & _) & _).
  assert (HN5 : length (dag_check_ s5) = N)
    by (rewrite (steps_dag_length Hsteps); exact HN).
  apply reading_Ok in Hr. destruct Hr as (raw' & _ & Ho & _).
  apply ReadScalar_unsigned_nonneg in Ho; [|reflexivity].
  destruct (base_type_of fielddef);
    try (apply lift_fueled; discriminate); try discriminate.
  - (* Vector *)
    destruct (negb _); [discriminate|].
    apply bind_fueled; [apply lift_fueled, Get_fueled|].
    intros elemobjectdef s6 He. apply lift_Ok in He. destruct He as [-> _].
    destruct (reflection.is_struct elemobjectdef); [discriminate|].
    apply ResizeElems_fueled; try assumption; try lia.
    + intros t. apply Hw.
    + intros t s Hs' Ht. apply Hrec; [assumption|lia].
  - (* Obj *)
    destruct subobjectdef as [od|]; [|apply lift_fueled; discriminate].
    apply Hrec; [assumption|lia].
  - (* Union *)
    apply bind_fueled; [apply reading_fueled, GetUnionType_fueled|].
    intros od s6 Hu. apply reading_Ok in Hu. destruct Hu as (r & _ & _ & ->).
    apply Hrec; [assumption|lia].
Qed.

Lemma ResizeTable_fueled fuel :
  forall objectdef table st,
    length (dag_check_ st) = N ->
    4 * Z.of_nat N <= table + Z.of_nat fuel ->
    ResizeTable schema_ startptr_ delta_ (S fuel) objectdef table st
      <> OutOfFuel.
Proof.
  induction fuel as [|fuel IH]; intros objectdef table st HN Hb;
    rewrite ResizeTable_S;
    (apply bind_fueled; [apply DagCheck_fueled|]);
    intros visited s1 Hc; pose proof (DagCheck_bound _ _ Hc) as Htable;
    rewrite HN in Htable.
  - lia.
  - destruct visited; [discriminate|].
    apply bind_fueled; [apply reading_fueled, GetVTable_fueled|].
    intros vtable s2 Hr.
    apply bind_fueled; [apply Straddle_fueled|]. intros [] s3 Hs3.
    apply bind_fueled; [apply Straddle_fueled|]. intros [] s4 Hs4.
    destruct (startptr_ <=? table); [discriminate|].
    destruct (table_prelude _ _ _ _ Hc Hr Hs3 Hs4) as (l & (Hsteps & _) & _).
    apply for_each_fueled.
    + intros x. apply ResizeField_walks. intros od t. apply ResizeTable_walks.
    + intros x s Hs. apply ResizeField_fueled; try assumption; try lia.
      * intros od t. apply ResizeTable_walks.
      * intros od t s' Hs' Ht. apply IH; [assumption|lia].
    + rewrite (steps_dag_length Hsteps). exact HN.
Qed.

End Fuel.

(** The walk of the constructor never runs out of fuel. *)
Theorem ResizeContext_walk_fueled schema start delta_ flatbuf :
  ResizeContext_walk schema start delta_ flatbuf <> OutOfFuel.
Proof.
  unfold ResizeContext_walk. apply rbind_fueled; [|discriminate].
  unfold ResizeOffsets.
  apply bind_fueled; [apply reading_fueled, GetAnyRoot_fueled|].
  intros root s1 Hr.
  apply bind_fueled; [apply Straddle_fueled|]. intros [] s2 Hs.
  apply bind_fueled; [apply lift_fueled, of_option_fueled|].
  intros root_table s3 Hl. apply lift_Ok in Hl. destruct Hl as [-> _].
  apply reading_Ok in Hr. destruct Hr as (raw & _ & Hroot & ->).
  unfold GetAnyRoot in Hroot. apply rbind_Ok in Hroot.
  destruct Hroot as (o & Ho & Hroot). injection Hroot as <-.
  apply ReadScalar_unsigned_nonneg in Ho; [|reflexivity].
  assert (HN : length (dag_check_ s2)
               = Z.to_nat (size flatbuf / sizeof uoffset_t)).
  { apply Straddle_Ok in Hs; [|reflexivity].
    destruct Hs as [(_ & old & new & _ & _ & _ & Hsteps)|(_ & ->)].
    - rewrite (steps_dag_length Hsteps). simpl. apply repeat_length.
    - simpl. apply repeat_length. }
  apply ResizeTable_fueled with (N := Z.to_nat (size flatbuf / sizeof uoffset_t));
    [exact HN|].
  unfold size. change (sizeof uoffset_t) with 4.
  pose proof (Z.div_mod (Z.of_nat (length flatbuf)) 4 ltac:(lia)).
  pose proof (Z.mod_pos_bound (Z.of_nat (length flatbuf)) 4 ltac:(lia)).
  assert (0 <= Z.of_nat (length flatbuf) / 4) by (apply Z.div_pos; lia).
  rewrite Z2Nat.id by assumption. lia.
Qed.

(** So neither do [ResizeContext], [SetString] and [ResizeVector]. *)
Theorem ResizeContext_fueled schema start delta flatbuf :
  ResizeContext schema start delta flatbuf <> OutOfFuel.
Proof.
  unfold ResizeContext, round_delta, insert_zeros, erase.
  fueled; auto using ResizeContext_walk_fueled with fueled.
Qed.

Theorem SetString_fueled schema val str flatbuf :
  SetString schema val str flatbuf <> OutOfFuel.
Proof.
  unfold SetString, String_Length, memset, memcpy.
  fueled; auto using ResizeContext_fueled with fueled.
Qed.

Lemma fill_new_elements_fueled v start n :
  forall i b, fill_new_elements v start n i b <> OutOfFuel.
Proof.
  induction n as [|n IH]; intros i b; simpl; [discriminate|].
  apply rbind_fueled; [|intros b' _; apply IH].
  unfold write_fill. destruct v; auto with fueled.
Qed.

Theorem ResizeVector_fueled schema newsize val vec flatbuf :
  ResizeVector schema newsize val vec flatbuf <> OutOfFuel.
Proof.
  unfold ResizeVector, Vector_size.
  fueled;
    auto using ResizeContext_fueled, fill_new_elements_fueled with fueled.
Qed.

(** ** The coercing getters on an absent string *)

(** C10. For a field of base type [String] that is absent from the record's
    vtable, [GetAnyFieldI] returns 0 and [GetAnyFieldF] returns 0.0. *)
Theorem C10_absent_string_reads_zero StringToInt strtod b table field :
  base_type_of field = reflection.String ->
  GetOptionalFieldOffset b table (reflection.offset field) = Ok 0 ->
  GetAnyFieldI StringToInt b table field = Ok 0 /\
  GetAnyFieldF StringToInt strtod b table field = Ok (S754_zero false).
Proof.
  intros Hbt Hoff.
  unfold GetAnyFieldI, GetAnyFieldF, GetFieldS, Table_GetPointer.
  rewrite Hbt, Hoff. split; reflexivity.
Qed.

Lemma C10_absent_string_reads_zero_witness :
  base_type_of Pt.label = reflection.String /\
  GetOptionalFieldOffset Pt.buf Pt.root (reflection.offset Pt.label) = Ok 0 /\
  GetAnyFieldI (fun _ => 1) Pt.buf Pt.root Pt.label = Ok 0 /\
  GetAnyFieldF (fun _ => 1) (fun _ => Pt.three) Pt.buf Pt.root Pt.label
    = Ok (S754_zero false).
Proof.
  split; [reflexivity|]. split; [reflexivity|].
  apply C10_absent_string_reads_zero; reflexivity.
Defined.

(** ** [SetAnyFieldS] on a floating-point field *)

(** C8 (the defect, on a concrete record). On the record [Pt] with
    [x : float], [SetAnyFieldS] with the string "3.5" first stores 3.5, as
    [SetAnyFieldF] alone does, and then falls through and overwrites the
    field with the integer re-parse: the field ends up holding 3.0. *)
Theorem C8_float_field_overwritten StringToInt strtod :
  StringToInt (chars "3.5") = 3 ->
  strtod (chars "3.5") = Pt.three_and_a_half ->
  exists b1 b2,
    SetAnyFieldF Pt.buf Pt.root Pt.x Pt.three_and_a_half = Ok b1 /\
    GetFieldF float_ b1 Pt.root Pt.x = Ok (fcast float_ Pt.three_and_a_half) /\
    SetAnyFieldS StringToInt strtod Pt.buf Pt.root Pt.x (chars "3.5") = Ok b2 /\
    GetFieldF float_ b2 Pt.root Pt.x = Ok (float_of_int float_ 3) /\
    float_of_int float_ 3 <> fcast float_ Pt.three_and_a_half.
Proof.
  intros Hi Hd. unfold SetAnyFieldS. cbn [base_type_of Pt.x mkField mkType
    reflection.type reflection.base_type].
  rewrite Hi, Hd. unfold SetAnyFieldF, SetAnyFieldI.
  cbn [base_type_of Pt.x mkField mkType reflection.type reflection.base_type].
  eexists. eexists.
  split; [vm_compute; reflexivity|].
  split; [vm_compute; reflexivity|].
  split; [vm_compute; reflexivity|].
  split; [vm_compute; reflexivity|].
  vm_compute. discriminate.
Qed.

Lemma C8_float_field_overwritten_witness :
  (fun _ : list byte => 3) (chars "3.5") = 3 /\
  (fun _ : list byte => Pt.three_and_a_half) (chars "3.5")
    = Pt.three_and_a_half /\
  exists b1 b2,
    SetAnyFieldF Pt.buf Pt.root Pt.x Pt.three_and_a_half
      = Ok b1 /\
    GetFieldF float_ b1 Pt.root Pt.x = Ok (fcast float_ Pt.three_and_a_half) /\
    SetAnyFieldS (fun _ => 3) (fun _ => Pt.three_and_a_half)
      Pt.buf Pt.root Pt.x (chars "3.5") = Ok b2 /\
    GetFieldF float_ b2 Pt.root Pt.x = Ok (float_of_int float_ 3) /\
    float_of_int float_ 3 <> fcast float_ Pt.three_and_a_half.
Proof.
  split; [reflexivity|]. split; [reflexivity|].
  apply C8_float_field_overwritten; reflexivity.
Defined.

(** ** [SetString] on the record [Pet] *)

(** C1 (the defect, on a concrete record). On the record [Pet] with
    [name = "ab"], [SetString] with "abcdef" grows the buffer by 8 bytes and
    leaves the other fields as they were, but the string [name] still has
    length 2: its bytes up to [Length()] are "ab", and only the
    NUL-terminated view reads "abcdef". *)
Theorem C1_SetString_keeps_old_length :
  exists b',
    SetString Pet.schema (chars "abcdef") Pet.name_str Pet.buf = Ok b' /\
    size b' = size Pet.buf + 8 /\
    GetFieldI int32_t b' Pet.root Pet.hp = GetFieldI int32_t Pet.buf Pet.root Pet.hp /\
    (exists t, GetFieldS b' Pet.root Pet.tag = Ok (Some t) /\
               String_str b' t = Ok (chars "xy")) /\
    exists s,
      GetFieldS b' Pet.root Pet.name = Ok (Some s) /\
      String_Length b' s = Ok 2 /\
      String_str b' s = Ok (chars "ab") /\
      String_c_str b' s = Ok (chars "abcdef").
Proof.
  eexists. split; [vm_compute; reflexivity|].
  split; [reflexivity|]. split; [reflexivity|].
  split; [eexists; split; [vm_compute; reflexivity|]; vm_compute; reflexivity|].
  eexists. split; [vm_compute; reflexivity|].
  repeat split; vm_compute; reflexivity.
Qed.

(** ** A record that starts at the insertion point *)

(** C2 (the defect, on a concrete buffer). In the buffer [Farm] the record [t]
    starts where the vector [v] ends, and its vtable lies after it.
    Growing [v] by two elements inserts 8 bytes at the address of [t]: the
    soffset slot of [t] and its target both lie at or above the insertion
    point, yet the walk rewrites the slot from -10 to -18.  After the call
    the field [a] of [t] no longer reads 7. *)
Theorem C2_slot_at_start_is_patched :
  let start := Farm.t_table in
  exists st b',
    ResizeContext_walk Farm.schema start 8 Farm.buf = Ok st /\
    GetVTable Farm.buf Farm.t_table = Ok 58 /\
    start <= Farm.t_table /\ start <= 58 /\
    ReadScalar soffset_t Farm.buf Farm.t_table = Ok (-10) /\
    ReadScalar soffset_t (buf_ st) Farm.t_table = Ok (-18) /\
    In (EvPatch Farm.t_table (-10) (-18)) (trace st) /\
    ResizeVector Farm.schema 5 (ScalarFill int32_t 99) Farm.vec Farm.buf
      = Ok b' /\
    GetFieldT Farm.buf Farm.root Farm.t = Ok (Some Farm.t_table) /\
    GetFieldI int32_t Farm.buf Farm.t_table Farm.a = Ok 7 /\
    GetFieldT b' Farm.root Farm.t = Ok (Some (Farm.t_table + 8)) /\
    GetFieldI int32_t b' (Farm.t_table + 8) Farm.a = Ok 0.
Proof.
  eexists. eexists.
  split; [vm_compute; reflexivity|].
  split; [reflexivity|]. split; [vm_compute; discriminate|].
  split; [vm_compute; discriminate|].
  split; [reflexivity|]. split; [reflexivity|].
  split; [simpl; tauto|].
  split; [vm_compute; reflexivity|].
  repeat split; vm_compute; reflexivity.
Qed.

(** ** A record reached twice *)

(** C4 (as stated, refuted). In the buffer [Pair] the fields [a] and [b] refer
    to the same record, which lies below the insertion point; the walk
    enters it twice and reads its field slot twice. *)
Lemma C4_slot_inspected_twice :
  ~ (forall st loc,
       ResizeContext_walk Pair.schema (Pair.str + 4) 8 Pair.buf = Ok st ->
       (slot_reads loc (trace st) <= 1)%nat).
Proof.
  intros H.
  assert (Hw : exists st,
    ResizeContext_walk Pair.schema (Pair.str + 4) 8 Pair.buf = Ok st /\
    slot_reads Pair.node_s_slot (trace st) = 2%nat)
    by (eexists; split; vm_compute; reflexivity).
  destruct Hw as (st & Hst & Hreads).
  specialize (H st Pair.node_s_slot Hst). rewrite Hreads in H. lia.
Qed.

(** Why the records that are their own vtable are set apart: for such a
    record at the insertion point both straddle checks fire, and its
    slot is patched, and its visit bit set, twice. *)
Lemma self_vtable_patched_twice :
  exists st,
    ResizeContext_walk Selfie.schema Selfie.root 8 Selfie.buf = Ok st /\
    patched (trace st) = [Selfie.root; Selfie.root; 0] /\
    ReadScalar soffset_t (buf_ st) Selfie.root = Ok (-16).
Proof.
  eexists. split; [vm_compute; reflexivity|].
  split; reflexivity.
Qed.

(** What the amended C4 leaves out: a record's soffset slot is read again,
    to look up its fields, after it has been patched.  In the buffer
    [Chain] the root lies below the insertion point and its vtable above:
    the soffset is patched first, the field lookups then read a vtable that
    is not there yet, the field [next] is taken to be absent, and its slot,
    which straddles the insertion point, is not patched.  After
    [SetString] the field [next] no longer leads to the second record. *)
Lemma soffset_read_after_patch :
  let start := Chain.root_name + 4 in
  exists st b',
    ResizeContext_walk Chain.schema start 8 Chain.buf = Ok st /\
    (exists l1 l2,
       trace st = l1 ++ EvPatch Chain.root (-20) (-28) :: l2 /\
       In (EvRead FieldLookup Chain.root (cast uoffset_t (-28))) l1) /\
    GetFieldT Chain.buf Chain.root Chain.next = Ok (Some Chain.second) /\
    Chain.root + 8 < start <= Chain.second /\
    ~ In (Chain.root + 8) (patched (trace st)) /\
    SetString Chain.schema (chars "abcdef") Chain.root_name Chain.buf
      = Ok b' /\
    (exists s, GetFieldS b' (Chain.second + 8) Chain.name = Ok (Some s) /\
               String_c_str b' s = Ok (chars "cd")) /\
    GetFieldT b' Chain.root Chain.next = Ok (Some Chain.second).
Proof.
  eexists. eexists.
  split; [vm_compute; reflexivity|].
  split.
  { exists [EvRead FieldLookup 4 4294967268; EvRead FieldSlot 36 32;
            EvCheck 36 false; EvRead FieldLookup 4 4294967268].
    eexists. split; [reflexivity|]. simpl. auto. }
  split; [reflexivity|].
  split; [vm_compute; split; [reflexivity|discriminate]|].
  split; [vm_compute; intuition discriminate|].
  split; [vm_compute; reflexivity|].
  split; [|reflexivity].
  eexists. split; [vm_compute; reflexivity|]. vm_compute. reflexivity.
Qed.

(** ** The theorems at concrete inputs *)

Lemma C3_rounded_delta_and_size_witness :
  exists flatbuf',
    ResizeContext Pet.schema 36 4 Pet.buf = Ok flatbuf' /\
    exists delta_,
      round_delta 4 = Ok delta_ /\
      delta_ mod 8 = 0 /\ 4 <= delta_ < 4 + 8 /\
      (delta_ = 0 -> flatbuf' = Pet.buf) /\
      size flatbuf' = size Pet.buf + delta_ /\
      size flatbuf' mod 8 = size Pet.buf mod 8.
Proof.
  eexists. split; [vm_compute; reflexivity|].
  apply C3_rounded_delta_and_size with (schema := Pet.schema) (start := 36).
  vm_compute. reflexivity.
Defined.

Lemma C4_visit_bits_set_once_witness :
  exists st,
    ResizeContext_walk Farm.schema 48 8 Farm.buf = Ok st /\
    self_vtable_free (trace st) /\
    patched (trace st) = [28; 48; 24] /\
    consulted_before_read (trace st) = true /\
    (forall i, Get (dag_check_ st) i = Ok true <-> In i (marked (trace st))) /\
    (self_vtable_free (trace st) ->
     NoDup (marked (trace st)) /\ NoDup (patched (trace st))).
Proof.
  eexists. split; [vm_compute; reflexivity|].
  split; [reflexivity|]. split; [reflexivity|].
  apply C4_visit_bits_set_once
    with (schema := Farm.schema) (start := 48) (delta_ := 8)
         (flatbuf := Farm.buf).
  vm_compute. reflexivity.
Defined.

Lemma C5_early_return_witness :
  exists st',
    48 <= Farm.x_table /\
    ResizeTable Farm.schema 48 8 2%nat Farm.Cell Farm.x_table
      (initial_ctx Farm.buf) = Ok (tt, st') /\
    exists l,
      trace st' = l ++ trace (initial_ctx Farm.buf) /\
      Forall (fun e => event_loc e = Farm.x_table) l /\
      (forall k loc raw, In (EvRead k loc raw) l -> k = TableSlot) /\
      (forall p, p < Farm.x_table \/ Farm.x_table + sizeof uoffset_t <= p ->
                 byte_at (buf_ st') p = byte_at (buf_ (initial_ctx Farm.buf)) p).
Proof.
  eexists. split; [vm_compute; discriminate|].
  split; [vm_compute; reflexivity|].
  apply C5_early_return
    with (schema := Farm.schema) (start := 48) (delta_ := 8) (fuel := 2%nat)
         (objectdef := Farm.Cell).
  - vm_compute. discriminate.
  - vm_compute. reflexivity.
Defined.

Lemma C6_no_descent_into_vector_witness :
  exists st',
    base_type_of Names.list_ = reflection.Vector /\
    reflection.element (reflection.type Names.list_) <> reflection.Obj /\
    ResizeField Names.schema (Names.first_str + 4) 8
      (ResizeTable Names.schema (Names.first_str + 4) 8 4%nat) 4%nat
      Names.object Names.root Names.list_ (initial_ctx Names.buf)
      = Ok (tt, st') /\
    exists off l,
      GetOptionalFieldOffset Names.buf Names.root
        (reflection.offset Names.list_) = Ok off /\
      trace st' = l ++ [] /\
      Forall (own_slot_event Names.root (Names.root + off)) l /\
      forall o i,
        ReadScalar uoffset_t Names.buf (Names.root + off) = Ok o ->
        0 <= i ->
        let loc := Vector_Data (Names.root + off + o) + i * sizeof uoffset_t in
        ~ In loc (map event_loc l) /\
        ReadScalar uoffset_t (buf_ st') loc
          = ReadScalar uoffset_t Names.buf loc.
Proof.
  eexists. split; [reflexivity|]. split; [discriminate|].
  split; [vm_compute; reflexivity|].
  apply C6_no_descent_into_vector
    with (schema := Names.schema) (start := Names.first_str + 4) (delta_ := 8)
         (rec := ResizeTable Names.schema (Names.first_str + 4) 8 4%nat)
         (fuel := 4%nat) (objectdef := Names.object)
         (fielddef := Names.list_) (st := initial_ctx Names.buf).
  - reflexivity.
  - left. discriminate.
  - vm_compute. reflexivity.
Defined.

Lemma C7_resize_vector_grow_witness :
  exists flatbuf',
    Vector_elements int32_t Farm.buf Farm.vec = Ok [10; 20; 30] /\
    Farm.vec + 16 < 2 ^ 32 /\
    Forall (fun loc => loc + sizeof uoffset_t <= Farm.vec + 4
                       \/ Farm.vec + 16 <= loc)
      (patched_slots Farm.schema (Farm.vec + 16) 8 Farm.buf) /\
    ResizeVector Farm.schema 5 (ScalarFill int32_t 99) Farm.vec Farm.buf
      = Ok flatbuf' /\
    Vector_size flatbuf' Farm.vec = Ok 5 /\
    Vector_elements int32_t flatbuf' Farm.vec = Ok [10; 20; 30; 99; 99].
Proof.
  assert (HF : Forall (fun loc => loc + sizeof uoffset_t <= Farm.vec + 4
                                  \/ Farm.vec + 16 <= loc)
                 (patched_slots Farm.schema (Farm.vec + 16) 8 Farm.buf)).
  { change (patched_slots Farm.schema (Farm.vec + 16) 8 Farm.buf)
      with [28; 48; 24].
    repeat constructor; vm_compute; intuition discriminate. }
  eexists. split; [reflexivity|]. split; [reflexivity|].
  split; [exact HF|]. split; [vm_compute; reflexivity|].
  apply C7_resize_vector_grow with (schema := Farm.schema) (flatbuf := Farm.buf).
  - reflexivity.
  - reflexivity.
  - exact HF.
  - vm_compute. reflexivity.
Defined.

Lemma C9_length_header_kept_witness :
  exists flatbuf',
    String_Length Pet.buf Pet.name_str = Ok 2 /\
    Pet.name_str + 4 < 2 ^ 32 /\
    Forall (fun loc => loc + sizeof uoffset_t <= Pet.name_str
                       \/ Pet.name_str + 4 <= loc)
      (patched_slots Pet.schema (Pet.name_str + 4)
         (cast int32_t (size (chars "abcdef")) - cast int32_t 2) Pet.buf) /\
    SetString Pet.schema (chars "abcdef") Pet.name_str Pet.buf
      = Ok flatbuf' /\
    String_Length flatbuf' Pet.name_str = Ok 2.
Proof.
  assert (HF : Forall (fun loc => loc + sizeof uoffset_t <= Pet.name_str
                                  \/ Pet.name_str + 4 <= loc)
      (patched_slots Pet.schema (Pet.name_str + 4)
         (cast int32_t (size (chars "abcdef")) - cast int32_t 2) Pet.buf)).
  { change (patched_slots Pet.schema (Pet.name_str + 4)
         (cast int32_t (size (chars "abcdef")) - cast int32_t 2) Pet.buf)
      with [28].
    repeat constructor. vm_compute. intuition discriminate. }
  eexists. split; [reflexivity|]. split; [reflexivity|].
  split; [exact HF|]. split; [vm_compute; reflexivity|].
  apply C9_length_header_kept
    with (schema := Pet.schema) (val := chars "abcdef") (flatbuf := Pet.buf).
  - reflexivity.
  - reflexivity.
  - exact HF.
  - vm_compute. reflexivity.
Defined.

(* ================================================================== *)
(** * Further properties of the accessors *)

(** ** Integer casts *)

Lemma pow_bits_split T :
  (0 < width T)%nat -> 2 ^ bits T = 2 * 2 ^ (bits T - 1).
Proof.
  intros H. unfold bits. rewrite <- Z.pow_succ_r by lia. f_equal. lia.
Qed.

Lemma cast_in_range T z : in_range T z = true -> cast T z = z.
Proof.
  unfold in_range, cast. destruct (is_signed T).
  - rewrite andb_true_iff, Z.leb_le, Z.ltb_lt. intros [H1 H2].
    destruct (Nat.eq_dec (width T) 0) as [E|E].
    + unfold bits in *. rewrite E in *. simpl in *. lia.
    + rewrite pow_bits_split by lia. rewrite Z.mod_small; lia.
  - rewrite andb_true_iff, Z.leb_le, Z.ltb_lt. intros [H1 H2].
    apply Z.mod_small. lia.
Qed.

Lemma cast_range T z : (0 < width T)%nat -> in_range T (cast T z) = true.
Proof.
  intros HT. unfold in_range, cast.
  assert (Hpos : 0 < 2 ^ (bits T - 1))
    by (apply Z.pow_pos_nonneg; unfold bits; lia).
  destruct (is_signed T); rewrite andb_true_iff, Z.leb_le, Z.ltb_lt.
  - pose proof (Z.mod_pos_bound (z + 2 ^ (bits T - 1)) (2 ^ bits T)) as Hm.
    rewrite pow_bits_split in * by assumption. lia.
  - apply Z.mod_pos_bound. rewrite pow_bits_split by assumption. lia.
Qed.

Lemma cast_idem T z : (0 < width T)%nat -> cast T (cast T z) = cast T z.
Proof. intros HT. apply cast_in_range, cast_range, HT. Qed.

(** ** The dispatch on the base type *)

Lemma int_type_size bt T : int_type_of bt = Some T -> sizeof T = GetTypeSize bt.
Proof. destruct bt; simpl; intros H; inversion H; reflexivity. Qed.

Lemma int_type_width bt T : int_type_of bt = Some T -> (0 < width T)%nat.
Proof. destruct bt; simpl; intros H; inversion H; simpl; lia. Qed.

Lemma GetAnyFieldI_int StringToInt b table field T :
  int_type_of (base_type_of field) = Some T ->
  GetAnyFieldI StringToInt b table field =
  (let? v := GetFieldI T b table field in Ok (cast int64_t v)).
Proof.
  unfold GetAnyFieldI.
  destruct (base_type_of field); simpl; intros H; inversion H; reflexivity.
Qed.

Lemma SetAnyFieldI_int b table field val T :
  int_type_of (base_type_of field) = Some T ->
  SetAnyFieldI b table field val =
  (let? r := SetField T b table field (cast T val) in Ok (snd r)).
Proof.
  unfold SetAnyFieldI.
  destruct (base_type_of field); simpl; intros H; inversion H; reflexivity.
Qed.

(** ** Absent fields *)

(** X1. An integer field that is absent from the record's vtable reads, by
    [GetAnyFieldI], as the default of the schema converted to the field's
    type: as the default itself when it fits that type. *)
Theorem X1_absent_integer_reads_default StringToInt b table field T :
  int_type_of (base_type_of field) = Some T ->
  GetOptionalFieldOffset b table (reflection.offset field) = Ok 0 ->
  GetAnyFieldI StringToInt b table field
    = Ok (cast int64_t (cast T (reflection.default_integer field))) /\
  (in_range T (reflection.default_integer field) = true ->
   in_range int64_t (reflection.default_integer field) = true ->
   GetAnyFieldI StringToInt b table field
     = Ok (reflection.default_integer field)).
Proof.
  intros HT Hoff.
  assert (E : GetAnyFieldI StringToInt b table field
              = Ok (cast int64_t (cast T (reflection.default_integer field)))).
  { rewrite (GetAnyFieldI_int _ _ _ _ HT). unfold GetFieldI, Table_GetField.
    rewrite (int_type_size _ HT), Z.eqb_refl, Hoff. reflexivity. }
  split; [exact E|]. intros H1 H2. rewrite E.
  now rewrite (cast_in_range _ _ H1), (cast_in_range _ _ H2).
Qed.

Lemma X1_absent_integer_reads_default_witness :
  int_type_of (base_type_of Pt_count) = Some int16_t /\
  GetOptionalFieldOffset Pt.buf Pt.root (reflection.offset Pt_count) = Ok 0 /\
  GetAnyFieldI (fun _ => 1) Pt.buf Pt.root Pt_count = Ok (-5).
Proof.
  split; [reflexivity|]. split; [reflexivity|].
  apply (X1_absent_integer_reads_default (fun _ => 1) Pt.buf Pt.root Pt_count
           (T := int16_t)); reflexivity.
Defined.

Lemma Table_SetField_absent V (write : buffer -> Z -> V -> result buffer)
  b table field val :
  GetOptionalFieldOffset b table field = Ok 0 ->
  Table_SetField write b table field val = Ok (false, b).
Proof. intros H. unfold Table_SetField. rewrite H. reflexivity. Qed.

Lemma SetAnyFieldI_absent b table field val :
  GetOptionalFieldOffset b table (reflection.offset field) = Ok 0 ->
  SetAnyFieldI b table field val = Ok b.
Proof.
  intros Hoff. unfold SetAnyFieldI, SetField, SetFieldF.
  destruct (base_type_of field) eqn:E; try reflexivity;
    rewrite ?E; simpl; rewrite Table_SetField_absent by exact Hoff;
    reflexivity.
Qed.

(** X3. Setting a field that is absent from the record's vtable does
    nothing: [SetAnyFieldI] and [SetAnyFieldS] return with the buffer as it
    was, whatever the base type of the field and the value. *)
Theorem X3_set_absent_field_is_noop StringToInt strtod b table field i s :
  GetOptionalFieldOffset b table (reflection.offset field) = Ok 0 ->
  SetAnyFieldI b table field i = Ok b /\
  SetAnyFieldS StringToInt strtod b table field s = Ok b.
Proof.
  intros Hoff. split; [now apply SetAnyFieldI_absent|].
  unfold SetAnyFieldS, SetAnyFieldF, SetFieldF.
  destruct (base_type_of field) eqn:E;
    try (now apply SetAnyFieldI_absent);
    rewrite ?E; simpl; rewrite Table_SetField_absent by exact Hoff; simpl;
    now apply SetAnyFieldI_absent.
Qed.

Lemma X3_set_absent_field_is_noop_witness :
  GetOptionalFieldOffset Pt.buf Pt.root (reflection.offset Pt_count) = Ok 0 /\
  SetAnyFieldI Pt.buf Pt.root Pt_count 7 = Ok Pt.buf /\
  SetAnyFieldS (fun _ => 7) (fun _ => Pt.three) Pt.buf Pt.root Pt_count
    (chars "7") = Ok Pt.buf.
Proof.
  split; [reflexivity|].
  apply X3_set_absent_field_is_noop. reflexivity.
Defined.

(** ** Writing a field and reading it back *)

Lemma GetVTable_ext b b' table :
  size b' = size b ->
  (forall p, table <= p < table + sizeof soffset_t ->
             byte_at b' p = byte_at b p) ->
  GetVTable b' table = GetVTable b table.
Proof.
  intros Hs Hb. unfold GetVTable. now rewrite (@ReadScalar_ext soffset_t b b').
Qed.

Lemma GetOptionalFieldOffset_ext b b' table field vtable :
  size b' = size b ->
  0 <= field ->
  GetVTable b table = Ok vtable ->
  (forall p, table <= p < table + sizeof soffset_t ->
             byte_at b' p = byte_at b p) ->
  (forall p, vtable <= p < vtable + field + sizeof voffset_t ->
             byte_at b' p = byte_at b p) ->
  GetOptionalFieldOffset b' table field = GetOptionalFieldOffset b table field.
Proof.
  intros Hs Hf Hv Ht Hvt. unfold GetOptionalFieldOffset.
  erewrite GetVTable_ext; [|exact Hs|exact Ht]. rewrite Hv. cbn [rbind].
  assert (E1 : ReadScalar voffset_t b' vtable = ReadScalar voffset_t b vtable).
  { apply ReadScalar_ext; [exact Hs|]. intros p Hp. apply Hvt. lia. }
  assert (E2 : ReadScalar voffset_t b' (vtable + field)
               = ReadScalar voffset_t b (vtable + field)).
  { apply ReadScalar_ext; [exact Hs|]. intros p Hp. apply Hvt. lia. }
  now rewrite E1, E2.
Qed.

Lemma field_stored_true b table field n :
  field_stored b table field n = true ->
  exists vtable off,
    GetVTable b table = Ok vtable /\
    GetOptionalFieldOffset b table field = Ok off /\
    0 <= field /\ sizeof soffset_t <= off /\
    0 <= table + off /\ table + off + n <= size b /\
    (table + off + n <= vtable \/
     vtable + field + sizeof voffset_t <= table + off).
Proof.
  unfold field_stored.
  destruct (GetVTable b table) as [vtable| |]; try discriminate.
  destruct (GetOptionalFieldOffset b table field) as [off| |];
    try discriminate.
  rewrite !andb_true_iff, orb_true_iff, in_bounds_true, !Z.leb_le.
  intros (((H1 & H2) & H3 & H4) & H5). exists vtable, off. tauto.
Qed.

(** X2. Writing an integer field that the record stores, by [SetAnyFieldI],
    and reading it back by [GetAnyFieldI] gives the value converted to the
    field's type and back to [int64_t]: the value itself when it fits the
    field's type. *)
Theorem X2_set_then_get_integer StringToInt b table field T val :
  int_type_of (base_type_of field) = Some T ->
  field_stored b table (reflection.offset field) (sizeof T) = true ->
  exists b',
    SetAnyFieldI b table field val = Ok b' /\
    GetAnyFieldI StringToInt b' table field
      = Ok (cast int64_t (cast T val)) /\
    (in_range T val = true -> in_range int64_t val = true ->
     GetAnyFieldI StringToInt b' table field = Ok val).
Proof.
  intros HT Hst. apply field_stored_true in Hst.
  destruct Hst as (vtable & off & Hv & Hoff & Hf & Ho & Hlo & Hhi & Hapart).
  change (sizeof soffset_t) with 4 in *. change (sizeof voffset_t) with 2 in *.
  pose proof (int_type_width _ HT) as Hw.
  assert (Hn : 0 < sizeof T) by (unfold sizeof; lia).
  destruct (WriteScalar T b (table + off) (cast T val)) as [b'| |] eqn:Hwr.
  2,3: exfalso; unfold WriteScalar, store in Hwr;
       rewrite length_le_split in Hwr;
       replace (in_bounds b (table + off) (Z.of_nat (width T))) with true
         in Hwr by (symmetry; apply in_bounds_true; unfold sizeof in *; lia);
       discriminate.
  exists b'.
  assert (Hset : SetAnyFieldI b table field val = Ok b').
  { rewrite (SetAnyFieldI_int _ _ _ _ HT). unfold SetField, Table_SetField.
    rewrite (int_type_size _ HT), Z.eqb_refl, Hoff. cbn [assert rbind].
    replace (off =? 0) with false by (symmetry; apply Z.eqb_neq; lia).
    rewrite Hwr. reflexivity. }
  assert (Hget : GetAnyFieldI StringToInt b' table field
                 = Ok (cast int64_t (cast T val))).
  { rewrite (GetAnyFieldI_int _ _ _ _ HT). unfold GetFieldI, Table_GetField.
    rewrite (int_type_size _ HT), Z.eqb_refl. cbn [assert rbind].
    pose proof (WriteScalar_size _ _ _ _ Hwr) as Hs.
    assert (Hfr : forall p, p < table + off \/ table + off + sizeof T <= p ->
                            byte_at b' p = byte_at b p)
      by (intros p Hp; eapply WriteScalar_frame; [exact Hwr|exact Hp]).
    erewrite GetOptionalFieldOffset_ext; [|exact Hs|exact Hf|exact Hv| |].
    - rewrite Hoff. cbn [rbind].
      replace (off =? 0) with false by (symmetry; apply Z.eqb_neq; lia).
      rewrite (ReadScalar_WriteScalar _ _ _ _ Hwr).
      now rewrite cast_idem.
    - intros p Hp. apply Hfr. change (sizeof soffset_t) with 4 in Hp. lia.
    - intros p Hp. apply Hfr. change (sizeof voffset_t) with 2 in Hp. lia. }
  split; [exact Hset|]. split; [exact Hget|].
  intros H1 H2. rewrite Hget.
  now rewrite (cast_in_range _ _ H1), (cast_in_range _ _ H2).
Qed.

Lemma X2_set_then_get_integer_witness :
  int_type_of (base_type_of Pet.hp) = Some int32_t /\
  field_stored Pet.buf Pet.root (reflection.offset Pet.hp) (sizeof int32_t)
    = true /\
  exists b',
    SetAnyFieldI Pet.buf Pet.root Pet.hp (-3) = Ok b' /\
    GetAnyFieldI (fun _ => 1) b' Pet.root Pet.hp
      = Ok (cast int64_t (cast int32_t (-3))) /\
    (in_range int32_t (-3) = true -> in_range int64_t (-3) = true ->
     GetAnyFieldI (fun _ => 1) b' Pet.root Pet.hp = Ok (-3)).
Proof.
  split; [reflexivity|]. split; [reflexivity|].
  apply (X2_set_then_get_integer (fun _ => 1) Pet.buf Pet.root Pet.hp
           (T := int32_t)); reflexivity.
Defined.

(** ** What the setters leave alone *)


Lemma WriteScalar_changes T b a v b' :
  WriteScalar T b a v = Ok b' ->
  size b' = size b /\
  forall p, p < a \/ a + sizeof T <= p -> byte_at b' p = byte_at b p.
Proof.
  intros H. split; [eapply WriteScalar_size; exact H|].
  intros p Hp. eapply WriteScalar_frame; [exact H|exact Hp].
Qed.

Lemma WriteFloat_changes F b a v b' :
  WriteFloat F b a v = Ok b' ->
  size b' = size b /\
  forall p, p < a \/ a + fsizeof F <= p -> byte_at b' p = byte_at b p.
Proof.
  unfold WriteFloat. intros H. split; [eapply store_size; exact H|].
  intros p Hp. eapply store_frame; [exact H|].
  rewrite length_le_split. exact Hp.
Qed.







(* ================================================================== *)
(** * Further properties of the resize engine *)

(** ** The splice, byte by byte *)

Lemma byte_at_app_l (l1 l2 : buffer) p :
  0 <= p < size l1 -> byte_at (l1 ++ l2) p = byte_at l1 p.
Proof.
  intros Hp. unfold byte_at, size in *.
  destruct (0 <=? p); [|reflexivity].
  apply nth_error_app1. lia.
Qed.

Lemma byte_at_app_r (l1 l2 : buffer) p :
  size l1 <= p -> byte_at (l1 ++ l2) p = byte_at l2 (p - size l1).
Proof.
  intros Hp. unfold byte_at, size in *.
  replace (0 <=? p) with true by (symmetry; apply Z.leb_le; lia).
  replace (0 <=? p - Z.of_nat (length l1)) with true
    by (symmetry; apply Z.leb_le; lia).
  rewrite nth_error_app2 by lia. f_equal. lia.
Qed.

Lemma byte_at_skipn (b : buffer) n p :
  0 <= p -> byte_at (skipn n b) p = byte_at b (p + Z.of_nat n).
Proof.
  intros Hp. unfold byte_at.
  replace (0 <=? p) with true by (symmetry; apply Z.leb_le; lia).
  replace (0 <=? p + Z.of_nat n) with true by (symmetry; apply Z.leb_le; lia).
  rewrite nth_error_skipn. f_equal. lia.
Qed.

Lemma byte_at_repeat c n p :
  0 <= p < Z.of_nat n -> byte_at (repeat c n) p = Some c.
Proof.
  intros Hp. unfold byte_at.
  replace (0 <=? p) with true by (symmetry; apply Z.leb_le; lia).
  apply nth_error_repeat. lia.
Qed.

Lemma size_firstn (b : buffer) a :
  0 <= a <= size b -> size (firstn (Z.to_nat a) b) = a.
Proof. unfold size. intros H. rewrite length_firstn. lia. Qed.

Lemma insert_zeros_bytes b start n b' :
  0 <= n -> insert_zeros b start n = Ok b' ->
  0 <= start <= size b /\
  (forall p, start <= p < start + n -> byte_at b' p = Some Byte.x00) /\
  (forall p, start <= p -> byte_at b' (p + n) = byte_at b p).
Proof.
  unfold insert_zeros. intros Hn.
  destruct (in_bounds b start 0) eqn:E; [|discriminate].
  apply in_bounds_true in E. intros H. injection H as <-.
  assert (Hs : 0 <= start <= size b) by lia.
  pose proof (size_firstn _ Hs) as Hf.
  split; [exact Hs|]. split.
  - intros p Hp. rewrite byte_at_app_r by lia. rewrite Hf.
    rewrite byte_at_app_l by (unfold size; rewrite repeat_length; lia).
    apply byte_at_repeat. lia.
  - intros p Hp. rewrite byte_at_app_r by lia. rewrite Hf.
    rewrite byte_at_app_r by (unfold size; rewrite repeat_length; lia).
    unfold size at 1. rewrite repeat_length.
    rewrite byte_at_skipn by lia. f_equal. lia.
Qed.

Lemma erase_bytes b first last b' :
  erase b first last = Ok b' ->
  0 <= first /\ first <= last <= size b /\
  forall p, first <= p -> byte_at b' p = byte_at b (p + (last - first)).
Proof.
  unfold erase.
  destruct ((first <=? last) && in_bounds b first (last - first)) eqn:E;
    [|discriminate].
  apply andb_true_iff in E. destruct E as [E1 E2].
  apply Z.leb_le in E1. apply in_bounds_true in E2.
  intros H. injection H as <-.
  assert (Hs : 0 <= first <= size b) by lia.
  pose proof (size_firstn _ Hs) as Hf.
  split; [lia|]. split; [lia|].
  intros p Hp. rewrite byte_at_app_r by lia. rewrite Hf.
  rewrite byte_at_skipn by lia. f_equal. lia.
Qed.

(** The buffer after the walk and after the splice. *)
Lemma ResizeContext_steps schema start delta flatbuf flatbuf' delta_ :
  round_delta delta = Ok delta_ -> delta_ <> 0 ->
  ResizeContext schema start delta flatbuf = Ok flatbuf' ->
  exists st,
    ResizeContext_walk schema start delta_ flatbuf = Ok st /\
    size (buf_ st) = size flatbuf /\
    (forall p, unpatched schema start delta flatbuf p ->
               byte_at (buf_ st) p = byte_at flatbuf p) /\
    (if delta_ >? 0 then insert_zeros (buf_ st) start delta_
     else erase (buf_ st) start (start - delta_)) = Ok flatbuf'.
Proof.
  intros Hd Hnz H. unfold ResizeContext in H. rewrite Hd in H.
  cbn [rbind] in H.
  replace (delta_ =? 0) with false in H by (symmetry; apply Z.eqb_neq; lia).
  apply rbind_Ok in H. destruct H as (st & Hw & H).
  exists st. split; [exact Hw|].
  pose proof (ResizeContext_walk_walked _ _ _ _ Hw) as (Hsteps & _).
  split; [exact (steps_size Hsteps)|]. split; [|exact H].
  intros p Hp. apply (steps_frame Hsteps). intros loc Hloc.
  unfold unpatched, patched_slots in Hp. rewrite Hd in Hp.
  replace (delta_ =? 0) with false in Hp by (symmetry; apply Z.eqb_neq; lia).
  rewrite Hw in Hp. rewrite Forall_forall in Hp. auto.
Qed.

(** What a growing and what a shrinking [ResizeContext] do to the bytes,
    for the callers [SetString] and [ResizeVector]. *)
Lemma ResizeContext_grows
  schema start delta flatbuf flatbuf' delta_ :
  round_delta delta = Ok delta_ -> 0 < delta_ ->
  ResizeContext schema start delta flatbuf = Ok flatbuf' ->
  0 <= start <= size flatbuf /\
  size flatbuf' = size flatbuf + delta_ /\
  (forall p, start <= p < start + delta_ ->
             byte_at flatbuf' p = Some Byte.x00) /\
  (forall p, unpatched schema start delta flatbuf p ->
     (p < start -> byte_at flatbuf' p = byte_at flatbuf p) /\
     (start <= p -> byte_at flatbuf' (p + delta_) = byte_at flatbuf p)).
Proof.
  intros Hd Hpos H.
  assert (Hnz : delta_ <> 0) by lia.
  destruct (ResizeContext_steps _ _ _ _ Hd Hnz H)
    as (st & _ & Hsize & Hframe & Hsplice).
  replace (delta_ >? 0) with true in Hsplice
    by (symmetry; apply Z.gtb_lt; lia).
  pose proof Hsplice as Hsplice'.
  apply insert_zeros_Ok in Hsplice; [|lia]. destruct Hsplice as [Hs Hlow].
  apply insert_zeros_bytes in Hsplice'; [|lia].
  destruct Hsplice' as (Hst & Hz & Hup).
  split; [lia|]. split; [lia|]. split; [exact Hz|].
  intros p Hp. split; intros Hps.
  - rewrite Hlow by exact Hps. now apply Hframe.
  - rewrite Hup by exact Hps. now apply Hframe.
Qed.

Lemma ResizeContext_shrinks
  schema start delta flatbuf flatbuf' delta_ :
  round_delta delta = Ok delta_ -> delta_ < 0 ->
  ResizeContext schema start delta flatbuf = Ok flatbuf' ->
  0 <= start /\ start - delta_ <= size flatbuf /\
  size flatbuf' = size flatbuf + delta_ /\
  (forall p, unpatched schema start delta flatbuf p ->
     (p < start -> byte_at flatbuf' p = byte_at flatbuf p) /\
     (start - delta_ <= p ->
      byte_at flatbuf' (p + delta_) = byte_at flatbuf p)).
Proof.
  intros Hd Hneg H.
  assert (Hnz : delta_ <> 0) by lia.
  destruct (ResizeContext_steps _ _ _ _ Hd Hnz H)
    as (st & _ & Hsize & Hframe & Hsplice).
  replace (delta_ >? 0) with false in Hsplice
    by (symmetry; rewrite Z.gtb_ltb; apply Z.ltb_ge; lia).
  pose proof Hsplice as Hsplice'.
  apply erase_Ok in Hsplice. destruct Hsplice as [Hs Hlow].
  apply erase_bytes in Hsplice'. destruct Hsplice' as (Hst & Hend & Hup).
  split; [lia|]. split; [lia|]. split; [lia|].
  intros p Hp. split; intros Hps.
  - rewrite Hlow by exact Hps. now apply Hframe.
  - rewrite Hup by lia.
    replace (p + delta_ + (start - delta_ - start)) with p by lia.
    now apply Hframe.
Qed.

(** X5. When the rounded delta is positive, [ResizeContext] inserts that
    many zero bytes at [start]: the bytes below [start] stay where they are,
    the bytes from [start] on move up by the rounded delta, and each of them
    keeps its value unless it lies in a slot patched by the walk. *)
Theorem X5_grow_inserts_zeros_at_start
  schema start delta flatbuf flatbuf' delta_ :
  round_delta delta = Ok delta_ -> 0 < delta_ ->
  ResizeContext schema start delta flatbuf = Ok flatbuf' ->
  0 <= start <= size flatbuf /\
  size flatbuf' = size flatbuf + delta_ /\
  (forall p, start <= p < start + delta_ ->
             byte_at flatbuf' p = Some Byte.x00) /\
  (forall p, unpatched schema start delta flatbuf p ->
     (p < start -> byte_at flatbuf' p = byte_at flatbuf p) /\
     (start <= p -> byte_at flatbuf' (p + delta_) = byte_at flatbuf p)).
Proof.
  intros Hd Hpos H.
  assert (Hnz : delta_ <> 0) by lia.
  destruct (ResizeContext_steps _ _ _ _ Hd Hnz H)
    as (st & _ & Hsize & Hframe & Hsplice).
  replace (delta_ >? 0) with true in Hsplice
    by (symmetry; apply Z.gtb_lt; lia).
  pose proof Hsplice as Hsplice'.
  apply insert_zeros_Ok in Hsplice; [|lia]. destruct Hsplice as [Hs Hlow].
  apply insert_zeros_bytes in Hsplice'; [|lia].
  destruct Hsplice' as (Hst & Hz & Hup).
  split; [lia|]. split; [lia|]. split; [exact Hz|].
  intros p Hp. split; intros Hps.
  - rewrite Hlow by exact Hps. now apply Hframe.
  - rewrite Hup by exact Hps. now apply Hframe.
Qed.

Lemma X5_grow_inserts_zeros_at_start_witness :
  round_delta 4 = Ok 8 /\ 0 < 8 /\
  ResizeContext Pet.schema 36 4 Pet.buf = Ok Pet_grown /\
  size Pet_grown = size Pet.buf + 8 /\
  (forall p, 36 <= p < 36 + 8 -> byte_at Pet_grown p = Some Byte.x00).
Proof.
  split; [reflexivity|]. split; [reflexivity|].
  split; [vm_compute; reflexivity|].
  assert (H : ResizeContext Pet.schema 36 4 Pet.buf = Ok Pet_grown)
    by (vm_compute; reflexivity).
  pose proof (X5_grow_inserts_zeros_at_start Pet.schema 36 4 Pet.buf
                (delta_ := 8) eq_refl eq_refl H) as (_ & Hs & Hz & _).
  split; [exact Hs|exact Hz].
Defined.

(** X6. When the rounded delta is negative, [ResizeContext] removes the
    bytes that follow [start], as many as the rounded delta says: the bytes
    below [start] stay where they are, the bytes behind the removed range
    move down to [start], and each of them keeps its value unless it lies
    in a slot patched by the walk. *)
Theorem X6_shrink_removes_bytes_after_start
  schema start delta flatbuf flatbuf' delta_ :
  round_delta delta = Ok delta_ -> delta_ < 0 ->
  ResizeContext schema start delta flatbuf = Ok flatbuf' ->
  0 <= start /\ start - delta_ <= size flatbuf /\
  size flatbuf' = size flatbuf + delta_ /\
  (forall p, unpatched schema start delta flatbuf p ->
     (p < start -> byte_at flatbuf' p = byte_at flatbuf p) /\
     (start - delta_ <= p ->
      byte_at flatbuf' (p + delta_) = byte_at flatbuf p)).
Proof.
  intros Hd Hneg H.
  assert (Hnz : delta_ <> 0) by lia.
  destruct (ResizeContext_steps _ _ _ _ Hd Hnz H)
    as (st & _ & Hsize & Hframe & Hsplice).
  replace (delta_ >? 0) with false in Hsplice
    by (symmetry; rewrite Z.gtb_ltb; apply Z.ltb_ge; lia).
  pose proof Hsplice as Hsplice'.
  apply erase_Ok in Hsplice. destruct Hsplice as [Hs Hlow].
  apply erase_bytes in Hsplice'. destruct Hsplice' as (Hst & Hend & Hup).
  split; [lia|]. split; [lia|]. split; [lia|].
  intros p Hp. split; intros Hps.
  - rewrite Hlow by exact Hps. now apply Hframe.
  - rewrite Hup by lia.
    replace (p + delta_ + (start - delta_ - start)) with p by lia.
    now apply Hframe.
Qed.

Lemma X6_shrink_removes_bytes_after_start_witness :
  round_delta (-10) = Ok (-8) /\ -8 < 0 /\
  ResizeContext Memo.schema 32 (-10) Memo.buf = Ok Memo_shrunk /\
  size Memo_shrunk = size Memo.buf + -8.
Proof.
  split; [reflexivity|]. split; [reflexivity|].
  split; [vm_compute; reflexivity|].
  assert (H : ResizeContext Memo.schema 32 (-10) Memo.buf = Ok Memo_shrunk)
    by (vm_compute; reflexivity).
  pose proof (X6_shrink_removes_bytes_after_start Memo.schema 32 (-10)
                Memo.buf (delta_ := -8) eq_refl eq_refl H) as (_ & _ & Hs & _).
  exact Hs.
Defined.

(* ================================================================== *)
(** * Further properties of [SetString] *)

Lemma store_inside b a bs b' i :
  store b a bs = Ok b' ->
  (i < length bs)%nat ->
  byte_at b' (a + Z.of_nat i) = nth_error bs i.
Proof.
  intros H Hi. apply store_Ok in H. destruct H as (Ha & Hb & ->).
  assert (Hs : 0 <= a <= size b) by lia.
  rewrite byte_at_app_r by (rewrite size_firstn; lia).
  rewrite size_firstn by exact Hs.
  rewrite byte_at_app_l by (unfold size; lia).
  unfold byte_at.
  replace (0 <=? a + Z.of_nat i - a) with true
    by (symmetry; apply Z.leb_le; lia).
  f_equal. lia.
Qed.

Lemma load_of_bytes b a (l : list byte) :
  0 <= a -> a + Z.of_nat (length l) <= size b ->
  (forall i, (i < length l)%nat ->
             byte_at b (a + Z.of_nat i) = nth_error l i) ->
  load b a (length l) = Ok l.
Proof.
  intros Ha Hb Hl. unfold load.
  replace (in_bounds b a (Z.of_nat (length l))) with true
    by (symmetry; apply in_bounds_true; lia).
  f_equal. apply nth_error_ext. intros i. rewrite nth_error_firstn.
  destruct (i <? length l)%nat eqn:Ei.
  - apply Nat.ltb_lt in Ei. rewrite nth_error_skipn, <- Hl by exact Ei.
    unfold byte_at.
    replace (0 <=? a + Z.of_nat i) with true
      by (symmetry; apply Z.leb_le; lia).
    f_equal. lia.
  - apply Nat.ltb_ge in Ei. symmetry. now apply nth_error_None.
Qed.

Lemma c_str_from_app val rest :
  Forall (fun c => c <> Byte.x00) val ->
  c_str_from (val ++ Byte.x00 :: rest) = Ok val.
Proof.
  induction 1 as [|c val Hc _ IH]; simpl; [reflexivity|].
  destruct (Byte.eqb c Byte.x00) eqn:E.
  - apply Byte.byte_dec_bl in E. contradiction.
  - rewrite IH. reflexivity.
Qed.

Lemma c_string_store b a val b' :
  Forall (fun c => c <> Byte.x00) val ->
  store b a (val ++ [Byte.x00]) = Ok b' ->
  c_string b' a = Ok val.
Proof.
  intros Hval H. pose proof H as Hsize. apply store_size in Hsize.
  apply store_Ok in H. destruct H as (Ha & Hb & ->).
  unfold c_string.
  replace (in_bounds _ a 0) with true
    by (symmetry; apply in_bounds_true; rewrite Hsize;
        rewrite length_app in Hb; simpl in Hb; lia).
  rewrite skipn_app, length_firstn.
  rewrite skipn_all2 by (rewrite length_firstn; lia).
  replace (Z.to_nat a - Nat.min (Z.to_nat a) (length b))%nat with 0%nat
    by (unfold size in *; lia).
  simpl. rewrite <- app_assoc. simpl. now apply c_str_from_app.
Qed.

(** The address at which [SetString] writes. *)
Lemma SetString_start b str len :
  String_Length b str = Ok len -> str + 4 < 2 ^ 32 ->
  cast uoffset_t (str - 0 + sizeof uoffset_t) = str + 4.
Proof.
  intros Hlen Hstr. apply ReadScalar_in_bounds in Hlen.
  rewrite cast_small; [unfold sizeof; simpl; lia|reflexivity|].
  unfold sizeof. change (2 ^ bits uoffset_t) with (2 ^ 32). simpl. lia.
Qed.

(** X7. After [SetString], the NUL-terminated view of the string
    ([c_str()]) is the new value, whether the buffer grew, shrank or kept
    its size (for a value without NUL bytes). *)
Theorem X7_SetString_c_str_reads_value schema val str flatbuf flatbuf' :
  Forall (fun c => c <> Byte.x00) val ->
  str + 4 < 2 ^ 32 ->
  SetString schema val str flatbuf = Ok flatbuf' ->
  String_c_str flatbuf' str = Ok val.
Proof.
  intros Hval Hstr H. unfold SetString in H.
  apply rbind_Ok in H. destruct H as (len & Hlen & H).
  apply rbind_Ok in H. destruct H as (delta & _ & H).
  erewrite SetString_start in H; [|exact Hlen|exact Hstr].
  apply rbind_Ok in H. destruct H as (flatbuf1 & _ & H).
  unfold String_c_str. change (sizeof uoffset_t) with 4.
  eapply c_string_store; [exact Hval|exact H].
Qed.

Lemma X7_SetString_c_str_reads_value_witness :
  Forall (fun c => c <> Byte.x00) (chars "hi") /\
  Memo.text_str + 4 < 2 ^ 32 /\
  SetString Memo.schema (chars "hi") Memo.text_str Memo.buf = Ok Memo_hi /\
  String_c_str Memo_hi Memo.text_str = Ok (chars "hi").
Proof.
  assert (Hv : Forall (fun c => c <> Byte.x00) (chars "hi"))
    by (repeat constructor; discriminate).
  assert (Hs : Memo.text_str + 4 < 2 ^ 32) by reflexivity.
  assert (H : SetString Memo.schema (chars "hi") Memo.text_str Memo.buf
              = Ok Memo_hi) by (vm_compute; reflexivity).
  split; [exact Hv|]. split; [exact Hs|]. split; [exact H|].
  exact (@X7_SetString_c_str_reads_value Memo.schema (chars "hi")
           Memo.text_str Memo.buf Memo_hi Hv Hs H).
Defined.

(** The steps of [SetString], by the sign of the difference in length. *)
Lemma SetString_steps schema val str flatbuf flatbuf' len :
  String_Length flatbuf str = Ok len -> str + 4 < 2 ^ 32 ->
  SetString schema val str flatbuf = Ok flatbuf' ->
  exists flatbuf1,
    store flatbuf1 (str + 4) (val ++ [Byte.x00]) = Ok flatbuf' /\
    (cast int32_t (size val) - cast int32_t len = 0 -> flatbuf1 = flatbuf) /\
    (0 < cast int32_t (size val) - cast int32_t len ->
     ResizeContext schema (str + 4)
       (cast int32_t (size val) - cast int32_t len) flatbuf = Ok flatbuf1) /\
    (cast int32_t (size val) - cast int32_t len < 0 ->
     exists fb len',
       ResizeContext schema (str + 4)
         (cast int32_t (size val) - cast int32_t len) flatbuf = Ok fb /\
       String_Length fb str = Ok len' /\
       store fb (str + 4) (repeat Byte.x00 (Z.to_nat len')) = Ok flatbuf1).
Proof.
  intros Hlen Hstr H. unfold SetString in H. rewrite Hlen in H.
  cbn [rbind] in H.
  apply rbind_Ok in H. destruct H as (delta & Hd & H).
  assert (delta = cast int32_t (size val) - cast int32_t len) as ->.
  { unfold int_op in Hd.
    destruct (in_range int32_t (cast int32_t (size val) - cast int32_t len));
      congruence. }
  clear Hd. erewrite SetString_start in H; [|exact Hlen|exact Hstr].
  apply rbind_Ok in H. destruct H as (flatbuf1 & H1 & H).
  exists flatbuf1. split; [exact H|]. clear H.
  set (delta := cast int32_t (size val) - cast int32_t len) in *.
  destruct (delta =? 0) eqn:E0; cbn [negb] in H1.
  - apply Z.eqb_eq in E0. injection H1 as <-.
    split; [reflexivity|]. split; intros; lia.
  - apply Z.eqb_neq in E0.
    apply rbind_Ok in H1. destruct H1 as (fb & Hfb & H1).
    split; [intros; lia|].
    destruct (delta <? 0) eqn:En.
    + apply Z.ltb_lt in En. split; [intros; lia|]. intros _.
      apply rbind_Ok in H1. destruct H1 as (len' & Hlen' & H1).
      exists fb, len'. auto.
    + apply Z.ltb_ge in En. injection H1 as <-.
      split; [intros _; exact Hfb|intros; lia].
Qed.

Lemma nth_error_app_repeat (val : list byte) c n i :
  (length val <= i < length val + n)%nat ->
  nth_error (val ++ repeat c n) i = Some c.
Proof.
  intros Hi. rewrite nth_error_app2 by lia. apply nth_error_repeat. lia.
Qed.

(** X8. [SetString] leaves the length the string reports as it was, so the
    [Length()] bytes of the string ([str()]) are afterwards the new value
    cut off at the old length when it is longer, and the new value followed
    by NUL bytes up to the old length when it is shorter (provided the
    length header is not itself a slot patched by the walk). *)
Theorem X8_SetString_str_cut_or_padded
  schema val str flatbuf flatbuf' len :
  String_Length flatbuf str = Ok len ->
  str + 4 < 2 ^ 32 ->
  size val < 2 ^ 31 -> len < 2 ^ 31 ->
  (forall p, str <= p < str + 4 ->
             unpatched schema (str + 4) (size val - len) flatbuf p) ->
  SetString schema val str flatbuf = Ok flatbuf' ->
  String_Length flatbuf' str = Ok len /\
  String_str flatbuf' str
    = Ok (firstn (Z.to_nat len) (val ++ repeat Byte.x00 (Z.to_nat len))).
Proof.
  intros Hlen Hstr Hval Hl Hunp H.
  pose proof Hlen as Hl0.
  apply ReadScalar_unsigned_nonneg in Hl0; [|reflexivity].
  pose proof (size_nonneg val) as Hv0.
  assert (Ec1 : cast int32_t (size val) = size val)
    by (apply cast_in_range; unfold in_range; simpl;
        apply andb_true_iff; split; [apply Z.leb_le|apply Z.ltb_lt]; lia).
  assert (Ec2 : cast int32_t len = len)
    by (apply cast_in_range; unfold in_range; simpl;
        apply andb_true_iff; split; [apply Z.leb_le|apply Z.ltb_lt]; lia).
  (* the header after the call *)
  assert (Hhdr : String_Length flatbuf' str = Ok len).
  { unfold String_Length in *.
    eapply ReadScalar_agree; [simpl; lia|exact Hlen|].
    intros p Hp. change (sizeof uoffset_t) with 4 in Hp.
    eapply SetString_frame; try eassumption; [lia|].
    rewrite Ec1, Ec2. apply Hunp. lia. }
  split; [exact Hhdr|].
  pose proof H as Hsteps.
  eapply SetString_steps in Hsteps; [|exact Hlen|exact Hstr].
  destruct Hsteps as (flatbuf1 & Hcpy & _ & _ & Hneg).
  rewrite Ec1, Ec2 in Hneg.
  pose proof Hcpy as Hsz. apply store_size in Hsz.
  pose proof Hcpy as Hcpy'. apply store_Ok in Hcpy'.
  destruct Hcpy' as (Hs0 & Hs1 & _).
  rewrite length_app in Hs1. simpl in Hs1.
  (* the bytes of the string after the call *)
  set (l := firstn (Z.to_nat len) (val ++ repeat Byte.x00 (Z.to_nat len))).
  assert (Hll : length l = Z.to_nat len).
  { unfold l. rewrite length_firstn, length_app, repeat_length. lia. }
  assert (Hvn : size val = Z.of_nat (length val)) by reflexivity.
  unfold String_str. rewrite Hhdr. cbn [rbind].
  change (sizeof uoffset_t) with 4. rewrite <- Hll.
  assert (Hshrink : size val < len ->
            str + 4 + len <= size flatbuf1 /\
            forall i, (length val < i < Z.to_nat len)%nat ->
                      byte_at flatbuf' (str + 4 + Z.of_nat i) = Some Byte.x00).
  { intros Hlt. destruct (Hneg ltac:(lia))
      as (fb & len' & Hfb & Hlen' & Hset).
    assert (len' = len) as ->.
    { unfold String_Length in *.
      assert (E : ReadScalar uoffset_t fb str = Ok len).
      { eapply ReadScalar_agree; [simpl; lia|exact Hlen|].
        intros p Hp. change (sizeof uoffset_t) with 4 in Hp.
        apply ResizeContext_Ok in Hfb.
        destruct Hfb as (d & _ & _ & _ & Hframe).
        apply Hframe; [lia|]. apply Hunp. lia. }
      congruence. }
    pose proof Hset as Hsz1. apply store_size in Hsz1.
    pose proof Hset as Hset'. apply store_Ok in Hset'.
    destruct Hset' as (_ & Hb1 & _).
    rewrite repeat_length in Hb1. split; [lia|].
    intros i Hi.
    erewrite store_frame; [|exact Hcpy|rewrite length_app; simpl; lia].
    erewrite store_inside; [|exact Hset|rewrite repeat_length; lia].
    apply nth_error_repeat. lia. }
  apply load_of_bytes; [lia| |].
  - rewrite Hll, Hsz.
    destruct (Z_lt_le_dec (size val) len) as [Hlt|Hge].
    + destruct (Hshrink Hlt) as [Hb _]. lia.
    + lia.
  - intros i Hi. rewrite Hll in Hi. unfold l.
    rewrite nth_error_firstn.
    replace (i <? Z.to_nat len)%nat with true
      by (symmetry; apply Nat.ltb_lt; lia).
    destruct (le_lt_dec i (length val)) as [Hle|Hgt].
    + erewrite store_inside; [|exact Hcpy|rewrite length_app; simpl; lia].
      destruct (Nat.eq_dec i (length val)) as [->|Hne].
      * rewrite nth_error_app2 by lia. rewrite Nat.sub_diag. simpl.
        rewrite nth_error_app_repeat by lia. reflexivity.
      * rewrite !nth_error_app1 by lia. reflexivity.
    + destruct (Hshrink ltac:(lia)) as [_ Hz].
      rewrite Hz by lia. symmetry. apply nth_error_app_repeat. lia.
Qed.

Lemma X8_SetString_str_cut_or_padded_witness :
  String_Length Memo.buf Memo.text_str = Ok 12 /\
  Memo.text_str + 4 < 2 ^ 32 /\
  size (chars "hi") < 2 ^ 31 /\ 12 < 2 ^ 31 /\
  (forall p, Memo.text_str <= p < Memo.text_str + 4 ->
     unpatched Memo.schema (Memo.text_str + 4) (size (chars "hi") - 12)
       Memo.buf p) /\
  SetString Memo.schema (chars "hi") Memo.text_str Memo.buf = Ok Memo_hi /\
  String_Length Memo_hi Memo.text_str = Ok 12 /\
  String_str Memo_hi Memo.text_str
    = Ok (firstn (Z.to_nat 12) (chars "hi" ++ repeat Byte.x00 (Z.to_nat 12))).
Proof.
  assert (H1 : String_Length Memo.buf Memo.text_str = Ok 12) by reflexivity.
  assert (H2 : Memo.text_str + 4 < 2 ^ 32) by reflexivity.
  assert (H3 : size (chars "hi") < 2 ^ 31) by reflexivity.
  assert (H4 : 12 < 2 ^ 31) by reflexivity.
  assert (H5 : forall p, Memo.text_str <= p < Memo.text_str + 4 ->
     unpatched Memo.schema (Memo.text_str + 4) (size (chars "hi") - 12)
       Memo.buf p).
  { intros p Hp. unfold unpatched.
    assert (E : patched_slots Memo.schema (Memo.text_str + 4)
                  (size (chars "hi") - 12) Memo.buf = [24])
      by (vm_compute; reflexivity).
    rewrite E. unfold Memo.text_str in Hp.
    constructor; [|constructor]. change (sizeof uoffset_t) with 4. lia. }
  assert (H6 : SetString Memo.schema (chars "hi") Memo.text_str Memo.buf
               = Ok Memo_hi) by (vm_compute; reflexivity).
  split; [exact H1|]. split; [exact H2|]. split; [exact H3|].
  split; [exact H4|]. split; [exact H5|]. split; [exact H6|].
  exact (@X8_SetString_str_cut_or_padded Memo.schema (chars "hi")
           Memo.text_str Memo.buf Memo_hi 12 H1 H2 H3 H4 H5 H6).
Defined.

(** X9. [SetString] with a value of the length the string has writes in
    place: the buffer keeps its size, only the bytes of the string and its
    terminator are written, and the string then reads as the new value. *)
Theorem X9_SetString_same_length_in_place
  schema val str flatbuf flatbuf' :
  String_Length flatbuf str = Ok (size val) ->
  str + 4 < 2 ^ 32 ->
  size val < 2 ^ 31 ->
  SetString schema val str flatbuf = Ok flatbuf' ->
  size flatbuf' = size flatbuf /\
  (forall p, p < str + 4 \/ str + 4 + size val + 1 <= p ->
             byte_at flatbuf' p = byte_at flatbuf p) /\
  String_str flatbuf' str = Ok val.
Proof.
  intros Hlen Hstr Hval H.
  pose proof (size_nonneg val) as Hv0.
  pose proof H as Hsteps.
  eapply SetString_steps in Hsteps; [|exact Hlen|exact Hstr].
  destruct Hsteps as (flatbuf1 & Hcpy & H0 & _).
  rewrite (H0 ltac:(lia)) in Hcpy. clear H0.
  pose proof Hcpy as Hsz. apply store_size in Hsz.
  pose proof Hcpy as Hcpy'. apply store_Ok in Hcpy'.
  destruct Hcpy' as (Hs0 & Hs1 & _).
  rewrite length_app in Hs1. simpl in Hs1.
  assert (Hvn : size val = Z.of_nat (length val)) by reflexivity.
  assert (Hfr : forall p, p < str + 4 \/ str + 4 + size val + 1 <= p ->
                          byte_at flatbuf' p = byte_at flatbuf p).
  { intros p Hp. eapply store_frame; [exact Hcpy|].
    rewrite length_app. simpl. lia. }
  split; [exact Hsz|]. split; [exact Hfr|].
  unfold String_str.
  assert (Hhdr : String_Length flatbuf' str = Ok (size val)).
  { unfold String_Length in *.
    eapply ReadScalar_agree; [simpl; lia|exact Hlen|].
    intros p Hp. change (sizeof uoffset_t) with 4 in Hp. apply Hfr. lia. }
  rewrite Hhdr. cbn [rbind]. change (sizeof uoffset_t) with 4.
  rewrite Hvn, Nat2Z.id.
  apply load_of_bytes; [lia|lia|].
  intros i Hi.
  erewrite store_inside; [|exact Hcpy|rewrite length_app; simpl; lia].
  now rewrite nth_error_app1 by lia.
Qed.

Lemma X9_SetString_same_length_in_place_witness :
  String_Length Pet.buf Pet.name_str = Ok (size (chars "cd")) /\
  Pet.name_str + 4 < 2 ^ 32 /\
  size (chars "cd") < 2 ^ 31 /\
  SetString Pet.schema (chars "cd") Pet.name_str Pet.buf = Ok Pet_cd /\
  size Pet_cd = size Pet.buf /\
  String_str Pet_cd Pet.name_str = Ok (chars "cd").
Proof.
  assert (H1 : String_Length Pet.buf Pet.name_str = Ok (size (chars "cd")))
    by reflexivity.
  assert (H2 : Pet.name_str + 4 < 2 ^ 32) by reflexivity.
  assert (H3 : size (chars "cd") < 2 ^ 31) by reflexivity.
  assert (H4 : SetString Pet.schema (chars "cd") Pet.name_str Pet.buf
               = Ok Pet_cd) by (vm_compute; reflexivity).
  split; [exact H1|]. split; [exact H2|]. split; [exact H3|].
  split; [exact H4|].
  pose proof (@X9_SetString_same_length_in_place Pet.schema (chars "cd")
                Pet.name_str Pet.buf Pet_cd H1 H2 H3 H4) as (Hs & _ & Hr).
  split; assumption.
Defined.

(* ================================================================== *)
(** * Further properties of [ResizeVector] *)

Lemma read_scalars_Ok T b : forall n a l,
  read_scalars T b a n = Ok l <->
  length l = n /\
  forall j, (j < n)%nat ->
    ReadScalar T b (a + Z.of_nat j * sizeof T) = Ok (nth j l 0).
Proof.
  induction n as [|n IH]; intros a l; simpl.
  - split.
    + intros H. injection H as <-. split; [reflexivity|]. intros j Hj. lia.
    + intros [Hl _]. destruct l; [reflexivity|discriminate].
  - split.
    + intros H. apply rbind_Ok in H. destruct H as (v & Hv & H).
      apply rbind_Ok in H. destruct H as (rest & Hrest & H).
      injection H as <-. apply IH in Hrest. destruct Hrest as [Hl Hr].
      split; [simpl; congruence|].
      intros [|j] Hj; cbn [nth].
      * simpl. rewrite Z.add_0_r. exact Hv.
      * rewrite <- (Hr j) by lia. f_equal. rewrite Nat2Z.inj_succ. ring.
    + intros [Hl Hr]. destruct l as [|v rest]; [discriminate|].
      simpl in Hl. injection Hl as Hl.
      pose proof (Hr 0%nat ltac:(lia)) as H0. simpl in H0.
      rewrite Z.add_0_r in H0. rewrite H0. cbn [rbind].
      assert (Hrest : read_scalars T b (a + sizeof T) n = Ok rest).
      { apply IH. split; [exact Hl|]. intros j Hj.
        replace (a + sizeof T + Z.of_nat j * sizeof T)
          with (a + Z.of_nat (S j) * sizeof T)
          by (rewrite Nat2Z.inj_succ; ring).
        rewrite (Hr (S j)) by lia. reflexivity. }
      rewrite Hrest. reflexivity.
Qed.

Lemma Vector_elements_Ok T b vec l :
  Vector_elements T b vec = Ok l ->
  Vector_size b vec = Ok (Z.of_nat (length l)) /\
  forall j, (j < length l)%nat ->
    ReadScalar T b (vec + 4 + Z.of_nat j * sizeof T) = Ok (nth j l 0).
Proof.
  unfold Vector_elements. intros H.
  apply rbind_Ok in H. destruct H as (n & Hn & H).
  apply read_scalars_Ok in H. destruct H as [Hl Hr].
  pose proof Hn as Hn0. unfold Vector_size in Hn0.
  apply ReadScalar_unsigned_nonneg in Hn0; [|reflexivity].
  split.
  - rewrite Hn. f_equal. lia.
  - intros j Hj. apply Hr. lia.
Qed.

Lemma Vector_elements_of T b vec l :
  Vector_size b vec = Ok (Z.of_nat (length l)) ->
  (forall j, (j < length l)%nat ->
     ReadScalar T b (vec + 4 + Z.of_nat j * sizeof T) = Ok (nth j l 0)) ->
  Vector_elements T b vec = Ok l.
Proof.
  intros Hn Hr. unfold Vector_elements. rewrite Hn. cbn [rbind].
  apply read_scalars_Ok. rewrite Nat2Z.id. split; [reflexivity|exact Hr].
Qed.

(** The loop that sets the new elements of a scalar vector. *)
Lemma fill_new_elements_scalar T val start :
  (0 < width T)%nat ->
  forall n i b b',
    0 <= i ->
    fill_new_elements (ScalarFill T val) start n i b = Ok b' ->
    size b' = size b /\
    (forall p, p < start + i * sizeof T \/
               start + (i + Z.of_nat n) * sizeof T <= p ->
               byte_at b' p = byte_at b p) /\
    (forall j, (j < n)%nat ->
       ReadScalar T b' (start + (i + Z.of_nat j) * sizeof T)
         = Ok (cast T val)).
Proof.
  intros HT.
  assert (Hsz : 0 < sizeof T) by (unfold sizeof; lia).
  induction n as [|n IH]; intros i b b' Hi H; simpl in H.
  - injection H as <-. split; [reflexivity|]. split; [reflexivity|].
    intros j Hj. lia.
  - apply rbind_Ok in H. destruct H as (b1 & Hb1 & H).
    apply IH in H; [|lia]. destruct H as (Hs & Hfr & Hrd).
    pose proof Hb1 as Hs1. apply WriteScalar_size in Hs1.
    split; [congruence|]. split.
    + intros p Hp. rewrite Hfr by nia.
      eapply WriteScalar_frame; [exact Hb1|]. nia.
    + intros [|j] Hj.
      * rewrite Z.add_0_r.
        eapply ReadScalar_agree;
          [exact HT|exact (ReadScalar_WriteScalar _ _ _ _ Hb1)|].
        intros p Hp. apply Hfr. nia.
      * rewrite <- (Hrd j) by lia. f_equal. rewrite Nat2Z.inj_succ. ring.
Qed.

(** The steps of [ResizeVector] on a scalar vector of [n] elements. *)
Lemma ResizeVector_steps schema T val newsize vec flatbuf flatbuf' n :
  (0 < width T <= 8)%nat ->
  Vector_size flatbuf vec = Ok n ->
  n < 2 ^ 31 -> 0 <= newsize < 2 ^ 31 -> newsize <> n ->
  vec + 4 + sizeof T * n < 2 ^ 32 ->
  ResizeVector schema newsize (ScalarFill T val) vec flatbuf = Ok flatbuf' ->
  exists fb fb1,
    ResizeContext schema (vec + 4 + sizeof T * n)
      ((newsize - n) * sizeof T) flatbuf = Ok fb /\
    WriteScalar uoffset_t fb vec newsize = Ok fb1 /\
    fill_new_elements (ScalarFill T val) (vec + 4 + sizeof T * n)
      (Z.to_nat (newsize - n)) 0 fb1 = Ok flatbuf'.
Proof.
  intros HT Hn Hn31 Hnew Hne Hvec H.
  pose proof Hn as Hn0. unfold Vector_size in Hn0.
  pose proof Hn0 as Hv0. apply ReadScalar_in_bounds in Hv0.
  apply ReadScalar_unsigned_nonneg in Hn0; [|reflexivity].
  assert (Hsz : 0 < sizeof T <= 8) by (unfold sizeof; lia).
  assert (Hin : forall z, - 2 ^ 31 <= z < 2 ^ 31 -> in_range int32_t z = true).
  { intros z Hz. unfold in_range. simpl.
    apply andb_true_iff. split; [apply Z.leb_le|apply Z.ltb_lt]; lia. }
  unfold ResizeVector in H. rewrite Hn in H. cbn [rbind fill_sizeof] in H.
  rewrite !cast_in_range in H by (apply Hin; lia).
  unfold int_op in H. rewrite Hin in H by lia. cbn [rbind] in H.
  destruct (in_range int32_t ((newsize - n) * sizeof T)) eqn:Er;
    [|discriminate].
  cbn [rbind] in H.
  replace ((newsize - n) * sizeof T =? 0) with false in H
    by (symmetry; apply Z.eqb_neq; nia).
  cbn [negb] in H.
  assert (Hstart : cast uoffset_t (vec - 0 + sizeof uoffset_t + sizeof T * n)
                   = vec + 4 + sizeof T * n).
  { change (sizeof uoffset_t) with 4.
    rewrite cast_small; [lia|reflexivity|].
    change (2 ^ bits uoffset_t) with (2 ^ 32). nia. }
  rewrite Hstart in H. replace (vec - 0) with vec in H by lia.
  apply rbind_Ok in H. destruct H as (fb & Hfb & H).
  apply rbind_Ok in H. destruct H as (fb1 & Hfb1 & H).
  exists fb, fb1. auto.
Qed.

(** X10. [ResizeVector] to a larger size, on a vector of scalars, sets the
    length to the new size, keeps every element and sets each new element
    to the fill value (provided no element is itself a slot patched by the
    walk). *)
Theorem X10_ResizeVector_grow_keeps_and_fills
  schema T val newsize vec flatbuf flatbuf' elems :
  (0 < width T <= 8)%nat ->
  Vector_elements T flatbuf vec = Ok elems ->
  Z.of_nat (length elems) < newsize < 2 ^ 31 ->
  vec + 4 + sizeof T * Z.of_nat (length elems) < 2 ^ 32 ->
  (forall p, vec + 4 <= p < vec + 4 + sizeof T * Z.of_nat (length elems) ->
     unpatched schema (vec + 4 + sizeof T * Z.of_nat (length elems))
       ((newsize - Z.of_nat (length elems)) * sizeof T) flatbuf p) ->
  ResizeVector schema newsize (ScalarFill T val) vec flatbuf = Ok flatbuf' ->
  Vector_size flatbuf' vec = Ok newsize /\
  Vector_elements T flatbuf' vec
    = Ok (elems ++ repeat (cast T val) (Z.to_nat newsize - length elems)).
Proof.
  intros HT Helems Hnew Hvec Hunp H.
  apply Vector_elements_Ok in Helems. destruct Helems as [Hn Hr].
  set (n := Z.of_nat (length elems)) in *.
  assert (Hsz : 0 < sizeof T <= 8) by (unfold sizeof; lia).
  pose proof Hn as Hv0. apply ReadScalar_in_bounds in Hv0.
  eapply ResizeVector_steps in H; [|exact HT|exact Hn|lia|lia|lia|exact Hvec].
  destruct H as (fb & fb1 & Hfb & Hfb1 & Hfill).
  set (start := vec + 4 + sizeof T * n) in *.
  apply fill_new_elements_scalar in Hfill; [|lia|lia].
  destruct Hfill as (_ & Hfr2 & Hrd).
  apply ResizeContext_Ok in Hfb. destruct Hfb as (d & _ & _ & _ & Hfr0).
  assert (Hhdr : Vector_size flatbuf' vec = Ok newsize).
  { unfold Vector_size.
    assert (Ec : cast uoffset_t newsize = newsize)
      by (apply cast_small;
          [reflexivity|change (2 ^ bits uoffset_t) with (2 ^ 32); lia]).
    replace (Ok newsize) with (Ok (cast uoffset_t newsize))
      by (f_equal; exact Ec).
    eapply ReadScalar_agree;
      [simpl; lia|exact (ReadScalar_WriteScalar _ _ _ _ Hfb1)|].
    change (sizeof uoffset_t) with 4. intros p Hp. apply Hfr2. nia. }
  split; [exact Hhdr|].
  assert (Hlen : length (elems ++ repeat (cast T val)
                           (Z.to_nat newsize - length elems))
                 = Z.to_nat newsize)
    by (rewrite length_app, repeat_length; lia).
  apply Vector_elements_of.
  - rewrite Hlen, Hhdr. f_equal. lia.
  - rewrite Hlen. intros j Hj.
    destruct (lt_dec j (length elems)) as [Hlt|Hge].
    + rewrite app_nth1 by exact Hlt.
      eapply ReadScalar_agree; [lia|exact (Hr j Hlt)|].
      intros p Hp.
      assert (Hp' : vec + 4 <= p < start) by (unfold start; nia).
      rewrite Hfr2 by lia.
      erewrite WriteScalar_frame;
        [|exact Hfb1|change (sizeof uoffset_t) with 4; lia].
      apply Hfr0; [lia|]. apply Hunp. exact Hp'.
    + rewrite app_nth2 by lia. rewrite nth_repeat_lt by lia.
      rewrite <- (Hrd (j - length elems)%nat) by lia. f_equal.
      unfold start, n. rewrite Nat2Z.inj_sub by lia. ring.
Qed.

(** X11. [ResizeVector] to a smaller size, on a vector of scalars, sets the
    length to the new size and keeps the elements before it (provided none
    of them is itself a slot patched by the walk). *)
Theorem X11_ResizeVector_shrink_keeps_prefix
  schema T val newsize vec flatbuf flatbuf' elems :
  (0 < width T <= 8)%nat ->
  Vector_elements T flatbuf vec = Ok elems ->
  0 <= newsize < Z.of_nat (length elems) ->
  Z.of_nat (length elems) < 2 ^ 31 ->
  vec + 4 + sizeof T * Z.of_nat (length elems) < 2 ^ 32 ->
  (forall p, vec + 4 <= p < vec + 4 + sizeof T * newsize ->
     unpatched schema (vec + 4 + sizeof T * Z.of_nat (length elems))
       ((newsize - Z.of_nat (length elems)) * sizeof T) flatbuf p) ->
  ResizeVector schema newsize (ScalarFill T val) vec flatbuf = Ok flatbuf' ->
  Vector_size flatbuf' vec = Ok newsize /\
  Vector_elements T flatbuf' vec = Ok (firstn (Z.to_nat newsize) elems).
Proof.
  intros HT Helems Hnew Hn31 Hvec Hunp H.
  apply Vector_elements_Ok in Helems. destruct Helems as [Hn Hr].
  set (n := Z.of_nat (length elems)) in *.
  assert (Hsz : 0 < sizeof T <= 8) by (unfold sizeof; lia).
  pose proof Hn as Hv0. apply ReadScalar_in_bounds in Hv0.
  eapply ResizeVector_steps in H; [|exact HT|exact Hn|lia|lia|lia|exact Hvec].
  destruct H as (fb & fb1 & Hfb & Hfb1 & Hfill).
  set (start := vec + 4 + sizeof T * n) in *.
  replace (Z.to_nat (newsize - n)) with 0%nat in Hfill by lia.
  simpl in Hfill. injection Hfill as <-.
  apply ResizeContext_Ok in Hfb. destruct Hfb as (d & _ & _ & _ & Hfr0).
  assert (Hhdr : Vector_size fb1 vec = Ok newsize).
  { unfold Vector_size.
    assert (Ec : cast uoffset_t newsize = newsize)
      by (apply cast_small;
          [reflexivity|change (2 ^ bits uoffset_t) with (2 ^ 32); lia]).
    replace (Ok newsize) with (Ok (cast uoffset_t newsize))
      by (f_equal; exact Ec).
    exact (ReadScalar_WriteScalar _ _ _ _ Hfb1). }
  split; [exact Hhdr|].
  assert (Hlen : length (firstn (Z.to_nat newsize) elems) = Z.to_nat newsize)
    by (rewrite length_firstn; lia).
  apply Vector_elements_of.
  - rewrite Hlen, Hhdr. f_equal. lia.
  - rewrite Hlen. intros j Hj.
    assert (Hlt : (j < length elems)%nat) by lia.
    replace (nth j (firstn (Z.to_nat newsize) elems) 0) with (nth j elems 0).
    + eapply ReadScalar_agree; [lia|exact (Hr j Hlt)|].
      intros p Hp.
      assert (Hp' : vec + 4 <= p < vec + 4 + sizeof T * newsize) by nia.
      erewrite WriteScalar_frame;
        [|exact Hfb1|change (sizeof uoffset_t) with 4; lia].
      apply Hfr0; [unfold start; nia|]. apply Hunp. exact Hp'.
    + rewrite <- (firstn_skipn (Z.to_nat newsize) elems) at 1.
      rewrite app_nth1 by lia. reflexivity.
Qed.

Lemma Farm_slots_apart delta p :
  (delta = 4 \/ delta = -8) ->
  Farm.vec + 4 <= p < Farm.vec + 4 + 4 * 3 ->
  unpatched Farm.schema (Farm.vec + 4 + 4 * 3) delta Farm.buf p.
Proof.
  intros Hd Hp. unfold unpatched, Farm.vec in *.
  assert (E : patched_slots Farm.schema (32 + 4 + 4 * 3) delta Farm.buf
              = [28; 48; 24])
    by (destruct Hd as [->| ->]; vm_compute; reflexivity).
  rewrite E. change (sizeof uoffset_t) with 4.
  repeat constructor; lia.
Qed.

Lemma X10_ResizeVector_grow_keeps_and_fills_witness :
  (0 < width int32_t <= 8)%nat /\
  Vector_elements int32_t Farm.buf Farm.vec = Ok [10; 20; 30] /\
  Z.of_nat (length [10; 20; 30]) < 4 < 2 ^ 31 /\
  Farm.vec + 4 + sizeof int32_t * Z.of_nat (length [10; 20; 30]) < 2 ^ 32 /\
  ResizeVector Farm.schema 4 (ScalarFill int32_t 7) Farm.vec Farm.buf
    = Ok Farm_grown /\
  Vector_size Farm_grown Farm.vec = Ok 4 /\
  Vector_elements int32_t Farm_grown Farm.vec
    = Ok ([10; 20; 30]
            ++ repeat (cast int32_t 7) (Z.to_nat 4 - length [10; 20; 30])).
Proof.
  assert (H1 : (0 < width int32_t <= 8)%nat) by (simpl; lia).
  assert (H2 : Vector_elements int32_t Farm.buf Farm.vec = Ok [10; 20; 30])
    by reflexivity.
  assert (H3 : Z.of_nat (length [10; 20; 30]) < 4 < 2 ^ 31)
    by (split; reflexivity).
  assert (H4 : Farm.vec + 4
               + sizeof int32_t * Z.of_nat (length [10; 20; 30]) < 2 ^ 32)
    by reflexivity.
  assert (H5 : ResizeVector Farm.schema 4 (ScalarFill int32_t 7) Farm.vec
                 Farm.buf = Ok Farm_grown) by (vm_compute; reflexivity).
  split; [exact H1|]. split; [exact H2|]. split; [exact H3|].
  split; [exact H4|]. split; [exact H5|].
  apply (@X10_ResizeVector_grow_keeps_and_fills Farm.schema int32_t 7 4
           Farm.vec Farm.buf Farm_grown [10; 20; 30] H1 H2 H3 H4);
    [|exact H5].
  intros p Hp. apply Farm_slots_apart; [left; reflexivity|exact Hp].
Defined.

Lemma X11_ResizeVector_shrink_keeps_prefix_witness :
  (0 < width int32_t <= 8)%nat /\
  Vector_elements int32_t Farm.buf Farm.vec = Ok [10; 20; 30] /\
  0 <= 1 < Z.of_nat (length [10; 20; 30]) /\
  Z.of_nat (length [10; 20; 30]) < 2 ^ 31 /\
  Farm.vec + 4 + sizeof int32_t * Z.of_nat (length [10; 20; 30]) < 2 ^ 32 /\
  ResizeVector Farm.schema 1 (ScalarFill int32_t 7) Farm.vec Farm.buf
    = Ok Farm_shrunk /\
  Vector_size Farm_shrunk Farm.vec = Ok 1 /\
  Vector_elements int32_t Farm_shrunk Farm.vec
    = Ok (firstn (Z.to_nat 1) [10; 20; 30]).
Proof.
  assert (H1 : (0 < width int32_t <= 8)%nat) by (simpl; lia).
  assert (H2 : Vector_elements int32_t Farm.buf Farm.vec = Ok [10; 20; 30])
    by reflexivity.
  assert (H3 : 0 <= 1 < Z.of_nat (length [10; 20; 30])) by (simpl; lia).
  assert (H4 : Z.of_nat (length [10; 20; 30]) < 2 ^ 31) by reflexivity.
  assert (H5 : Farm.vec + 4
               + sizeof int32_t * Z.of_nat (length [10; 20; 30]) < 2 ^ 32)
    by reflexivity.
  assert (H6 : ResizeVector Farm.schema 1 (ScalarFill int32_t 7) Farm.vec
                 Farm.buf = Ok Farm_shrunk) by (vm_compute; reflexivity).
  split; [exact H1|]. split; [exact H2|]. split; [exact H3|].
  split; [exact H4|]. split; [exact H5|]. split; [exact H6|].
  apply (@X11_ResizeVector_shrink_keeps_prefix Farm.schema int32_t 7 1
           Farm.vec Farm.buf Farm_shrunk [10; 20; 30] H1 H2 H3 H4 H5);
    [|exact H6].
  intros p Hp. apply Farm_slots_apart; [right; reflexivity|].
  change (sizeof int32_t) with 4 in Hp. lia.
Defined.

(* ================================================================== *)
(** * Further properties of the walk *)

(** The soffset of a record after [Straddle] patched it. *)
Lemma Straddle_soffset_patched start delta_ D first second loc st st' old :
  Straddle start delta_ soffset_t D first second loc st = Ok (tt, st') ->
  first <= start <= second ->
  ReadScalar soffset_t (buf_ st) loc = Ok old ->
  ReadScalar soffset_t (buf_ st') loc = Ok (old + delta_ * D).
Proof.
  unfold Straddle. intros H Hin Hold.
  replace ((first <=? start) && (second >=? start)) with true in H
    by (symmetry; apply andb_true_iff; split;
        [apply Z.leb_le|apply Z.geb_le]; lia).
  rewrite Hold in H. cbn [rbind] in H.
  apply rbind_Ok in H. destruct H as (d & Hd & H).
  assert (d = delta_ * D) as ->
    by (unfold int_op in Hd; destruct (in_range int32_t (delta_ * D));
        congruence).
  cbn [is_signed soffset_t int32_t] in H.
  apply rbind_Ok in H. destruct H as (new & Hnew & H).
  unfold int_op in Hnew.
  destruct (in_range int32_t (old + delta_ * D)) eqn:Er; [|discriminate].
  injection Hnew as <-.
  apply rbind_Ok in H. destruct H as (b & Hb & H).
  apply rbind_Ok in H. destruct H as (dag & _ & H). injection H as <-.
  simpl. rewrite (ReadScalar_WriteScalar _ _ _ _ Hb).
  f_equal. apply cast_in_range. exact Er.
Qed.

(** The soffset of a record, from the 32 bits of its slot. *)
Lemma soffset_of_raw b loc raw so :
  ReadScalar uoffset_t b loc = Ok raw ->
  ReadScalar soffset_t b loc = Ok so ->
  so = cast soffset_t raw.
Proof.
  unfold ReadScalar. change (width soffset_t) with (width uoffset_t).
  intros H1 H2. destruct (load b loc (width uoffset_t)) as [bs| |];
    try discriminate.
  simpl in H1, H2. injection H1 as <-. injection H2 as <-.
  unfold cast. cbn [is_signed soffset_t uoffset_t int32_t uint32_t].
  change (bits int32_t) with 32. change (bits uint32_t) with 32.
  rewrite Zplus_mod_idemp_l. reflexivity.
Qed.

Lemma straddling_true start first second :
  straddling start first second = true <-> first <= start <= second.
Proof. unfold straddling. rewrite andb_true_iff, !Z.leb_le. tauto. Qed.

Lemma straddling_false start first second :
  straddling start first second = false <-> ~ first <= start <= second.
Proof.
  rewrite <- straddling_true. destruct (straddling start first second);
    split; intros H; congruence.
Qed.

(** ** The events a walk adds

    [Q] is a set of addresses closed upwards and [G] a property of lists of
    events that holds of the empty list, of a consultation of a visit bit
    and of a read followed by the patches due after it, at an address of
    [Q], and of two lists in a row.  A walk that starts at a record in [Q]
    adds events that satisfy [G]. *)

Section Segments.

Variable schema_ : reflection.Schema.
Variable startptr_ delta_ : Z.

Variable Q : Z -> Prop.
Variable G : list event -> Prop.

Hypothesis Q_up : forall a d, Q a -> 0 <= d -> Q (a + d).
Hypothesis G_nil : G [].
Hypothesis G_app : forall later earlier,
  G earlier -> G later -> G (later ++ earlier).
Hypothesis G_check : forall loc v, Q loc -> G [EvCheck loc v].
Hypothesis G_read : forall k loc raw,
  Q loc ->
  G (rev (patches_due startptr_ delta_ k loc raw) ++ [EvRead k loc raw]).

Lemma adds_ret A (a : A) st : adds G (ret a) st.
Proof.
  intros a' st' H. apply ret_Ok in H. injection H as _ <-.
  exists []. split; [reflexivity|exact G_nil].
Qed.

Lemma adds_bind A B (m : M A) (k : A -> M B) st :
  adds G m st ->
  (forall a st1, m st = Ok (a, st1) -> adds G (k a) st1) ->
  adds G (bind m k) st.
Proof.
  intros Hm Hk b st' H. apply bind_Ok in H.
  destruct H as (a & st1 & H1 & H2).
  destruct (Hm _ _ H1) as (l1 & E1 & F1).
  destruct (Hk _ _ H1 _ _ H2) as (l2 & E2 & F2).
  exists (l2 ++ l1). split.
  - rewrite E2, E1. apply app_assoc.
  - now apply G_app.
Qed.

Lemma adds_lift A (f : buffer -> result A) st : adds G (lift f) st.
Proof.
  intros a st' H. apply lift_Ok in H. destruct H as [-> _].
  exists []. split; [reflexivity|exact G_nil].
Qed.

Lemma adds_DagCheck loc st : Q loc -> adds G (DagCheck loc) st.
Proof.
  intros HQ v st' H. apply DagCheck_Ok in H. destruct H as [-> _].
  exists [EvCheck loc v]. split; [reflexivity|]. now apply G_check.
Qed.

(** A look at the vtable of the record at [loc]. *)
Lemma adds_lookup A loc (f : buffer -> result A) st :
  Q loc -> adds G (reading FieldLookup loc f) st.
Proof.
  intros HQ a st' H. apply reading_Ok in H. destruct H as (raw & _ & _ & ->).
  exists [EvRead FieldLookup loc raw]. split; [reflexivity|].
  exact (G_read FieldLookup raw HQ).
Qed.

(** A read of a forward offset, that holds [o], and the [Straddle] on it. *)
Lemma adds_forward A k loc (f : buffer -> result Z) (K : Z -> M A) st :
  forward_kind k = true -> Q loc ->
  (forall o, f (buf_ st) = Ok o -> ReadScalar uoffset_t (buf_ st) loc = Ok o) ->
  (forall o s, f (buf_ st) = Ok o -> adds G (K o) s) ->
  adds G (bind (reading k loc f)
            (fun o =>
               bind (Straddle startptr_ delta_ uoffset_t 1 loc (loc + o) loc)
                    (fun _ => K o))) st.
Proof.
  intros Hk HQ Hf HK a st' H.
  apply bind_Ok in H. destruct H as (o & s1 & Hr & H).
  apply reading_Ok in Hr. destruct Hr as (raw & Hraw & Ho & ->).
  pose proof (Hf o Ho) as Ho'. rewrite Hraw in Ho'. injection Ho' as ->.
  apply bind_Ok in H. destruct H as ([] & s2 & Hs & H).
  destruct (HK o s2 Ho _ _ H) as (l3 & E3 & G3).
  pose proof (G_read k o HQ) as Hunit.
  apply Straddle_Ok in Hs; [|reflexivity].
  destruct Hs as [(Hin & old & new & Hold & Hnew & _ & Hsteps)|(Hout & ->)].
  - simpl in Hold. rewrite Hraw in Hold. injection Hold as <-.
    simpl in Hnew. rewrite Z.mul_1_r in Hnew. subst new.
    exists (l3 ++ [EvPatch loc o (cast uoffset_t (o + delta_));
                   EvRead k loc o]).
    split.
    + rewrite E3, (steps_trace Hsteps). simpl. rewrite <- app_assoc.
      reflexivity.
    + apply G_app; [|exact G3].
      apply straddling_true in Hin.
      destruct k; try discriminate; simpl in Hunit; rewrite Hin in Hunit;
        exact Hunit.
  - exists (l3 ++ [EvRead k loc o]). split.
    + rewrite E3. simpl. rewrite <- app_assoc. reflexivity.
    + apply G_app; [|exact G3].
      apply straddling_false in Hout.
      destruct k; try discriminate; simpl in Hunit; rewrite Hout in Hunit;
        exact Hunit.
Qed.

(** The read of the soffset of a record and the two calls of [Straddle]
    on it. *)
Lemma adds_table A table (K : M A) st :
  Q table ->
  (forall s, adds G K s) ->
  adds G (bind (reading TableSlot table (fun b => GetVTable b table))
            (fun vtable =>
               bind (Straddle startptr_ delta_ soffset_t (-1)
                       table vtable table)
                    (fun _ =>
                       bind (Straddle startptr_ delta_ soffset_t (-1)
                               vtable table table)
                            (fun _ => K)))) st.
Proof.
  intros HQ HK a st' H.
  apply bind_Ok in H. destruct H as (vtable & s1 & Hr & H).
  apply reading_Ok in Hr. destruct Hr as (raw & Hraw & Hv & ->).
  unfold GetVTable in Hv. apply rbind_Ok in Hv.
  destruct Hv as (so & Hso & Hv). injection Hv as <-.
  pose proof (soffset_of_raw _ _ Hraw Hso) as Hcast.
  apply bind_Ok in H. destruct H as ([] & s2 & Hs2 & H).
  apply bind_Ok in H. destruct H as ([] & s3 & Hs3 & H).
  destruct (HK s3 _ _ H) as (l & El & Gl).
  pose proof (G_read TableSlot raw HQ) as Hunit.
  cbn [patches_due] in Hunit. rewrite rev_involutive, <- Hcast in Hunit.
  unfold soffset_patches in Hunit.
  exists (l ++ soffset_patches startptr_ delta_ table so
            ++ [EvRead TableSlot table raw]).
  split; [|apply G_app; [exact Hunit|exact Gl]].
  rewrite El. rewrite <- app_assoc. f_equal. unfold soffset_patches.
  pose proof Hs2 as Hs2'. apply Straddle_Ok in Hs2'; [|reflexivity].
  destruct Hs2' as [(Hin1 & old1 & new1 & Hold1 & Hnew1 & _ & Hst1)
                   |(Hout1 & ->)].
  - simpl in Hold1. rewrite Hso in Hold1. injection Hold1 as <-.
    simpl in Hnew1.
    assert (new1 = so - delta_) as -> by lia.
    eapply Straddle_soffset_patched in Hs2; [|exact Hin1|exact Hso].
    replace (so + delta_ * -1) with (so - delta_) in Hs2 by lia.
    apply straddling_true in Hin1. rewrite Hin1.
    apply Straddle_Ok in Hs3; [|reflexivity].
    destruct Hs3 as [(Hin2 & old2 & new2 & Hold2 & Hnew2 & _ & Hst2)
                    |(Hout2 & ->)].
    + rewrite Hs2 in Hold2. injection Hold2 as <-. simpl in Hnew2.
      assert (new2 = so - delta_ - delta_) as -> by lia.
      apply straddling_true in Hin2. rewrite Hin2.
      rewrite (steps_trace Hst2), (steps_trace Hst1). reflexivity.
    + apply straddling_false in Hout2. rewrite Hout2.
      rewrite (steps_trace Hst1). reflexivity.
  - apply straddling_false in Hout1. rewrite Hout1.
    apply Straddle_Ok in Hs3; [|reflexivity].
    destruct Hs3 as [(Hin2 & old2 & new2 & Hold2 & Hnew2 & _ & Hst2)
                    |(Hout2 & ->)].
    + simpl in Hold2. rewrite Hso in Hold2. injection Hold2 as <-.
      simpl in Hnew2.
      assert (new2 = so - delta_) as -> by lia.
      apply straddling_true in Hin2. rewrite Hin2.
      rewrite (steps_trace Hst2). reflexivity.
    + apply straddling_false in Hout2. rewrite Hout2. reflexivity.
Qed.

Lemma adds_for_each A (body : A -> M unit) l :
  (forall x st, adds G (body x) st) ->
  forall st, adds G (for_each body l) st.
Proof.
  intros Hb. induction l as [|x l IH]; intros st; simpl.
  - apply adds_ret.
  - apply adds_bind; [apply Hb|]. intros _ st1 _. apply IH.
Qed.

Lemma Vector_Get_slot b vec i o :
  Vector_Get uoffset_t b vec i = Ok o ->
  ReadScalar uoffset_t b (Vector_Data vec + i * sizeof uoffset_t) = Ok o.
Proof.
  unfold Vector_Get. intros H.
  apply rbind_Ok in H. destruct H as (n & _ & H).
  apply rbind_Ok in H. destruct H as (u & _ & H). exact H.
Qed.

Lemma adds_ResizeElem rec vec i st :
  (forall t s, Q t -> adds G (rec t) s) ->
  Q vec -> 0 <= i ->
  adds G (ResizeElem startptr_ delta_ rec vec i) st.
Proof.
  intros Hrec Hvec Hi. unfold ResizeElem. cbv zeta.
  assert (HQ : Q (Vector_Data vec + i * sizeof uoffset_t)).
  { unfold Vector_Data. rewrite <- Z.add_assoc. apply Q_up; [exact Hvec|].
    change (sizeof uoffset_t) with 4. lia. }
  apply adds_bind; [now apply adds_DagCheck|].
  intros visited s1 _. destruct visited; [apply adds_ret|].
  apply adds_forward; [reflexivity|exact HQ| |].
  - intros o. apply Vector_Get_slot.
  - intros o s Ho. apply Vector_Get_slot in Ho.
    apply ReadScalar_unsigned_nonneg in Ho; [|reflexivity].
    apply Hrec. now apply Q_up.
Qed.

Lemma adds_ResizeElems rec vec :
  (forall t s, Q t -> adds G (rec t) s) ->
  Q vec ->
  forall n i st, 0 <= i ->
    adds G (ResizeElems startptr_ delta_ rec vec n i) st.
Proof.
  intros Hrec Hvec. induction n as [|n IH]; intros i st Hi; simpl.
  - intros a st' H. discriminate.
  - apply adds_bind; [apply adds_lift|].
    intros sz s1 _. destruct (i <? sz); [|apply adds_ret].
    apply adds_bind; [now apply adds_ResizeElem|].
    intros _ s2 _. apply IH. now apply cast_unsigned_nonneg.
Qed.

Lemma adds_ResizeField rec fuel objectdef table fielddef st :
  (forall od t s, Q t -> adds G (rec od t) s) ->
  Q table ->
  adds G (ResizeField schema_ startptr_ delta_ rec fuel objectdef table
            fielddef) st.
Proof.
  intros Hrec Htable. unfold ResizeField. cbv zeta.
  destruct (reflection.leb (base_type_of fielddef) reflection.Double);
    [apply adds_ret|].
  apply adds_bind; [now apply adds_lookup|].
  intros offset s1 Hoff.
  apply reading_Ok in Hoff. destruct Hoff as (_ & _ & Hoff & _).
  apply GetOptionalFieldOffset_nonneg in Hoff.
  destruct (offset =? 0); [apply adds_ret|].
  apply adds_bind.
  { destruct (reflection.eqb (base_type_of fielddef) reflection.Obj);
      [apply adds_lift|apply adds_ret]. }
  intros subobjectdef s2 _.
  destruct (match subobjectdef with
            | Some o => reflection.is_struct o
            | Datatypes.None => false
            end); [apply adds_ret|].
  assert (HQ : Q (table + offset)) by now apply Q_up.
  apply adds_bind; [now apply adds_DagCheck|].
  intros visited s3 _. destruct visited; [apply adds_ret|].
  apply adds_forward; [reflexivity|exact HQ|intros o Ho; exact Ho|].
  intros o s Ho.
  apply ReadScalar_unsigned_nonneg in Ho; [|reflexivity].
  assert (Href : Q (table + offset + o)) by now apply Q_up.
  destruct (base_type_of fielddef); try apply adds_lift; try apply adds_ret.
  - (* Vector *)
    destruct (negb _); [apply adds_ret|].
    apply adds_bind; [apply adds_lift|].
    intros elemobjectdef s6 _.
    destruct (reflection.is_struct elemobjectdef); [apply adds_ret|].
    apply adds_ResizeElems; [|exact Href|lia].
    intros t s'. apply Hrec.
  - (* Obj *)
    destruct subobjectdef as [od|]; [now apply Hrec|apply adds_lift].
  - (* Union *)
    apply adds_bind; [now apply adds_lookup|].
    intros od s6 _. now apply Hrec.
Qed.

Lemma adds_ResizeTable fuel :
  forall objectdef table st,
    Q table ->
    adds G (ResizeTable schema_ startptr_ delta_ fuel objectdef table) st.
Proof.
  induction fuel as [|fuel IH]; intros objectdef table st HQ.
  - intros a st' H. discriminate.
  - rewrite ResizeTable_S.
    apply adds_bind; [now apply adds_DagCheck|].
    intros visited s1 _. destruct visited; [apply adds_ret|].
    apply adds_table; [exact HQ|]. intros s.
    destruct (startptr_ <=? table); [apply adds_ret|].
    apply adds_for_each. intros x s'.
    apply adds_ResizeField; [|exact HQ]. intros od t s''. apply IH.
Qed.

(** The walk of the constructor: the root offset, then the root record. *)
Lemma adds_ResizeOffsets fuel st :
  Q 0 -> adds G (ResizeOffsets schema_ startptr_ delta_ fuel) st.
Proof.
  intros HQ. unfold ResizeOffsets.
  apply (@adds_forward unit RootSlot 0 GetAnyRoot
           (fun root =>
              bind (lift (fun _ => of_option (reflection.root_table schema_)))
                   (fun root_table =>
                      ResizeTable schema_ startptr_ delta_ fuel root_table
                        root)));
    [reflexivity|exact HQ| |].
  - intros o Ho. unfold GetAnyRoot in Ho. apply rbind_Ok in Ho.
    destruct Ho as (o' & Ho' & Ho). injection Ho as <-. exact Ho'.
  - intros o s Ho. unfold GetAnyRoot in Ho. apply rbind_Ok in Ho.
    destruct Ho as (o' & Ho' & Ho). injection Ho as <-.
    apply ReadScalar_unsigned_nonneg in Ho'; [|reflexivity].
    apply adds_bind; [apply adds_lift|].
    intros rt s' _. apply adds_ResizeTable.
    change o' with (0 + o'). now apply Q_up.
Qed.

End Segments.

(** The events of a walk, as a list of their own. *)
Lemma adds_trace (G : list event -> Prop) A (m : M A) st a st' l :
  adds G m st -> m st = Ok (a, st') -> trace st' = l ++ trace st -> G l.
Proof.
  intros Hm H E. destruct (Hm _ _ H) as (l' & E' & F).
  rewrite E in E'. apply app_inv_tail in E'. now subst l'.
Qed.

(** The whole trace of the walk of the constructor. *)
Lemma adds_walk (G : list event -> Prop) schema start delta_ flatbuf st :
  (forall fuel s, adds G (ResizeOffsets schema start delta_ fuel) s) ->
  ResizeContext_walk schema start delta_ flatbuf = Ok st ->
  G (trace st).
Proof.
  intros Hm H. unfold ResizeContext_walk in H. apply rbind_Ok in H.
  destruct H as ([[] st'] & H & E). injection E as <-.
  destruct (Hm _ _ _ _ H) as (l & El & Gl). simpl in El.
  rewrite app_nil_r in El. simpl. now rewrite El.
Qed.

(** ** The patches of the walk *)

Lemma patches_due_straddle start delta_ k loc raw :
  Forall (fun e => match e with
                   | EvPatch l o n => l = loc /\ straddles start delta_ l o n
                   | _ => False
                   end)
    (patches_due start delta_ k loc raw).
Proof.
  unfold patches_due, soffset_patches.
  assert (Hf : Forall (fun e => match e with
                   | EvPatch l o n => l = loc /\ straddles start delta_ l o n
                   | _ => False
                   end)
            (if straddling start loc (loc + raw)
             then [EvPatch loc raw (cast uoffset_t (raw + delta_))] else [])).
  { destruct (straddling start loc (loc + raw)) eqn:E; constructor;
      [|constructor].
    apply straddling_true in E. split; [reflexivity|]. left. auto. }
  destruct k; try exact Hf; [|constructor].
  set (so := cast soffset_t raw).
  apply Forall_rev, Forall_app. split.
  - destruct (straddling start (loc - so) loc) eqn:E2; constructor;
      [|constructor].
    apply straddling_true in E2. split; [reflexivity|]. right.
    split; [reflexivity|]. exists so. split; [|right; exact E2].
    destruct (straddling start loc (loc - so)); [right; lia|left; reflexivity].
  - destruct (straddling start loc (loc - so)) eqn:E1; constructor;
      [|constructor].
    apply straddling_true in E1. split; [reflexivity|]. right.
    split; [reflexivity|]. exists so. split; [left; reflexivity|left; exact E1].
Qed.

(** X12. Every slot the walk of a resize patches straddles the insertion
    point, ends included, and is moved by the rounded delta [delta_]: a
    forward offset (of the root, a field or an element) whose slot lies at
    or before [start] and whose target lies at or behind it is moved up by
    [delta_], wrapping as a [uoffset_t], and the offset of a record to its
    vtable, when the two lie on either side of [start] or one of them at
    it, is moved down by [delta_]. *)
Theorem X12_every_patch_straddles_start schema start delta_ flatbuf st :
  ResizeContext_walk schema start delta_ flatbuf = Ok st ->
  forall loc old new,
    In (EvPatch loc old new) (trace st) ->
    straddles start delta_ loc old new.
Proof.
  intros H loc old new Hin.
  set (P := fun e => match e with
                     | EvPatch l o n => straddles start delta_ l o n
                     | _ => True
                     end).
  assert (HG : Forall P (trace st)).
  { eapply adds_walk; [|exact H]. intros fuel s.
    apply adds_ResizeOffsets with (Q := fun _ => True); try exact I.
    - intros; exact I.
    - constructor.
    - intros later earlier H1 H2. apply Forall_app. auto.
    - intros. constructor; [exact I|constructor].
    - intros k l raw _. apply Forall_app. split.
      + apply Forall_rev.
        eapply Forall_impl; [|apply patches_due_straddle].
        intros [| |l' o n]; simpl; tauto.
      + constructor; [exact I|constructor]. }
  rewrite Forall_forall in HG. exact (HG _ Hin).
Qed.

Lemma X12_every_patch_straddles_start_witness :
  ResizeContext_walk Pet.schema 36 8 Pet.buf = Ok Pet_walk /\
  In (EvPatch 28 12 20) (trace Pet_walk) /\
  straddles 36 8 28 12 20.
Proof.
  assert (H : ResizeContext_walk Pet.schema 36 8 Pet.buf = Ok Pet_walk)
    by (vm_compute; reflexivity).
  assert (Hin : In (EvPatch 28 12 20) (trace Pet_walk))
    by (vm_compute; tauto).
  split; [exact H|]. split; [exact Hin|].
  exact (@X12_every_patch_straddles_start Pet.schema 36 8 Pet.buf Pet_walk H
           28 12 20 Hin).
Defined.

(** ** The patches are those due *)

Lemma patches_due_none start delta_ k loc raw :
  flat_map (due start delta_) (patches_due start delta_ k loc raw) = [].
Proof.
  pose proof (patches_due_straddle start delta_ k loc raw) as H.
  induction H as [|e l He _ IH]; [reflexivity|].
  simpl. rewrite IH. destruct e; simpl; tauto.
Qed.

(** No patch is the first of the events with the patches due. *)
Lemma due_head start delta_ l :
  match flat_map (due start delta_) l with
  | EvPatch _ _ _ :: _ => False
  | _ => True
  end.
Proof.
  induction l as [|[| |] l IH]; simpl; auto.
Qed.

(** A read that follows patches follows all of them. *)
Lemma read_after_patches start delta_ k0 loc0 raw0 rest before k loc raw after :
  (patches_due start delta_ k0 loc0 raw0 ++ rest
    = before ++ EvRead k loc raw :: after) ->
  exists before',
    before = patches_due start delta_ k0 loc0 raw0 ++ before' /\
    rest = before' ++ EvRead k loc raw :: after.
Proof.
  pose proof (patches_due_straddle start delta_ k0 loc0 raw0) as H.
  revert before.
  induction H as [|e l He _ IH]; intros before E.
  - exists before. auto.
  - destruct before as [|b before]; simpl in E.
    + injection E as -> _. destruct He.
    + injection E as <- E. destruct (IH _ E) as (b' & -> & ->).
      exists b'. auto.
Qed.

(** In events that hold the patches due, a read is followed by the patches
    it calls for, and these by no other patch. *)
Lemma accounted_after_read start delta_ n :
  forall l, (length l <= n)%nat ->
    flat_map (due start delta_) l = l ->
    forall before k loc raw after,
      l = before ++ EvRead k loc raw :: after ->
      exists rest,
        after = patches_due start delta_ k loc raw ++ rest /\
        flat_map (due start delta_) rest = rest.
Proof.
  induction n as [|n IH]; intros l Hn Hl before k loc raw after E.
  - subst l. rewrite length_app in Hn. simpl in Hn. lia.
  - destruct before as [|b before]; simpl in E; subst l.
    + simpl in Hl. injection Hl as Hl.
      exists (flat_map (due start delta_) after).
      split; [symmetry; exact Hl|].
      transitivity (flat_map (due start delta_)
                      (patches_due start delta_ k loc raw
                       ++ flat_map (due start delta_) after)).
      * rewrite flat_map_app, patches_due_none. reflexivity.
      * rewrite Hl. reflexivity.
    + simpl in Hn. destruct b as [c1 c2|k0 loc0 raw0|p1 p2 p3].
      * simpl in Hl. injection Hl as Hl.
        refine (IH _ _ Hl before k loc raw after eq_refl). lia.
      * simpl in Hl. injection Hl as Hl.
        pose proof Hl as Hs. apply read_after_patches in Hs.
        destruct Hs as (b' & Eb & Er).
        assert (Hr : flat_map (due start delta_)
                       (flat_map (due start delta_)
                          (before ++ EvRead k loc raw :: after))
                     = flat_map (due start delta_)
                         (before ++ EvRead k loc raw :: after)).
        { transitivity (flat_map (due start delta_)
                          (patches_due start delta_ k0 loc0 raw0
                           ++ flat_map (due start delta_)
                                (before ++ EvRead k loc raw :: after))).
          - rewrite (flat_map_app (due start delta_)
                       (patches_due start delta_ k0 loc0 raw0)),
              patches_due_none.
            reflexivity.
          - rewrite Hl. reflexivity. }
        rewrite Er in Hr.
        refine (IH _ _ Hr b' k loc raw after eq_refl).
        subst before. rewrite !length_app in Hn. rewrite length_app.
        simpl in *. lia.
      * simpl in Hl. pose proof (due_head start delta_
          (before ++ EvRead k loc raw :: after)) as Hh.
        rewrite Hl in Hh. destruct Hh.
Qed.

(** X25. The walk of a resize makes exactly the patches that the slots it
    reads call for, each directly after the read: in the order of time,
    the trace of the walk is its reads and consultations of the visited
    set, with the patches due put after each read ([accounted]). So a read
    of a forward offset [raw] at [loc] is followed by one patch, to
    [raw + delta_] wrapped as a [uoffset_t], when
    [loc <= start <= loc + raw], and by none otherwise; the read of the
    soffset of a record by the patches of the two calls of [Straddle] on
    it; a look at a vtable by none; and no patch follows these. *)
Theorem X25_patches_are_those_due schema start delta_ flatbuf st :
  ResizeContext_walk schema start delta_ flatbuf = Ok st ->
  accounted start delta_ (trace st) /\
  forall before k loc raw after,
    rev (trace st) = before ++ EvRead k loc raw :: after ->
    exists rest,
      after = patches_due start delta_ k loc raw ++ rest /\
      match rest with EvPatch _ _ _ :: _ => False | _ => True end.
Proof.
  intros H.
  assert (HG : accounted start delta_ (trace st)).
  { eapply adds_walk; [|exact H]. intros fuel s.
    apply adds_ResizeOffsets with (Q := fun _ => True); try exact I.
    - intros; exact I.
    - reflexivity.
    - intros later earlier H1 H2. unfold accounted in *.
      rewrite rev_app_distr, flat_map_app, H1, H2. reflexivity.
    - intros. reflexivity.
    - intros k l raw _. unfold accounted.
      rewrite rev_app_distr, rev_involutive. simpl.
      rewrite patches_due_none, app_nil_r. reflexivity. }
  split; [exact HG|].
  intros before k loc raw after E.
  destruct (@accounted_after_read start delta_ _ _ (le_n _) HG
              before k loc raw after E) as (rest & Ea & Hr).
  exists rest. split; [exact Ea|].
  rewrite <- Hr. apply due_head.
Qed.

Lemma X25_patches_are_those_due_witness :
  ResizeContext_walk Pet.schema 36 8 Pet.buf = Ok Pet_walk /\
  accounted 36 8 (trace Pet_walk) /\
  forall before k loc raw after,
    rev (trace Pet_walk) = before ++ EvRead k loc raw :: after ->
    exists rest,
      after = patches_due 36 8 k loc raw ++ rest /\
      match rest with EvPatch _ _ _ :: _ => False | _ => True end.
Proof.
  assert (H : ResizeContext_walk Pet.schema 36 8 Pet.buf = Ok Pet_walk)
    by (vm_compute; reflexivity).
  split; [exact H|].
  exact (@X25_patches_are_those_due Pet.schema 36 8 Pet.buf Pet_walk H).
Defined.

(** ** The walk of a record stays at or above it *)

Lemma ResizeTable_above schema start delta_ fuel objectdef table st st' :
  ResizeTable schema start delta_ fuel objectdef table st = Ok (tt, st') ->
  exists l,
    steps st l st' /\ Forall (fun e => table <= event_loc e) l.
Proof.
  intros H.
  destruct (ResizeTable_walks _ _ _ _ _ _ _ H) as (l & (Hsteps & _)).
  exists l. split; [exact Hsteps|].
  eapply adds_trace; [|exact H|exact (steps_trace Hsteps)].
  apply adds_ResizeTable with (Q := fun a => table <= a).
  - intros; lia.
  - constructor.
  - intros later earlier H1 H2. apply Forall_app. auto.
  - intros. constructor; [simpl; lia|constructor].
  - intros k loc raw Hl. apply Forall_app. split.
    + apply Forall_rev.
      eapply Forall_impl; [|apply patches_due_straddle].
      intros [| |l' o n]; simpl; [tauto|tauto|]. intros [-> _]. exact Hl.
    + constructor; [exact Hl|constructor].
  - lia.
Qed.

(** X13. The walk of a record reads, consults and patches nothing below
    the address of the record: every event of the walk is at or above it,
    and every byte below it is left as it was. *)
Theorem X13_walk_stays_above_the_record
  schema start delta_ fuel objectdef table st st' :
  ResizeTable schema start delta_ fuel objectdef table st = Ok (tt, st') ->
  exists l,
    trace st' = l ++ trace st /\
    Forall (fun e => table <= event_loc e) l /\
    forall p, p < table -> byte_at (buf_ st') p = byte_at (buf_ st) p.
Proof.
  intros H. apply ResizeTable_above in H. destruct H as (l & Hsteps & Hl).
  exists l. split; [exact (steps_trace Hsteps)|]. split; [exact Hl|].
  intros p Hp. apply (steps_frame Hsteps). intros loc Hloc.
  apply In_patched in Hloc. destruct Hloc as (e & He & <-).
  rewrite Forall_forall in Hl. specialize (Hl e He). lia.
Qed.

Lemma X13_walk_stays_above_the_record_witness :
  ResizeTable Pet.schema 36 8 3 Pet.object Pet.root (initial_ctx Pet.buf)
    = Ok (tt, Pet_record_walk) /\
  exists l,
    trace Pet_record_walk = l ++ trace (initial_ctx Pet.buf) /\
    Forall (fun e => Pet.root <= event_loc e) l /\
    forall p, p < Pet.root ->
      byte_at (buf_ Pet_record_walk) p = byte_at (buf_ (initial_ctx Pet.buf)) p.
Proof.
  assert (H : ResizeTable Pet.schema 36 8 3 Pet.object Pet.root
                (initial_ctx Pet.buf) = Ok (tt, Pet_record_walk))
    by (vm_compute; reflexivity).
  split; [exact H|].
  exact (@X13_walk_stays_above_the_record Pet.schema 36 8 3%nat Pet.object
           Pet.root (initial_ctx Pet.buf) Pet_record_walk H).
Defined.

(** ** The root offset *)

(** X14. After [ResizeContext], the offset at the start of the buffer
    refers to where the root record now lies: to the old address moved by
    the rounded delta when the record lies at or after the insertion point,
    and to the old address otherwise (for a root record and an insertion
    point that lie behind the root offset). *)
Theorem X14_root_offset_follows_the_root
  schema start delta flatbuf flatbuf' delta_ root :
  round_delta delta = Ok delta_ ->
  GetAnyRoot flatbuf = Ok root ->
  4 <= root -> 4 <= start ->
  (start <= root -> 0 <= root + delta_ < 2 ^ 32) ->
  ResizeContext schema start delta flatbuf = Ok flatbuf' ->
  GetAnyRoot flatbuf'
    = Ok (if start <=? root then root + delta_ else root).
Proof.
  intros Hd Hroot Hr4 Hs4 Hfit H.
  destruct (Z.eq_dec delta_ 0) as [->|Hnz].
  { unfold ResizeContext in H. rewrite Hd in H. simpl in H.
    injection H as <-. rewrite Hroot. f_equal.
    destruct (start <=? root); lia. }
  unfold ResizeContext in H. rewrite Hd in H. cbn [rbind] in H.
  replace (delta_ =? 0) with false in H by (symmetry; apply Z.eqb_neq; lia).
  apply rbind_Ok in H. destruct H as (st & Hw & Hsplice).
  (* the walk: the root slot, then the root record *)
  unfold ResizeContext_walk in Hw. apply rbind_Ok in Hw.
  destruct Hw as ([[] st'] & Hw & E). injection E as <-.
  cbn [snd] in Hsplice. unfold ResizeOffsets in Hw.
  apply bind_Ok in Hw. destruct Hw as (root' & s1 & Hrd & Hw).
  apply reading_Ok in Hrd. destruct Hrd as (raw & Hraw & Hroot' & ->).
  simpl in Hraw, Hroot'. rewrite Hroot in Hroot'. injection Hroot' as <-.
  assert (raw = root) as ->.
  { unfold GetAnyRoot in Hroot. rewrite Hraw in Hroot. simpl in Hroot.
    congruence. }
  apply bind_Ok in Hw. destruct Hw as ([] & s2 & Hst & Hw).
  apply bind_Ok in Hw. destruct Hw as (rt & s3 & Hl & Hw).
  apply lift_Ok in Hl. destruct Hl as [-> _].
  assert (Hslot : ReadScalar uoffset_t (buf_ s2) 0
                  = Ok (if start <=? root then root + delta_ else root)
                  /\ size (buf_ s2) = size flatbuf).
  { apply Straddle_Ok in Hst; [|reflexivity].
    destruct Hst as [(Hin & old & new & Hold & Hnew & Hrdb & Hsteps)
                    |(Hout & ->)].
    - simpl in Hold. rewrite Hraw in Hold. injection Hold as <-.
      simpl in Hnew.
      replace (start <=? root) with true by (symmetry; apply Z.leb_le; lia).
      split; [|exact (steps_size Hsteps)].
      rewrite Hrdb, Hnew, Z.mul_1_r, cast_idem by (simpl; lia).
      f_equal. apply cast_small; [reflexivity|].
      change (2 ^ bits uoffset_t) with (2 ^ 32). apply Hfit. lia.
    - replace (start <=? root) with false
        by (symmetry; apply Z.leb_gt; lia).
      split; [exact Hraw|reflexivity]. }
  destruct Hslot as [Hslot Hsize2].
  apply ResizeTable_above in Hw. destruct Hw as (l & Hsteps & Hl).
  assert (Hlow : forall p, 0 <= p < 4 ->
                           byte_at flatbuf' p = byte_at (buf_ s2) p).
  { intros p Hp.
    assert (E : byte_at flatbuf' p = byte_at (buf_ st') p).
    { destruct (delta_ >? 0) eqn:Eg.
      - apply Z.gtb_lt in Eg.
        apply insert_zeros_Ok in Hsplice; [|lia].
        destruct Hsplice as [_ Hb]. apply Hb. lia.
      - apply erase_Ok in Hsplice. destruct Hsplice as [_ Hb].
        apply Hb. lia. }
    rewrite E. apply (steps_frame Hsteps). intros loc Hloc.
    apply In_patched in Hloc. destruct Hloc as (e & He & <-).
    rewrite Forall_forall in Hl. specialize (Hl e He). lia. }
  unfold GetAnyRoot.
  erewrite ReadScalar_agree; [|simpl; lia|exact Hslot|].
  - simpl. reflexivity.
  - intros p Hp. apply Hlow. change (sizeof uoffset_t) with 4 in Hp. lia.
Qed.

Lemma X14_root_offset_follows_the_root_witness :
  round_delta 8 = Ok 8 /\
  GetAnyRoot Bare.buf = Ok Bare.root /\
  4 <= Bare.root /\ 4 <= 4 /\
  (4 <= Bare.root -> 0 <= Bare.root + 8 < 2 ^ 32) /\
  ResizeContext Bare.schema 4 8 Bare.buf = Ok Bare_grown /\
  GetAnyRoot Bare_grown = Ok (if 4 <=? Bare.root then Bare.root + 8
                              else Bare.root).
Proof.
  assert (H1 : round_delta 8 = Ok 8) by reflexivity.
  assert (H2 : GetAnyRoot Bare.buf = Ok Bare.root) by reflexivity.
  assert (H3 : 4 <= Bare.root) by (unfold Bare.root; lia).
  assert (H4 : 4 <= 4) by lia.
  assert (H5 : 4 <= Bare.root -> 0 <= Bare.root + 8 < 2 ^ 32)
    by (unfold Bare.root; lia).
  assert (H6 : ResizeContext Bare.schema 4 8 Bare.buf = Ok Bare_grown)
    by (vm_compute; reflexivity).
  split; [exact H1|]. split; [exact H2|]. split; [exact H3|].
  split; [exact H4|]. split; [exact H5|]. split; [exact H6|].
  exact (@X14_root_offset_follows_the_root Bare.schema 4 8 Bare.buf
           Bare_grown 8 Bare.root H1 H2 H3 H4 H5 H6).
Defined.

(** ** What the walk writes *)

(** X16. The walk of a resize keeps the size of the buffer and the number
    of visit bits, and writes nowhere but in the 4-byte slots it patches:
    every other byte is after the walk what it was before. *)
Theorem X16_walk_writes_only_patched_slots schema start delta_ flatbuf st :
  ResizeContext_walk schema start delta_ flatbuf = Ok st ->
  size (buf_ st) = size flatbuf /\
  length (dag_check_ st) = Z.to_nat (size flatbuf / sizeof uoffset_t) /\
  forall p, untouched (trace st) p -> byte_at (buf_ st) p = byte_at flatbuf p.
Proof.
  intros H. apply ResizeContext_walk_walked in H.
  destruct H as (Hsteps & _).
  split; [exact (steps_size Hsteps)|]. split.
  - rewrite (steps_dag_length Hsteps). simpl. apply repeat_length.
  - exact (steps_frame Hsteps).
Qed.

Lemma X16_walk_writes_only_patched_slots_witness :
  ResizeContext_walk Pet.schema 36 8 Pet.buf = Ok Pet_walk /\
  size (buf_ Pet_walk) = size Pet.buf /\
  length (dag_check_ Pet_walk) = Z.to_nat (size Pet.buf / sizeof uoffset_t) /\
  forall p, untouched (trace Pet_walk) p ->
            byte_at (buf_ Pet_walk) p = byte_at Pet.buf p.
Proof.
  assert (H : ResizeContext_walk Pet.schema 36 8 Pet.buf = Ok Pet_walk)
    by (vm_compute; reflexivity).
  split; [exact H|].
  exact (@X16_walk_writes_only_patched_slots Pet.schema 36 8 Pet.buf
           Pet_walk H).
Defined.

(** ** Termination *)

(** X15. The resize never runs out of fuel: with the fuel that
    [ResizeContext] gives it, one more than the size of the buffer, the
    walk ends on every buffer and schema, well formed or not (each record
    it enters lies at a higher address than the one it came from), and so
    do [SetString] and [ResizeVector]. *)
Theorem X15_resize_never_runs_out_of_fuel schema flatbuf :
  (forall start delta,
     ResizeContext schema start delta flatbuf <> OutOfFuel) /\
  (forall val str, SetString schema val str flatbuf <> OutOfFuel) /\
  (forall newsize val vec,
     ResizeVector schema newsize val vec flatbuf <> OutOfFuel).
Proof.
  split; [intros; apply ResizeContext_fueled|].
  split; [intros; apply SetString_fueled|].
  intros; apply ResizeVector_fueled.
Qed.

(** ** [Straddle] *)

(** X24. [Straddle] rewrites the slot exactly when
    [first <= startptr_ <= second], both ends included: it then adds
    [delta_ * D] to the value of the slot, sets the visit bit of the slot
    and changes no other byte and no other bit; otherwise it changes
    nothing. *)
Theorem X24_Straddle_patches_between
  start delta_ T D first second loc st st' :
  width T = 4%nat ->
  Straddle start delta_ T D first second loc st = Ok (tt, st') ->
  if (first <=? start) && (start <=? second)
  then exists old,
         ReadScalar T (buf_ st) loc = Ok old /\
         ReadScalar T (buf_ st') loc = Ok (cast T (old + delta_ * D)) /\
         Get (dag_check_ st') (dag_idx loc) = Ok true /\
         (forall p, p < loc \/ loc + 4 <= p ->
                    byte_at (buf_ st') p = byte_at (buf_ st) p) /\
         (forall i, i <> dag_idx loc ->
                    Get (dag_check_ st') i = Get (dag_check_ st) i)
  else st' = st.
Proof.
  intros HT H. apply Straddle_Ok in H; [|exact HT].
  destruct H as [(Hin & old & new & Hold & Hnew & Hrd & Hsteps)|(Hout & ->)].
  - replace ((first <=? start) && (start <=? second)) with true
      by (symmetry; apply andb_true_iff; split; apply Z.leb_le; lia).
    exists old. split; [exact Hold|]. split.
    { rewrite Hrd, Hnew. destruct (is_signed T); [reflexivity|].
      rewrite cast_idem by lia. reflexivity. }
    split; [apply (steps_marked Hsteps); simpl; auto|]. split.
    + intros p Hp. apply (steps_frame Hsteps). intros l [<-|[]].
      change (sizeof uoffset_t) with 4. exact Hp.
    + intros i Hi. apply (steps_unmarked Hsteps). simpl. intros [E|[]].
      congruence.
  - replace ((first <=? start) && (start <=? second)) with false;
      [reflexivity|].
    symmetry. apply andb_false_iff.
    destruct (Z_le_gt_dec first start) as [H1|H1].
    + right. apply Z.leb_gt. lia.
    + left. apply Z.leb_gt. lia.
Qed.

Lemma X24_Straddle_patches_between_witness :
  width uoffset_t = 4%nat /\
  Straddle 36 8 uoffset_t 1 28 40 28 (initial_ctx Pet.buf)
    = Ok (tt, Pet_straddled) /\
  if (28 <=? 36) && (36 <=? 40)
  then exists old,
         ReadScalar uoffset_t (buf_ (initial_ctx Pet.buf)) 28 = Ok old /\
         ReadScalar uoffset_t (buf_ Pet_straddled) 28
           = Ok (cast uoffset_t (old + 8 * 1)) /\
         Get (dag_check_ Pet_straddled) (dag_idx 28) = Ok true /\
         (forall p, p < 28 \/ 28 + 4 <= p ->
                    byte_at (buf_ Pet_straddled) p
                    = byte_at (buf_ (initial_ctx Pet.buf)) p) /\
         (forall i, i <> dag_idx 28 ->
                    Get (dag_check_ Pet_straddled) i
                    = Get (dag_check_ (initial_ctx Pet.buf)) i)
  else Pet_straddled = initial_ctx Pet.buf.
Proof.
  assert (H1 : width uoffset_t = 4%nat) by reflexivity.
  assert (H2 : Straddle 36 8 uoffset_t 1 28 40 28 (initial_ctx Pet.buf)
               = Ok (tt, Pet_straddled)) by (vm_compute; reflexivity).
  split; [exact H1|]. split; [exact H2|].
  exact (@X24_Straddle_patches_between 36 8 uoffset_t 1 28 40 28
           (initial_ctx Pet.buf) Pet_straddled H1 H2).
Defined.

(* ================================================================== *)
(** * Further properties of [GetUnionType] *)

Lemma LookupByKey_Some A K (key_eqb : K -> K -> bool) (key_of : A -> K)
  v key x :
  LookupByKey key_eqb key_of v key = Some x ->
  In x v /\ key_eqb (key_of x) key = true.
Proof. unfold LookupByKey. apply find_some. Qed.

(** X17. The object [GetUnionType] returns is the one the union's type
    byte selects: the byte is read, as a [uint8_t], from the field of the
    parent object that is named after the union field with "_type"
    appended, and the object is that of a value of the union's enum equal
    to this byte.  Without such a field, such a value or an object for it,
    the call is undefined. *)
Theorem X17_GetUnionType_follows_type_field
  schema parent unionfield b table od :
  GetUnionType schema parent unionfield b table = Ok od ->
  exists enumdef type_field enumval,
    Get (reflection.enums schema)
        (reflection.index (reflection.type unionfield)) = Ok enumdef /\
    In type_field (reflection.fields parent) /\
    reflection.name type_field
      = (reflection.name unionfield ++ "_type")%string /\
    In enumval (reflection.values enumdef) /\
    GetFieldI uint8_t b table type_field = Ok (reflection.value enumval) /\
    reflection.object enumval = Some od.
Proof.
  unfold GetUnionType. intros H.
  apply rbind_Ok in H. destruct H as (enumdef & He & H).
  apply rbind_Ok in H. destruct H as (type_field & Ht & H).
  apply rbind_Ok in H. destruct H as (union_type & Hu & H).
  apply rbind_Ok in H. destruct H as (enumval & Hv & H).
  apply of_option_Ok in Ht, Hv, H.
  apply LookupByKey_Some in Ht, Hv.
  destruct Ht as [Ht1 Ht2]. destruct Hv as [Hv1 Hv2].
  apply String.eqb_eq in Ht2. apply Z.eqb_eq in Hv2.
  exists enumdef, type_field, enumval.
  rewrite Hv2. auto 10.
Qed.

Lemma X17_GetUnionType_follows_type_field_witness :
  GetUnionType Zoo.schema Zoo.object Zoo.pet Zoo.buf Zoo.root = Ok Zoo.Cat /\
  exists enumdef type_field enumval,
    Get (reflection.enums Zoo.schema)
        (reflection.index (reflection.type Zoo.pet)) = Ok enumdef /\
    In type_field (reflection.fields Zoo.object) /\
    reflection.name type_field
      = (reflection.name Zoo.pet ++ "_type")%string /\
    In enumval (reflection.values enumdef) /\
    GetFieldI uint8_t Zoo.buf Zoo.root type_field
      = Ok (reflection.value enumval) /\
    reflection.object enumval = Some Zoo.Cat.
Proof.
  assert (H : GetUnionType Zoo.schema Zoo.object Zoo.pet Zoo.buf Zoo.root
              = Ok Zoo.Cat) by reflexivity.
  split; [exact H|].
  exact (@X17_GetUnionType_follows_type_field Zoo.schema Zoo.object Zoo.pet
           Zoo.buf Zoo.root Zoo.Cat H).
Defined.

(* ================================================================== *)
(** * Properties of [GetAnyFieldS] *)

(** ** A table field that the record does not store *)

Lemma GetAnyFieldS_fields_null rec b table fielddefs s :
  (forall fd, In fd fielddefs ->
     Table_CheckField b table (reflection.offset fd) = Ok false) ->
  GetAnyFieldS_fields rec b table Datatypes.None fielddefs s = Ok s.
Proof.
  induction fielddefs as [|fd rest IH]; intros H; simpl; [reflexivity|].
  rewrite (H fd) by (left; reflexivity). simpl.
  apply IH. intros x Hx. apply H. right. exact Hx.
Qed.

Lemma GetAnyFieldS_fields_null_deref rec b table pre fd post s :
  (forall x, In x pre ->
     Table_CheckField b table (reflection.offset x) = Ok false) ->
  Table_CheckField b table (reflection.offset fd) = Ok true ->
  GetAnyFieldS_fields rec b table Datatypes.None (pre ++ fd :: post) s
    = Undefined.
Proof.
  induction pre as [|x pre IH]; intros Hpre Hfd; simpl.
  - rewrite Hfd. reflexivity.
  - rewrite (Hpre x) by (left; reflexivity). simpl.
    apply IH; [|exact Hfd]. intros y Hy. apply Hpre. right. exact Hy.
Qed.

(** X18. [GetAnyFieldS] on a table field that the record does not store
    tests the presence of each field of the field's object in the record
    itself, not in the record the field would refer to: when the record
    stores none of them the result is the name of the object with empty
    braces, and as soon as it stores one of them the call dereferences the
    null pointer. *)
Theorem X18_GetAnyFieldS_absent_table
  StringToInt strtod NumToString_int64 NumToString_double
  fuel b table field schema objectdef :
  base_type_of field = reflection.Obj ->
  Get (reflection.objects schema)
      (reflection.index (reflection.type field)) = Ok objectdef ->
  reflection.is_struct objectdef = false ->
  GetOptionalFieldOffset b table (reflection.offset field) = Ok 0 ->
  ((forall fd, In fd (reflection.fields objectdef) ->
      Table_CheckField b table (reflection.offset fd) = Ok false) ->
   GetAnyFieldS StringToInt strtod NumToString_int64 NumToString_double
     (S fuel) b table field schema
   = Ok ((chars (reflection.object_name objectdef) ++ chars " { ")
           ++ chars "}")) /\
  (forall pre fd post,
     reflection.fields objectdef = pre ++ fd :: post ->
     (forall x, In x pre ->
        Table_CheckField b table (reflection.offset x) = Ok false) ->
     Table_CheckField b table (reflection.offset fd) = Ok true ->
     GetAnyFieldS StringToInt strtod NumToString_int64 NumToString_double
       (S fuel) b table field schema
     = Undefined).
Proof.
  intros Hbt Hobj Hstruct Hoff.
  assert (Ht : GetFieldT b table field = Ok Datatypes.None).
  { unfold GetFieldT, Table_GetPointer. rewrite Hbt, Hoff. reflexivity. }
  split.
  - intros Hnone. simpl. rewrite Hbt, Hobj. cbn [rbind].
    rewrite Hstruct, Ht. cbn [rbind].
    rewrite GetAnyFieldS_fields_null by exact Hnone. reflexivity.
  - intros pre fd post Hfields Hpre Hfd. simpl. rewrite Hbt, Hobj.
    cbn [rbind]. rewrite Hstruct, Ht. cbn [rbind].
    rewrite Hfields, GetAnyFieldS_fields_null_deref by assumption.
    reflexivity.
Qed.

Lemma X18_GetAnyFieldS_absent_table_witness :
  base_type_of Chain.next = reflection.Obj /\
  Get (reflection.objects Chain.schema)
      (reflection.index (reflection.type Chain.next)) = Ok Chain.Cell /\
  reflection.is_struct Chain.Cell = false /\
  GetOptionalFieldOffset Chain.buf 52 (reflection.offset Chain.next) = Ok 0 /\
  Table_CheckField Chain.buf 52 (reflection.offset Chain.name) = Ok true /\
  GetAnyFieldS (fun _ => 0) (fun _ => S754_zero false)
    (fun _ => []) (fun _ => []) 1 Chain.buf 52 Chain.next Chain.schema
  = Undefined.
Proof.
  assert (H1 : base_type_of Chain.next = reflection.Obj) by reflexivity.
  assert (H2 : Get (reflection.objects Chain.schema)
                 (reflection.index (reflection.type Chain.next))
               = Ok Chain.Cell) by reflexivity.
  assert (H3 : reflection.is_struct Chain.Cell = false) by reflexivity.
  assert (H4 : GetOptionalFieldOffset Chain.buf 52
                 (reflection.offset Chain.next) = Ok 0) by reflexivity.
  assert (H5 : Table_CheckField Chain.buf 52 (reflection.offset Chain.name)
               = Ok true) by reflexivity.
  split; [exact H1|]. split; [exact H2|]. split; [exact H3|].
  split; [exact H4|]. split; [exact H5|].
  apply (proj2 (@X18_GetAnyFieldS_absent_table (fun _ => 0)
                  (fun _ => S754_zero false) (fun _ => []) (fun _ => [])
                  0%nat Chain.buf 52 Chain.next Chain.schema Chain.Cell
                  H1 H2 H3 H4)
           [] Chain.name [Chain.next]).
  - reflexivity.
  - intros x [].
  - exact H5.
Defined.

(** ** Termination *)

Lemma c_str_from_fueled bs : c_str_from bs <> OutOfFuel.
Proof.
  induction bs as [|c bs IH]; simpl; [discriminate|].
  destruct (Byte.eqb c Byte.x00); [discriminate|].
  apply rbind_fueled; [exact IH|discriminate].
Qed.

Lemma String_c_str_fueled b s : String_c_str b s <> OutOfFuel.
Proof.
  unfold String_c_str, c_string.
  destruct (in_bounds b (s + sizeof uoffset_t) 0); [|discriminate].
  apply c_str_from_fueled.
Qed.

Lemma Table_GetPointer_fueled b table field :
  Table_GetPointer b table field <> OutOfFuel.
Proof.
  unfold Table_GetPointer.
  fueled; auto using GetOptionalFieldOffset_fueled with fueled.
Qed.

Lemma GetFieldS_fueled b table field : GetFieldS b table field <> OutOfFuel.
Proof.
  unfold GetFieldS. fueled; auto using Table_GetPointer_fueled with fueled.
Qed.

Lemma GetFieldT_fueled b table field : GetFieldT b table field <> OutOfFuel.
Proof.
  unfold GetFieldT. fueled; auto using Table_GetPointer_fueled with fueled.
Qed.

Lemma GetFieldF_fueled F b table field : GetFieldF F b table field <> OutOfFuel.
Proof.
  unfold GetFieldF, Table_GetField, ReadFloat.
  fueled; auto using GetOptionalFieldOffset_fueled with fueled.
Qed.

Lemma int_of_float_fueled x : int_of_float x <> OutOfFuel.
Proof. unfold int_of_float. fueled. Qed.

Lemma GetAnyFieldI_fueled StringToInt b table field :
  GetAnyFieldI StringToInt b table field <> OutOfFuel.
Proof.
  unfold GetAnyFieldI.
  destruct (base_type_of field); try discriminate;
    fueled;
    auto using GetFieldI_fueled, GetFieldF_fueled, GetFieldS_fueled,
      String_c_str_fueled, int_of_float_fueled with fueled.
Qed.

Lemma GetAnyFieldF_fueled StringToInt strtod b table field :
  GetAnyFieldF StringToInt strtod b table field <> OutOfFuel.
Proof.
  unfold GetAnyFieldF.
  destruct (base_type_of field);
    fueled;
    auto using GetAnyFieldI_fueled, GetFieldF_fueled, GetFieldS_fueled,
      String_c_str_fueled with fueled.
Qed.

Lemma Table_CheckField_fueled b table field :
  Table_CheckField b table field <> OutOfFuel.
Proof.
  unfold Table_CheckField.
  fueled; auto using GetOptionalFieldOffset_fueled with fueled.
Qed.

Lemma GetAnyFieldS_fields_fueled rec b table table_field fielddefs :
  (forall t fd, table_field = Some t -> rec t fd <> OutOfFuel) ->
  forall s,
    GetAnyFieldS_fields rec b table table_field fielddefs s <> OutOfFuel.
Proof.
  intros Hrec. induction fielddefs as [|fd rest IH]; intros s; simpl.
  - discriminate.
  - apply rbind_fueled; [apply Table_CheckField_fueled|].
    intros present _. destruct present; simpl; [|apply IH].
    destruct table_field as [t|]; simpl; [|discriminate].
    apply rbind_fueled; [now apply Hrec|]. intros val _. apply IH.
Qed.

(** The record a table field refers to lies behind the record that has
    the field. *)
Lemma GetFieldT_forward b table field t :
  GetFieldT b table field = Ok (Some t) ->
  0 <= table /\ table + 4 <= size b /\ table < t.
Proof.
  unfold GetFieldT. intros H. apply rbind_Ok in H. destruct H as (_ & _ & H).
  unfold Table_GetPointer in H.
  apply rbind_Ok in H. destruct H as (off & Hoff & H).
  pose proof Hoff as Hoff0. apply GetOptionalFieldOffset_nonneg in Hoff0.
  unfold GetOptionalFieldOffset, GetVTable in Hoff.
  apply rbind_Ok in Hoff. destruct Hoff as (vtable & Hv & _).
  apply rbind_Ok in Hv. destruct Hv as (so & Hso & _).
  apply ReadScalar_in_bounds in Hso. change (sizeof soffset_t) with 4 in Hso.
  destruct (off =? 0) eqn:E; [discriminate|]. apply Z.eqb_neq in E.
  apply rbind_Ok in H. destruct H as (o & Ho & H). injection H as <-.
  apply ReadScalar_unsigned_nonneg in Ho; [|reflexivity]. lia.
Qed.

Section AnyFieldSFuel.

Variable StringToInt : list byte -> Z.
Variable strtod : list byte -> spec_float.
Variable NumToString_int64 : Z -> list byte.
Variable NumToString_double : spec_float -> list byte.
Variable b : buffer.
Variable schema : reflection.Schema.

Lemma GetAnyFieldS_fueled fuel :
  forall table field,
    size b <= table + Z.of_nat fuel ->
    GetAnyFieldS StringToInt strtod NumToString_int64 NumToString_double
      (S fuel) b table field schema <> OutOfFuel.
Proof.
  induction fuel as [|fuel IH]; intros table field Hb;
    cbn [GetAnyFieldS];
    (destruct (base_type_of field);
     try (apply rbind_fueled;
          [first [apply GetAnyFieldI_fueled | apply GetAnyFieldF_fueled]
          |discriminate]);
     try discriminate);
    try (apply rbind_fueled; [apply GetFieldS_fueled|];
         intros [s|] _; [apply String_c_str_fueled|discriminate]);
    (apply rbind_fueled; [apply Get_fueled|]; intros objectdef _;
     destruct (reflection.is_struct objectdef); [discriminate|];
     apply rbind_fueled; [apply GetFieldT_fueled|]; intros table_field Ht;
     (apply rbind_fueled; [|discriminate]);
     apply GetAnyFieldS_fields_fueled; intros t fd ->;
     apply GetFieldT_forward in Ht).
  - lia.
  - apply IH. lia.
Qed.

End AnyFieldSFuel.

(** X19. [GetAnyFieldS] ends on every buffer and schema, also a recursive
    one: a nesting of tables as deep as the buffer is long is never used
    up, since the record a table field refers to lies behind the record
    that has the field. *)
Theorem X19_GetAnyFieldS_never_runs_out_of_fuel
  StringToInt strtod NumToString_int64 NumToString_double
  b table field schema :
  GetAnyFieldS StringToInt strtod NumToString_int64 NumToString_double
    (S (length b)) b table field schema <> OutOfFuel.
Proof.
  destruct (Z_lt_le_dec table 0) as [Hneg|Hpos].
  - cbn [GetAnyFieldS].
    destruct (base_type_of field);
      try (apply rbind_fueled;
           [first [apply GetAnyFieldI_fueled | apply GetAnyFieldF_fueled]
           |discriminate]);
      try discriminate.
    + apply rbind_fueled; [apply GetFieldS_fueled|].
      intros [s|] _; [apply String_c_str_fueled|discriminate].
    + apply rbind_fueled; [apply Get_fueled|]. intros objectdef _.
      destruct (reflection.is_struct objectdef); [discriminate|].
      apply rbind_fueled; [apply GetFieldT_fueled|]. intros table_field Ht.
      apply rbind_fueled; [|discriminate].
      apply GetAnyFieldS_fields_fueled. intros t fd ->.
      apply GetFieldT_forward in Ht. lia.
  - apply GetAnyFieldS_fueled. unfold size. lia.
Qed.

(* ================================================================== *)
(** * Floating-point fields *)

(** ** The encoding of a [double] *)

Lemma digits2_pos_bounds m :
  2 ^ (Zpos (digits2_pos m) - 1) <= Zpos m < 2 ^ Zpos (digits2_pos m).
Proof.
  induction m as [m IH|m IH|]; cbn [digits2_pos].
  - rewrite Pos2Z.inj_succ.
    replace (Z.succ (Zpos (digits2_pos m)) - 1)
      with (Z.succ (Zpos (digits2_pos m) - 1)) by lia.
    rewrite !Z.pow_succ_r by lia. lia.
  - rewrite Pos2Z.inj_succ.
    replace (Z.succ (Zpos (digits2_pos m)) - 1)
      with (Z.succ (Zpos (digits2_pos m) - 1)) by lia.
    rewrite !Z.pow_succ_r by lia. lia.
  - simpl. lia.
Qed.

(** The sign, exponent and mantissa fields of a word. *)
Lemma decode_fields mb eb (s : bool) E M :
  0 <= mb -> 0 <= eb -> 0 <= E < 2 ^ eb -> 0 <= M < 2 ^ mb ->
  let x := (if s then 2 ^ (mb + eb) else 0) + E * 2 ^ mb + M in
  Z.testbit x (mb + eb) = s /\
  (x / 2 ^ mb) mod 2 ^ eb = E /\
  x mod 2 ^ mb = M /\
  0 <= x < 2 ^ (mb + eb + 1).
Proof.
  intros Hmb Heb HE HM x.
  assert (Hpm : 0 < 2 ^ mb) by (apply Z.pow_pos_nonneg; lia).
  assert (Hpe : 0 < 2 ^ eb) by (apply Z.pow_pos_nonneg; lia).
  set (sb := if s then 1 else 0).
  assert (Hsb : 0 <= sb <= 1) by (unfold sb; destruct s; lia).
  assert (Hx : x = M + (E + sb * 2 ^ eb) * 2 ^ mb).
  { unfold x, sb. rewrite Z.pow_add_r by lia. destruct s; ring. }
  assert (Hdiv : x / 2 ^ mb = E + sb * 2 ^ eb).
  { rewrite Hx, Z.div_add by lia. rewrite Z.div_small by lia. lia. }
  split; [|split; [|split]].
  - assert (Hq : x / 2 ^ (mb + eb) = sb).
    { rewrite Z.pow_add_r by lia.
      rewrite <- Z.div_div by lia. rewrite Hdiv.
      rewrite Z.div_add by lia. rewrite Z.div_small by lia. lia. }
    destruct s.
    + apply Z.testbit_true; [lia|]. rewrite Hq. reflexivity.
    + apply Z.testbit_false; [lia|]. rewrite Hq. reflexivity.
  - rewrite Hdiv, Z.mod_add by lia. apply Z.mod_small. lia.
  - rewrite Hx, Z.mod_add by lia. apply Z.mod_small. lia.
  - rewrite Hx. rewrite !Z.pow_add_r by lia. change (2 ^ 1) with 2. nia.
Qed.

Lemma double_bits_range x :
  valid_binary 53 1024 x = true ->
  0 <= bits_of_float double_ x < 2 ^ 64.
Proof.
  intros Hv. destruct x as [s|s| |s m e].
  - destruct s; vm_compute; split; congruence.
  - destruct s; vm_compute; split; congruence.
  - vm_compute; split; congruence.
  - simpl in Hv. unfold bounded, canonical_mantissa, fexp, emin in Hv.
    apply andb_true_iff in Hv. destruct Hv as [Hc He].
    apply Z.eqb_eq in Hc. apply Z.leb_le in He.
    pose proof (digits2_pos_bounds m) as Hd.
    unfold bits_of_float.
    change (mant_bits double_) with 52. change (exp_bits double_) with 11.
    change (bias double_) with 1023.
    destruct (Zpos m <? 2 ^ 52) eqn:Em.
    + apply Z.ltb_lt in Em.
      destruct (@decode_fields 52 11 s 0 (Zpos m)) as (_ & _ & _ & Hr);
        lia.
    + apply Z.ltb_ge in Em.
      assert (Hd53 : Zpos (digits2_pos m) = 53).
      { destruct (Z_lt_le_dec (Zpos (digits2_pos m)) 53) as [Hlt|Hge].
        - assert (2 ^ Zpos (digits2_pos m) <= 2 ^ 52)
            by (apply Z.pow_le_mono_r; lia). lia.
        - lia. }
      rewrite Hd53 in Hd. change (2 ^ 53) with (2 * 2 ^ 52) in Hd.
      destruct (@decode_fields 52 11 s (e + 1023 + 52) (Zpos m - 2 ^ 52))
        as (_ & _ & _ & Hr); lia.
Qed.

Lemma double_bits_roundtrip x :
  valid_binary 53 1024 x = true ->
  float_of_bits double_ (bits_of_float double_ x) = x.
Proof.
  intros Hv. destruct x as [s|s| |s m e].
  - destruct s; reflexivity.
  - destruct s; reflexivity.
  - reflexivity.
  - simpl in Hv. unfold bounded, canonical_mantissa, fexp, emin in Hv.
    apply andb_true_iff in Hv. destruct Hv as [Hc He].
    apply Z.eqb_eq in Hc. apply Z.leb_le in He.
    pose proof (digits2_pos_bounds m) as Hd.
    unfold bits_of_float, float_of_bits.
    change (mant_bits double_) with 52. change (exp_bits double_) with 11.
    change (bias double_) with 1023.
    change (prec double_) with 53. change (emax double_) with 1024.
    destruct (Zpos m <? 2 ^ 52) eqn:Em.
    + apply Z.ltb_lt in Em.
      assert (Hle : Zpos (digits2_pos m) <= 52).
      { destruct (Z_lt_le_dec 52 (Zpos (digits2_pos m))) as [Hlt|Hge];
          [|lia].
        assert (2 ^ 52 <= 2 ^ (Zpos (digits2_pos m) - 1))
          by (apply Z.pow_le_mono_r; lia). lia. }
      assert (He' : e = 3 - 1024 - 53) by lia.
      destruct (@decode_fields 52 11 s 0 (Zpos m)) as (Hs & HE & HM & _);
        try lia.
      simpl Z.mul in Hs, HE, HM. rewrite Z.add_0_r in Hs, HE, HM.
      rewrite Hs, HE, HM. simpl. rewrite He'. reflexivity.
    + apply Z.ltb_ge in Em.
      assert (Hd53 : Zpos (digits2_pos m) = 53).
      { destruct (Z_lt_le_dec (Zpos (digits2_pos m)) 53) as [Hlt|Hge].
        - assert (2 ^ Zpos (digits2_pos m) <= 2 ^ 52)
            by (apply Z.pow_le_mono_r; lia). lia.
        - lia. }
      rewrite Hd53 in Hd. change (2 ^ 53) with (2 * 2 ^ 52) in Hd.
      destruct (@decode_fields 52 11 s (e + 1023 + 52) (Zpos m - 2 ^ 52))
        as (Hs & HE & HM & _); try lia.
      rewrite Hs, HE, HM.
      replace (e + 1023 + 52 =? 0) with false
        by (symmetry; apply Z.eqb_neq; lia).
      replace (e + 1023 + 52 =? 2 ^ 11 - 1) with false
        by (symmetry; apply Z.eqb_neq; change (2 ^ 11) with 2048; lia).
      f_equal; [|lia].
      replace (Zpos m - 2 ^ 52 + 2 ^ 52) with (Zpos m) by lia.
      reflexivity.
Qed.

Lemma ReadFloat_WriteFloat_double b a v b' :
  valid_binary 53 1024 v = true ->
  WriteFloat double_ b a v = Ok b' -> ReadFloat double_ b' a = Ok v.
Proof.
  intros Hv H. unfold WriteFloat in H. apply load_store in H.
  rewrite length_le_split in H. unfold ReadFloat. rewrite H. cbn [rbind].
  rewrite le_combine_split. f_equal.
  replace (Z.of_nat (fwidth double_) * 8) with 64 by reflexivity.
  rewrite Z.mod_small by now apply double_bits_range.
  now apply double_bits_roundtrip.
Qed.

(** ** Writing a [double] field and reading it back *)

(** X20. Writing a [double] field that the record stores, by
    [SetAnyFieldF], and reading it back by [GetAnyFieldF] gives the value
    written, for every [double]: the eight bytes of the field hold the
    value exactly. *)
Theorem X20_set_then_get_double StringToInt strtod b table field val :
  base_type_of field = reflection.Double ->
  field_stored b table (reflection.offset field) (fsizeof double_) = true ->
  valid_binary 53 1024 val = true ->
  exists b',
    SetAnyFieldF b table field val = Ok b' /\
    GetAnyFieldF StringToInt strtod b' table field = Ok val.
Proof.
  intros Hbt Hst Hval. apply field_stored_true in Hst.
  destruct Hst as (vtable & off & Hv & Hoff & Hf & Ho & Hlo & Hhi & Hapart).
  change (sizeof soffset_t) with 4 in *. change (sizeof voffset_t) with 2 in *.
  change (fsizeof double_) with 8 in *.
  destruct (WriteFloat double_ b (table + off) val) as [b'| |] eqn:Hwr.
  2,3: exfalso; unfold WriteFloat, store in Hwr;
       rewrite length_le_split in Hwr;
       replace (in_bounds b (table + off) (Z.of_nat (fwidth double_)))
         with true in Hwr
         by (symmetry; apply in_bounds_true; simpl; lia);
       discriminate.
  exists b'. split.
  - unfold SetAnyFieldF, SetFieldF, Table_SetField. rewrite Hbt.
    cbn [GetTypeSize]. simpl assert. cbn [rbind]. rewrite Hoff.
    cbn [rbind].
    replace (off =? 0) with false by (symmetry; apply Z.eqb_neq; lia).
    rewrite Hwr. reflexivity.
  - unfold GetAnyFieldF, GetFieldF, Table_GetField. rewrite Hbt.
    simpl assert. cbn [rbind].
    pose proof Hwr as Hch. apply WriteFloat_changes in Hch.
    destruct Hch as [Hs Hfr]. change (fsizeof double_) with 8 in Hfr.
    erewrite GetOptionalFieldOffset_ext; [|exact Hs|exact Hf|exact Hv| |].
    + rewrite Hoff. cbn [rbind].
      replace (off =? 0) with false by (symmetry; apply Z.eqb_neq; lia).
      eapply ReadFloat_WriteFloat_double; [exact Hval|exact Hwr].
    + intros p Hp. apply Hfr. change (sizeof soffset_t) with 4 in Hp. lia.
    + intros p Hp. apply Hfr. change (sizeof voffset_t) with 2 in Hp. lia.
Qed.

Lemma X20_set_then_get_double_witness :
  base_type_of Reading.value = reflection.Double /\
  field_stored Reading.buf Reading.root (reflection.offset Reading.value)
    (fsizeof double_) = true /\
  valid_binary 53 1024 Pt.three = true /\
  exists b',
    SetAnyFieldF Reading.buf Reading.root Reading.value Pt.three = Ok b' /\
    GetAnyFieldF (fun _ => 0) (fun _ => S754_zero false) b' Reading.root
      Reading.value = Ok Pt.three.
Proof.
  split; [reflexivity|]. split; [reflexivity|]. split; [reflexivity|].
  apply X20_set_then_get_double; reflexivity.
Defined.

(* ================================================================== *)
(** * What [SetString] and [ResizeVector] leave of the buffer *)

Lemma cast_int32_small z : 0 <= z < 2 ^ 31 -> cast int32_t z = z.
Proof.
  intros Hz. apply cast_in_range. unfold in_range. simpl.
  apply andb_true_iff. split; [apply Z.leb_le|apply Z.ltb_lt]; lia.
Qed.

(** X21. After a [SetString] that makes the string longer, the buffer is
    larger by the rounded difference in length, the bytes before the
    characters of the string are where they were, and the bytes behind the
    old string and its terminator have moved up by the rounded difference;
    each of them keeps its value unless it lies in a slot patched by the
    walk. *)
Theorem X21_SetString_grow_keeps_the_rest
  schema val str flatbuf flatbuf' len delta_ :
  String_Length flatbuf str = Ok len ->
  str + 4 < 2 ^ 32 ->
  len < size val < 2 ^ 31 ->
  round_delta (size val - len) = Ok delta_ ->
  SetString schema val str flatbuf = Ok flatbuf' ->
  size flatbuf' = size flatbuf + delta_ /\
  forall p, unpatched schema (str + 4) (size val - len) flatbuf p ->
    (p < str + 4 -> byte_at flatbuf' p = byte_at flatbuf p) /\
    (str + 4 + len + 1 <= p ->
     byte_at flatbuf' (p + delta_) = byte_at flatbuf p).
Proof.
  intros Hlen Hstr Hval Hd H.
  pose proof Hlen as Hl0.
  apply ReadScalar_unsigned_nonneg in Hl0; [|reflexivity].
  eapply SetString_steps in H; [|exact Hlen|exact Hstr].
  destruct H as (flatbuf1 & Hcpy & _ & Hgrow & _).
  rewrite !cast_int32_small in Hgrow by lia.
  specialize (Hgrow ltac:(lia)).
  pose proof (round_delta_spec _ Hd) as [_ Hr].
  eapply ResizeContext_grows in Hgrow; [|exact Hd|lia].
  destruct Hgrow as (_ & Hsize & _ & Hbytes).
  pose proof Hcpy as Hsz. apply store_size in Hsz.
  split; [lia|]. intros p Hp. destruct (Hbytes p Hp) as [Hlow Hup].
  assert (Hvn : size val = Z.of_nat (length val)) by reflexivity.
  split; intros Hps.
  - rewrite <- Hlow by exact Hps.
    eapply store_frame; [exact Hcpy|lia].
  - rewrite <- Hup by lia.
    eapply store_frame; [exact Hcpy|]. rewrite length_app. simpl. lia.
Qed.

Lemma X21_SetString_grow_keeps_the_rest_witness :
  String_Length Pet.buf Pet.name_str = Ok 2 /\
  Pet.name_str + 4 < 2 ^ 32 /\
  2 < size (chars "abcdef") < 2 ^ 31 /\
  round_delta (size (chars "abcdef") - 2) = Ok 8 /\
  SetString Pet.schema (chars "abcdef") Pet.name_str Pet.buf
    = Ok Pet_abcdef /\
  size Pet_abcdef = size Pet.buf + 8.
Proof.
  assert (H1 : String_Length Pet.buf Pet.name_str = Ok 2) by reflexivity.
  assert (H2 : Pet.name_str + 4 < 2 ^ 32) by reflexivity.
  assert (H3 : 2 < size (chars "abcdef") < 2 ^ 31) by (split; reflexivity).
  assert (H4 : round_delta (size (chars "abcdef") - 2) = Ok 8)
    by reflexivity.
  assert (H5 : SetString Pet.schema (chars "abcdef") Pet.name_str Pet.buf
               = Ok Pet_abcdef) by (vm_compute; reflexivity).
  split; [exact H1|]. split; [exact H2|]. split; [exact H3|].
  split; [exact H4|]. split; [exact H5|].
  exact (proj1 (@X21_SetString_grow_keeps_the_rest Pet.schema
                  (chars "abcdef") Pet.name_str Pet.buf Pet_abcdef 2 8
                  H1 H2 H3 H4 H5)).
Defined.

(** X22. After a [SetString] that makes the string shorter, the buffer is
    smaller by the rounded difference in length (which may be 0), the
    bytes before the characters of the string are where they were, and so
    are, moved down by the rounded difference, the bytes that lay at least
    the old length behind the end of the removed range (provided the
    length header is not itself a slot patched by the walk); each of them
    keeps its value unless it lies in a slot patched by the walk. *)
Theorem X22_SetString_shrink_keeps_the_rest
  schema val str flatbuf flatbuf' len delta_ :
  String_Length flatbuf str = Ok len ->
  str + 4 < 2 ^ 32 ->
  size val < len < 2 ^ 31 ->
  round_delta (size val - len) = Ok delta_ ->
  (forall p, str <= p < str + 4 ->
             unpatched schema (str + 4) (size val - len) flatbuf p) ->
  SetString schema val str flatbuf = Ok flatbuf' ->
  size flatbuf' = size flatbuf + delta_ /\
  forall p, unpatched schema (str + 4) (size val - len) flatbuf p ->
    (p < str + 4 -> byte_at flatbuf' p = byte_at flatbuf p) /\
    (str + 4 - delta_ + len <= p ->
     byte_at flatbuf' (p + delta_) = byte_at flatbuf p).
Proof.
  intros Hlen Hstr Hval Hd Hhdr H.
  pose proof (size_nonneg val) as Hv0.
  eapply SetString_steps in H; [|exact Hlen|exact Hstr].
  destruct H as (flatbuf1 & Hcpy & _ & _ & Hshrink).
  rewrite !cast_int32_small in Hshrink by lia.
  destruct (Hshrink ltac:(lia)) as (fb & len' & Hfb & Hlen' & Hset).
  clear Hshrink.
  pose proof (round_delta_spec _ Hd) as [Hm Hr].
  pose proof (Z.div_mod delta_ 8 ltac:(lia)) as Hq. rewrite Hm in Hq.
  assert (Hvn : size val = Z.of_nat (length val)) by reflexivity.
  (* the buffer after the resize *)
  assert (Hres : size fb = size flatbuf + delta_ /\
            forall p, unpatched schema (str + 4) (size val - len) flatbuf p ->
              (p < str + 4 -> byte_at fb p = byte_at flatbuf p) /\
              (str + 4 - delta_ <= p ->
               byte_at fb (p + delta_) = byte_at flatbuf p)).
  { destruct (Z.eq_dec delta_ 0) as [->|Hnz].
    - apply ResizeContext_Ok in Hfb.
      destruct Hfb as (d & Hd' & H0 & _). rewrite Hd in Hd'.
      injection Hd' as <-. rewrite (H0 eq_refl).
      split; [lia|]. intros p _. split; intros _; [reflexivity|].
      now rewrite Z.add_0_r.
    - eapply ResizeContext_shrinks in Hfb; [|exact Hd|lia].
      destruct Hfb as (_ & _ & Hs & Hb). split; [exact Hs|exact Hb]. }
  destruct Hres as [Hsize Hbytes].
  (* the length that is cleared *)
  assert (len' = len) as ->.
  { unfold String_Length in *.
    assert (E : ReadScalar uoffset_t fb str = Ok len).
    { eapply ReadScalar_agree; [simpl; lia|exact Hlen|].
      intros p Hp. change (sizeof uoffset_t) with 4 in Hp.
      apply (Hbytes p); [apply Hhdr|]; lia. }
    congruence. }
  pose proof Hset as Hsz1. apply store_size in Hsz1.
  pose proof Hcpy as Hsz2. apply store_size in Hsz2.
  split; [lia|]. intros p Hp. destruct (Hbytes p Hp) as [Hlow Hup].
  split; intros Hps.
  - rewrite <- Hlow by exact Hps.
    erewrite store_frame; [|exact Hcpy|lia].
    eapply store_frame; [exact Hset|lia].
  - rewrite <- Hup by lia.
    erewrite store_frame; [|exact Hcpy|rewrite length_app; simpl; lia].
    eapply store_frame; [exact Hset|]. rewrite repeat_length. lia.
Qed.

Lemma X22_SetString_shrink_keeps_the_rest_witness :
  String_Length Memo.buf Memo.text_str = Ok 12 /\
  Memo.text_str + 4 < 2 ^ 32 /\
  size (chars "hi") < 12 < 2 ^ 31 /\
  round_delta (size (chars "hi") - 12) = Ok (-8) /\
  SetString Memo.schema (chars "hi") Memo.text_str Memo.buf = Ok Memo_hi /\
  size Memo_hi = size Memo.buf + -8.
Proof.
  assert (H1 : String_Length Memo.buf Memo.text_str = Ok 12) by reflexivity.
  assert (H2 : Memo.text_str + 4 < 2 ^ 32) by reflexivity.
  assert (H3 : size (chars "hi") < 12 < 2 ^ 31) by (split; reflexivity).
  assert (H4 : round_delta (size (chars "hi") - 12) = Ok (-8))
    by reflexivity.
  assert (H5 : forall p, Memo.text_str <= p < Memo.text_str + 4 ->
     unpatched Memo.schema (Memo.text_str + 4) (size (chars "hi") - 12)
       Memo.buf p).
  { intros p Hp. unfold unpatched.
    assert (E : patched_slots Memo.schema (Memo.text_str + 4)
                  (size (chars "hi") - 12) Memo.buf = [24])
      by (vm_compute; reflexivity).
    rewrite E. unfold Memo.text_str in Hp.
    constructor; [|constructor]. change (sizeof uoffset_t) with 4. lia. }
  assert (H6 : SetString Memo.schema (chars "hi") Memo.text_str Memo.buf
               = Ok Memo_hi) by (vm_compute; reflexivity).
  split; [exact H1|]. split; [exact H2|]. split; [exact H3|].
  split; [exact H4|]. split; [exact H6|].
  exact (proj1 (@X22_SetString_shrink_keeps_the_rest Memo.schema
                  (chars "hi") Memo.text_str Memo.buf Memo_hi 12 (-8)
                  H1 H2 H3 H4 H5 H6)).
Defined.

(** X23. After [ResizeVector] on a vector of scalars, the buffer is larger
    or smaller by the rounded difference in bytes, the bytes before the
    vector and the elements the vector had are where they were, and the
    bytes behind the vector, when the buffer shrank those behind the
    removed range, have moved by the rounded difference; each of them keeps
    its value unless it lies in a slot patched by the walk. *)
Theorem X23_ResizeVector_keeps_the_rest
  schema T val newsize vec flatbuf flatbuf' n delta_ :
  (0 < width T <= 8)%nat ->
  Vector_size flatbuf vec = Ok n ->
  n < 2 ^ 31 -> 0 <= newsize < 2 ^ 31 -> newsize <> n ->
  vec + 4 + sizeof T * n < 2 ^ 32 ->
  round_delta ((newsize - n) * sizeof T) = Ok delta_ ->
  ResizeVector schema newsize (ScalarFill T val) vec flatbuf = Ok flatbuf' ->
  size flatbuf' = size flatbuf + delta_ /\
  forall p,
    unpatched schema (vec + 4 + sizeof T * n) ((newsize - n) * sizeof T)
      flatbuf p ->
    (p < vec \/ vec + 4 <= p < vec + 4 + sizeof T * n ->
     byte_at flatbuf' p = byte_at flatbuf p) /\
    (vec + 4 + sizeof T * n + Z.max 0 (- delta_) <= p ->
     byte_at flatbuf' (p + delta_) = byte_at flatbuf p).
Proof.
  intros HT Hn Hn31 Hnew Hne Hvec Hd H.
  pose proof Hn as Hn0. unfold Vector_size in Hn0.
  apply ReadScalar_unsigned_nonneg in Hn0; [|reflexivity].
  assert (Hsz : 0 < sizeof T <= 8) by (unfold sizeof; lia).
  eapply ResizeVector_steps in H;
    [|exact HT|exact Hn|lia|lia|exact Hne|exact Hvec].
  destruct H as (fb & fb1 & Hfb & Hfb1 & Hfill).
  set (start := vec + 4 + sizeof T * n) in *.
  set (delta := (newsize - n) * sizeof T) in *.
  pose proof (round_delta_spec _ Hd) as [Hm Hr].
  pose proof (Z.div_mod delta_ 8 ltac:(lia)) as Hq. rewrite Hm in Hq.
  apply fill_new_elements_scalar in Hfill; [|lia|lia].
  destruct Hfill as (Hs2 & Hfr2 & _).
  pose proof Hfb1 as Hch. apply WriteScalar_changes in Hch.
  destruct Hch as [Hs1 Hfr1]. change (sizeof uoffset_t) with 4 in Hfr1.
  (* the buffer after the resize *)
  assert (Hres : size fb = size flatbuf + delta_ /\
            forall p, unpatched schema start delta flatbuf p ->
              (p < start -> byte_at fb p = byte_at flatbuf p) /\
              (start + Z.max 0 (- delta_) <= p ->
               byte_at fb (p + delta_) = byte_at flatbuf p)).
  { destruct (Z.eq_dec delta_ 0) as [->|Hnz].
    - apply ResizeContext_Ok in Hfb.
      destruct Hfb as (d & Hd' & H0 & _). rewrite Hd in Hd'.
      injection Hd' as <-. rewrite (H0 eq_refl).
      split; [lia|]. intros p _. split; intros _; [reflexivity|].
      now rewrite Z.add_0_r.
    - destruct (Z_lt_le_dec delta_ 0) as [Hneg|Hpos].
      + eapply ResizeContext_shrinks in Hfb; [|exact Hd|lia].
        destruct Hfb as (_ & _ & Hs & Hb). split; [exact Hs|].
        intros p Hp. destruct (Hb p Hp) as [Hlow Hup].
        split; [exact Hlow|]. intros Hps. apply Hup. lia.
      + eapply ResizeContext_grows in Hfb; [|exact Hd|lia].
        destruct Hfb as (_ & Hs & _ & Hb). split; [exact Hs|].
        intros p Hp. destruct (Hb p Hp) as [Hlow Hup].
        split; [exact Hlow|]. intros Hps. apply Hup. lia. }
  destruct Hres as [Hsize Hbytes].
  split; [lia|]. intros p Hp. destruct (Hbytes p Hp) as [Hlow Hup].
  assert (Hk : 0 <= Z.of_nat (Z.to_nat (newsize - n)) * sizeof T <= 
               Z.max 0 delta_).
  { destruct (Z_lt_le_dec newsize n) as [Hlt|Hge].
    - replace (Z.to_nat (newsize - n)) with 0%nat by lia. lia.
    - rewrite Z2Nat.id by lia. unfold delta in Hr. nia. }
  split; intros Hps.
  - rewrite <- Hlow by (unfold start; lia).
    rewrite Hfr2 by (unfold start in *; lia).
    apply Hfr1. unfold start in *. lia.
  - rewrite <- Hup by exact Hps.
    rewrite Hfr2 by lia.
    apply Hfr1. unfold start in *. lia.
Qed.

Lemma X23_ResizeVector_keeps_the_rest_witness :
  (0 < width int32_t <= 8)%nat /\
  Vector_size Farm.buf Farm.vec = Ok 3 /\
  3 < 2 ^ 31 /\ 0 <= 4 < 2 ^ 31 /\ 4 <> 3 /\
  Farm.vec + 4 + sizeof int32_t * 3 < 2 ^ 32 /\
  round_delta ((4 - 3) * sizeof int32_t) = Ok 8 /\
  ResizeVector Farm.schema 4 (ScalarFill int32_t 7) Farm.vec Farm.buf
    = Ok Farm_grown /\
  size Farm_grown = size Farm.buf + 8.
Proof.
  assert (H1 : (0 < width int32_t <= 8)%nat) by (simpl; lia).
  assert (H2 : Vector_size Farm.buf Farm.vec = Ok 3) by reflexivity.
  assert (H3 : 3 < 2 ^ 31) by reflexivity.
  assert (H4 : 0 <= 4 < 2 ^ 31) by (split; [lia|reflexivity]).
  assert (H5 : 4 <> 3) by lia.
  assert (H6 : Farm.vec + 4 + sizeof int32_t * 3 < 2 ^ 32) by reflexivity.
  assert (H7 : round_delta ((4 - 3) * sizeof int32_t) = Ok 8) by reflexivity.
  assert (H8 : ResizeVector Farm.schema 4 (ScalarFill int32_t 7) Farm.vec
                 Farm.buf = Ok Farm_grown) by (vm_compute; reflexivity).
  split; [exact H1|]. split; [exact H2|]. split; [exact H3|].
  split; [exact H4|]. split; [exact H5|]. split; [exact H6|].
  split; [exact H7|]. split; [exact H8|].
  exact (proj1 (@X23_ResizeVector_keeps_the_rest Farm.schema int32_t 7 4
                  Farm.vec Farm.buf Farm_grown 3 8
                  H1 H2 H3 H4 H5 H6 H7 H8)).
Defined.
